(** * Tic-tac-toe decision engine (tictactoe.py): shallow embedding

    The Python program keeps one mutable board (a list of nine one-character
    strings), searches the game tree by placing and reverting marks on that
    very list, caches scores in a dict keyed by a string, and degrades the
    perfect move with draws from the [random] module.

    The embedding keeps all of that visible:
    - the board is a [list cell]; every function that assigns to [b[m]] takes
      the board and returns the board it leaves behind;
    - an index that is out of range raises [IndexError], as in Python;
    - the memo table is a [gmap string Z] threaded through [minimax];
    - the console narration is a list of structured [event]s;
    - the two draws of the random module are fields of a [random_source];
    - the recursion of [minimax] is bounded by a fuel that the theorems show
      to be sufficient;
    - the console is explicit: a function that reads takes the lines still
      to be typed and everything written so far and returns both ([io]);
      [print_board] returns the text it prints; a Python [str] is a sequence
      of code points below 256;
    - the loop of [main] is bounded by a fuel of one pass per cell and one
      more, which the theorems show to be sufficient. *)

From Stdlib Require Import QArith Ascii.
From stdpp Require Import base numbers list sorting strings pretty gmap.

Local Open Scope Z_scope.

(** * The program *)

(** ** Results of a computation that can raise *)

Inductive exn := IndexError.

Inductive result (A : Type) : Type :=
| Ok (a : A)
| Raise (e : exn)
| OutOfFuel.
Arguments Ok {A} a.
Arguments Raise {A} e.
Arguments OutOfFuel {A}.

#[global] Instance result_ret : MRet result := λ A a, Ok a.
#[global] Instance result_bind : MBind result := λ A B f r,
  match r with
  | Ok a => f a
  | Raise e => Raise e
  | OutOfFuel => OutOfFuel
  end.

(** ** Data model *)

(** [EMPTY = " "], [HUMAN = "O"], [AI = "X"]. *)
Inductive cell := EMPTY | HUMAN | AI.

#[global] Instance cell_eq_dec : EqDecision cell.
Proof. solve_decision. Defined.

Definition cell_str (c : cell) : string :=
  match c with
  | EMPTY => " "
  | HUMAN => "O"
  | AI => "X"
  end%string.

Abbreviation board := (list cell).
Abbreviation memo_table := (gmap string Z).

Definition WIN_LINES : list (nat * nat * nat) :=
  [ (0, 1, 2); (3, 4, 5); (6, 7, 8);
    (0, 3, 6); (1, 4, 7); (2, 5, 8);
    (0, 4, 8); (2, 4, 6) ]%nat.

(** [b[i]] with a non-negative index. *)
Definition getitem {A} (l : list A) (i : nat) : result A :=
  match l !! i with
  | Some x => Ok x
  | None => Raise IndexError
  end.

(** [b[i] = v] with a non-negative index. *)
Definition setitem (b : board) (i : nat) (v : cell) : result board :=
  if decide (i < length b)%nat then Ok (<[i := v]> b) else Raise IndexError.

(** [b[i] = v] with a Python [int]: a negative index counts from the end. *)
Definition setitem_int (b : board) (i : Z) (v : cell) : result board :=
  if decide (0 ≤ i) then setitem b (Z.to_nat i) v
  else if decide (- Z.of_nat (length b) ≤ i)
       then setitem b (Z.to_nat (Z.of_nat (length b) + i)) v
       else Raise IndexError.

(** ** Board model *)

(** One iteration of the loop of [winner]:
    [b[a] != EMPTY and b[a] == b[c] == b[d]], evaluated left to right with
    Python's short circuits, so [b[c]] and [b[d]] are read only when needed. *)
Definition line_complete (b : board) (l : nat * nat * nat) : result bool :=
  let '(a, c, d) := l in
  x ← getitem b a;
  if decide (x ≠ EMPTY) then
    y ← getitem b c;
    if decide (x = y) then
      z ← getitem b d;
      mret (bool_decide (y = z))
    else mret false
  else mret false.

Fixpoint winner_in (lines : list (nat * nat * nat)) (b : board)
  : result (option cell) :=
  match lines with
  | [] => mret None
  | l :: rest =>
      full ← line_complete b l;
      if (full : bool) then (x ← getitem b (l.1.1); mret (Some x))
      else winner_in rest b
  end.

Definition winner (b : board) : result (option cell) := winner_in WIN_LINES b.

Definition is_draw (b : board) : result bool :=
  w ← winner b;
  mret (bool_decide (w = None) && forallb (λ x, bool_decide (x ≠ EMPTY)) b).

Fixpoint enumerate_from {A} (i : nat) (l : list A) : list (nat * A) :=
  match l with
  | [] => []
  | x :: xs => (i, x) :: enumerate_from (S i) xs
  end.

Definition enumerate {A} (l : list A) : list (nat * A) := enumerate_from 0 l.

Definition available_moves (b : board) : list nat :=
  (filter (λ p, p.2 = EMPTY) (enumerate b)).*1.

Fixpoint winning_moves_loop (player : cell) (moves : list nat)
    (wins : list nat) (b : board) : result (list nat * board) :=
  match moves with
  | [] => mret (wins, b)
  | m :: rest =>
      b ← setitem b m player;
      w ← winner b;
      let wins := if decide (w = Some player) then wins ++ [m] else wins in
      b ← setitem b m EMPTY;
      winning_moves_loop player rest wins b
  end.

(** Returns the moves that make [player] win immediately, and the board as
    the loop leaves it. *)
Definition winning_moves (b : board) (player : cell)
  : result (list nat * board) :=
  winning_moves_loop player (available_moves b) [] b.

(** ** Search engine *)

(** ["".join(b) + turn] *)
Definition board_key (b : board) (turn : cell) : string :=
  String.concat ""%string (cell_str <$> b) +:+ cell_str turn.

(** The two [for m in moves] loops of [minimax] differ in the mark placed
    and in [max]/[min]; [rec] is the recursive call on the other turn. *)
Fixpoint minimax_loop
    (rec : board → memo_table → result (Z * board * memo_table))
    (mark : cell) (pick : Z → Z → Z)
    (moves : list nat) (best : Z) (b : board) (memo : memo_table)
  : result (Z * board * memo_table) :=
  match moves with
  | [] => mret (best, b, memo)
  | m :: rest =>
      b ← setitem b m mark;
      '(score, b, memo) ← rec b memo;
      b ← setitem b m EMPTY;
      minimax_loop rec mark pick rest (pick best score) b memo
  end.

(** [fuel] bounds the depth of the recursion. *)
Fixpoint minimax_fuel (fuel : nat) (b : board) (turn : cell)
    (memo : memo_table) : result (Z * board * memo_table) :=
  match fuel with
  | O => OutOfFuel
  | S fuel =>
      w ← winner b;
      if decide (w = Some AI) then mret (1, b, memo)
      else if decide (w = Some HUMAN) then mret (-1, b, memo)
      else
        draw ← is_draw b;
        if (draw : bool) then mret (0, b, memo)
        else
          let key := board_key b turn in
          match memo !! key with
          | Some v => mret (v, b, memo)
          | None =>
              let moves := available_moves b in
              if decide (turn = AI) then
                '(best, b, memo) ←
                  minimax_loop (λ b memo, minimax_fuel fuel b HUMAN memo)
                               AI Z.max moves (-10) b memo;
                mret (best, b, <[key := best]> memo)
              else
                '(best, b, memo) ←
                  minimax_loop (λ b memo, minimax_fuel fuel b AI memo)
                               HUMAN Z.min moves 10 b memo;
                mret (best, b, <[key := best]> memo)
          end
  end.

(** Every recursive call runs on a board with one more mark, so the depth
    never exceeds the number of cells plus one. *)
Definition minimax (b : board) (turn : cell) (memo : memo_table)
  : result (Z * board * memo_table) :=
  minimax_fuel (S (length b)) b turn memo.

(** ** Move selector *)

(** The lines printed by [best_ai_move] and [choose_ai_move]. *)
Inductive event :=
| ThreatWarning (threats : list nat)
| Thinking
| ImmediateWin (m : nat)
| MoveScore (m : nat) (score : Z) (blocks_threat : bool)
            (human_wins_next : list nat)
| Chosen (m : Z)
| ChoosesBest (difficulty : string)
| Mistake (difficulty : string) (mistake : nat) (best : Z).

Fixpoint best_ai_move_loop (human_threats_now : list nat) (moves : list nat)
    (best_score best_move : Z) (b : board) (memo : memo_table)
    (out : list event) : result (Z * board * list event) :=
  match moves with
  | [] => mret (best_move, b, out ++ [Chosen best_move])
  | m :: rest =>
      b ← setitem b m AI;
      w ← winner b;
      if decide (w = Some AI) then
        b ← setitem b m EMPTY;
        mret (Z.of_nat m, b, out ++ [ImmediateWin m; Chosen (Z.of_nat m)])
      else
        '(human_wins_next, b) ← winning_moves b HUMAN;
        '(score, b, memo) ← minimax b HUMAN memo;
        b ← setitem b m EMPTY;
        let out :=
          out ++ [MoveScore m score (bool_decide (m ∈ human_threats_now))
                            human_wins_next] in
        if decide (score > best_score)
        then best_ai_move_loop human_threats_now rest score (Z.of_nat m)
                               b memo out
        else best_ai_move_loop human_threats_now rest best_score best_move
                               b memo out
  end.

Definition best_ai_move (b : board) : result (Z * board * list event) :=
  let memo : memo_table := ∅ in
  let best_score := -10 in
  let best_move := -1 in
  '(human_threats_now, b) ← winning_moves b HUMAN;
  let out := match human_threats_now with
             | [] => []
             | _ => [ThreatWarning human_threats_now]
             end ++ [Thinking] in
  best_ai_move_loop human_threats_now (available_moves b)
                    best_score best_move b memo out.

(** The values the [random] module hands out during one call:
    [random.random()] and, for [random.choice], the index drawn for a
    sequence of the given length. *)
Record random_source := {
  rnd_random : Q;
  rnd_randbelow : nat → nat;
}.

(** [random.choice(seq)] *)
Definition choice {A} (rnd : random_source) (seq : list A) : result A :=
  match seq with
  | [] => Raise IndexError
  | _ => getitem seq (rnd_randbelow rnd (length seq))
  end.

(** The binary64 values of the literals [0.7] and [0.35]. *)
Definition p_medium : Q := 6305039478318694 # 9007199254740992.
Definition p_easy : Q := 6305039478318694 # 18014398509481984.

Definition choose_ai_move (b : board) (difficulty : string)
    (rnd : random_source) : result (Z * board * list event) :=
  '(best, b, out) ← best_ai_move b;
  if decide (difficulty = "hard"%string) then mret (best, b, out)
  else
    let moves := available_moves b in
    if decide (length moves = 1%nat) then mret (best, b, out)
    else
      let p_best := if decide (difficulty = "medium"%string) then p_medium
                    else p_easy in
      if Qlt_le_dec (rnd_random rnd) p_best
      then mret (best, b, out ++ [ChoosesBest difficulty])
      else
        let other_moves := filter (λ m, Z.of_nat m ≠ best) moves in
        mistake ← choice rnd other_moves;
        mret (Z.of_nat mistake, b,
              out ++ [Mistake difficulty mistake best]).

(** ** The game loop of [main] *)

Inductive status :=
| Playing (turn : cell)
| Over (w : option cell).

(** The end of the loop body: after a mark was placed by [turn]. *)
Definition after_move (turn : cell) (b : board) : result status :=
  w ← winner b;
  if decide (w ≠ None) then mret (Over w)
  else
    draw ← is_draw b;
    if (draw : bool) then mret (Over None)
    else mret (Playing (if decide (turn = AI) then HUMAN else AI)).

(** [move = choose_ai_move(b, difficulty); b[move] = AI] *)
Definition ai_turn (b : board) (difficulty : string) (rnd : random_source)
  : result (board * list event) :=
  '(move, b, out) ← choose_ai_move b difficulty rnd;
  b ← setitem_int b move AI;
  mret (b, out).

(** [move = ask_human_move(b); b[move] = HUMAN], for the validated
    position [pos] the player typed. *)
Definition human_turn (b : board) (pos : nat) : result board :=
  setitem b pos HUMAN.

(** ** Strings of the console *)

(** A Python [str] is taken as a sequence of code points below 256 (ASCII
    and Latin-1); the classes below are those of Python on this range. *)
Definition code (c : ascii) : nat := nat_of_ascii c.

(** [c.isspace()]: tab to carriage return, the four separators, the space,
    next-line and no-break space. *)
Definition isspace (c : ascii) : bool :=
  (((9 <=? code c) && (code c <=? 13)) || ((28 <=? code c) && (code c <=? 32))
   || (code c =? 133) || (code c =? 160))%nat.

Fixpoint lstrip_chars (l : list ascii) : list ascii :=
  match l with
  | c :: rest => if isspace c then lstrip_chars rest else l
  | [] => []
  end.

(** [s.strip()] *)
Definition strip (s : string) : string :=
  String.string_of_list_ascii
    (reverse (lstrip_chars (reverse (lstrip_chars (String.list_ascii_of_string s))))).

(** The decimal digits, the only characters [int] reads as digits. *)
Definition isdecimal_char (c : ascii) : bool :=
  ((48 <=? code c) && (code c <=? 57))%nat.

(** [c.isdigit()]: the decimal digits and the superscripts two, three and
    one. *)
Definition isdigit_char (c : ascii) : bool :=
  isdecimal_char c
  || ((code c =? 178) || (code c =? 179) || (code c =? 185))%nat.

(** [s.isdigit()]: false on the empty string. *)
Definition isdigit (s : string) : bool :=
  match String.list_ascii_of_string s with
  | [] => false
  | l => forallb isdigit_char l
  end.

(** [int(s)] for a string that passed [isdigit], the only way the program
    calls it: the decimal value, and [None] for the [ValueError] that a
    superscript digit causes.  The interpreter's limit on the length of an
    integer string is not modelled. *)
Definition int_digits (s : string) : option Z :=
  let l := String.list_ascii_of_string s in
  if forallb isdecimal_char l
  then Some (foldl (λ acc c, 10 * acc + (Z.of_nat (code c) - 48)) 0 l)
  else None.

(** [c.lower()]: the capital letters of ASCII and of Latin-1. *)
Definition lower_char (c : ascii) : ascii :=
  if (((65 <=? code c) && (code c <=? 90))
      || ((192 <=? code c) && (code c <=? 222) && negb (code c =? 215)))%nat
  then ascii_of_nat (code c + 32) else c.

(** [s.lower()] *)
Definition lower (s : string) : string :=
  String.string_of_list_ascii (lower_char <$> String.list_ascii_of_string s).

(** The newline character of the string literals. *)
Definition nl : string := String (ascii_of_nat 10) EmptyString.

(** ** Console *)

(** What the program writes: the prompt of an [input], the text of a
    [print] (without the newline [print] adds), or one of the lines of
    [best_ai_move] and [choose_ai_move]. *)
Inductive output :=
| Prompt (text : string)
| Line (text : string)
| Narration (e : event).

Inductive io_error :=
| EOFError
| ValueError
| BoardError (e : exn).

(** The outcome of a function that reads the console: its value, the lines
    not yet read and everything written so far; or the exception that ends
    the program; or, for the game loop, the exhaustion of its fuel. *)
Inductive io (A : Type) : Type :=
| Return (a : A) (stdin : list string) (stdout : list output)
| Fail (e : io_error)
| Diverge.
Arguments Return {A} a stdin stdout.
Arguments Fail {A} e.
Arguments Diverge {A}.

(** [str(i)] for an [int]. *)
Definition str (i : Z) : string := pretty i.

(** The function [cell] inside [print_board]. *)
Definition cell_text (b : board) (i : nat) : result string :=
  x ← getitem b i;
  if decide (x ≠ EMPTY) then y ← getitem b i; mret (cell_str y)
  else mret (str (Z.of_nat i + 1)).

Definition row_text (b : board) (i : nat) : result string :=
  c0 ← cell_text b i;
  c1 ← cell_text b (i + 1);
  c2 ← cell_text b (i + 2);
  mret (" " +:+ c0 +:+ " | " +:+ c1 +:+ " | " +:+ c2 +:+ " ").

(** The text [print_board] hands to [print]. *)
Definition print_board (b : board) : result string :=
  r0 ← row_text b 0;
  r1 ← row_text b 3;
  r2 ← row_text b 6;
  mret (String.concat (nl +:+ "---+---+---" +:+ nl) [r0; r1; r2]).

(** One iteration of the [while True] of [ask_human_move] per line read. *)
Fixpoint ask_human_move (b : board) (stdin : list string)
    (stdout : list output) : io Z :=
  match stdin with
  | [] => Fail EOFError
  | line :: stdin =>
      let stdout := stdout ++ [Prompt "Choose a position (1-9): "] in
      let s := strip line in
      if negb (isdigit s)
      then ask_human_move b stdin
             (stdout ++ [Line "Please type a number 1-9."])
      else
        match int_digits s with
        | None => Fail ValueError
        | Some n =>
            let pos := n - 1 in
            if decide (pos < 0 ∨ pos > 8)
            then ask_human_move b stdin
                   (stdout ++ [Line "Out of range. Use 1-9."])
            else
              match getitem b (Z.to_nat pos) with
              | Ok x =>
                  if decide (x ≠ EMPTY)
                  then ask_human_move b stdin
                         (stdout ++ [Line "That spot is taken."])
                  else Return pos stdin stdout
              | Raise e => Fail (BoardError e)
              | OutOfFuel => Diverge
              end
        end
  end.

Fixpoint choose_starting_player (stdin : list string)
    (stdout : list output) : io cell :=
  match stdin with
  | [] => Fail EOFError
  | line :: stdin =>
      let stdout := stdout ++ [Prompt "Who starts? (H)uman / (A)I: "] in
      let s := lower (strip line) in
      if decide (s ∈ ["h"; "human"]%string) then Return HUMAN stdin stdout
      else if decide (s ∈ ["a"; "ai"]%string) then Return AI stdin stdout
      else choose_starting_player stdin
             (stdout ++ [Line "Please type H or A."])
  end.

Fixpoint choose_difficulty (stdin : list string)
    (stdout : list output) : io string :=
  match stdin with
  | [] => Fail EOFError
  | line :: stdin =>
      let stdout :=
        stdout ++ [Prompt "Choose difficulty: (E)asy / (M)edium / (H)ard: "] in
      let s := lower (strip line) in
      if decide (s ∈ ["e"; "easy"]%string) then Return "easy"%string stdin stdout
      else if decide (s ∈ ["m"; "medium"]%string)
      then Return "medium"%string stdin stdout
      else if decide (s ∈ ["h"; "hard"]%string)
      then Return "hard"%string stdin stdout
      else choose_difficulty stdin
             (stdout ++ [Line "Please type E, M, or H."])
  end.

(** The part of the loop body of [main] after the move: the blank line, the
    board, and the tests that end the game.  [None] means the loop goes on. *)
Definition show_and_judge (b : board) (stdout : list output)
  : result (option (list output) * list output) :=
  text ← print_board b;
  let stdout := stdout ++ [Line ""; Line text] in
  w ← winner b;
  if decide (w ≠ None)
  then mret (Some (stdout ++ [Line (nl +:+ "Result: " +:+
                                     (if decide (w = Some AI) then "AI wins."
                                      else "You win!"))]), stdout)
  else
    draw ← is_draw b;
    if (draw : bool)
    then mret (Some (stdout ++ [Line (nl +:+ "Result: Draw.")]), stdout)
    else mret (None, stdout).

(** The [while True] of [main].  [rnds k] holds the draws of the random
    module during the call of [choose_ai_move] in iteration [k]. *)
Fixpoint game_loop (fuel : nat) (turn : cell) (difficulty : string)
    (b : board) (k : nat) (rnds : nat → random_source)
    (stdin : list string) (stdout : list output) : io board :=
  match fuel with
  | O => Diverge
  | S fuel =>
      let moved : io board :=
        if decide (turn = HUMAN) then
          match ask_human_move b stdin stdout with
          | Return move stdin stdout =>
              match setitem_int b move HUMAN with
              | Ok b => Return b stdin stdout
              | Raise e => Fail (BoardError e)
              | OutOfFuel => Diverge
              end
          | Fail e => Fail e
          | Diverge => Diverge
          end
        else
          match choose_ai_move b difficulty (rnds k) with
          | Ok (move, b, narration) =>
              match setitem_int b move AI with
              | Ok b =>
                  Return b stdin
                    (stdout ++ (Narration <$> narration)
                       ++ [Line (nl +:+ "AI plays at " +:+ str (move + 1))])
              | Raise e => Fail (BoardError e)
              | OutOfFuel => Diverge
              end
          | Raise e => Fail (BoardError e)
          | OutOfFuel => Diverge
          end in
      match moved with
      | Return b stdin stdout =>
          match show_and_judge b stdout with
          | Ok (Some stdout, _) => Return b stdin stdout
          | Ok (None, stdout) =>
              game_loop fuel (if decide (turn = AI) then HUMAN else AI)
                        difficulty b (S k) rnds stdin stdout
          | Raise e => Fail (BoardError e)
          | OutOfFuel => Diverge
          end
      | Fail e => Fail e
      | Diverge => Diverge
      end
  end.

Definition DEMO : bool := false.

(** [main], for the lines typed and the draws of the random module.  Every
    pass of the loop fills a cell, so the loop runs at most once per cell. *)
Definition main (stdin : list string) (rnds : nat → random_source)
  : io board :=
  let b : board :=
    if DEMO then [HUMAN; HUMAN; EMPTY; EMPTY; AI; EMPTY; EMPTY; EMPTY; EMPTY]
    else replicate 9 EMPTY in
  match print_board b with
  | Ok text =>
      let stdout :=
        [Line ("Tic-Tac-Toe: You are O, AI is X." +:+ nl); Line text] in
      match choose_starting_player stdin stdout with
      | Return turn stdin stdout =>
          match choose_difficulty stdin stdout with
          | Return difficulty stdin stdout =>
              game_loop (S (length b)) turn difficulty b 0 rnds stdin stdout
          | Fail e => Fail e
          | Diverge => Diverge
          end
      | Fail e => Fail e
      | Diverge => Diverge
      end
  | Raise e => Fail (BoardError e)
  | OutOfFuel => Diverge
  end.

(** * Vocabulary of the specification *)

(** ** Positions *)

Definition empty_board : board := replicate 9 EMPTY.

(** The position of the spec's immediate-win example. *)
Definition winning_position : board :=
  [AI; AI; EMPTY; HUMAN; HUMAN; EMPTY; EMPTY; EMPTY; EMPTY].

(** The position of the spec's blocking example. *)
Definition blocking_position : board :=
  [HUMAN; HUMAN; EMPTY; EMPTY; AI; EMPTY; EMPTY; EMPTY; EMPTY].

(** A position no game reaches: HUMAN has completed the top row, and AI
    would complete the bottom row at index 6. *)
Definition decided_position : board :=
  [HUMAN; HUMAN; HUMAN; EMPTY; EMPTY; EMPTY; EMPTY; AI; AI].

Definition line_full (b : board) (l : nat * nat * nat) : bool :=
  match b !! l.1.1, b !! l.1.2, b !! l.2 with
  | Some x, Some y, Some z => bool_decide (x ≠ EMPTY ∧ x = y ∧ y = z)
  | _, _, _ => false
  end.

(** Line [l] is completed by mark [x]. *)
Definition completed (b : board) (l : nat * nat * nat) (x : cell) : Prop :=
  b !! l.1.1 = Some x ∧ b !! l.1.2 = Some x ∧ b !! l.2 = Some x ∧ x ≠ EMPTY.

Definition winner_of (b : board) : option cell :=
  l ← find (line_full b) WIN_LINES; b !! l.1.1.

Definition avail_from (i : nat) (b : board) : list nat :=
  (filter (λ p, p.2 = EMPTY) (enumerate_from i b)).*1.

(** The number of empty cells bounds the depth of the search. *)
Definition empties (b : board) : nat := length (available_moves b).

Definition cell_char (c : cell) : ascii :=
  match c with
  | EMPTY => " "
  | HUMAN => "O"
  | AI => "X"
  end%char.

(** ** The search *)

(** The mark [minimax] places for [turn], the turn it recurses with, and
    how it folds the scores: everything that is not [AI] takes the [else]
    branch. *)
Definition mover (turn : cell) : cell :=
  if decide (turn = AI) then AI else HUMAN.
Definition opponent (turn : cell) : cell :=
  if decide (turn = AI) then HUMAN else AI.
Definition pick_of (turn : cell) : Z → Z → Z :=
  if decide (turn = AI) then Z.max else Z.min.
Definition worst (turn : cell) : Z :=
  if decide (turn = AI) then -10 else 10.

(** Every cached score has property [P] at the position it is cached
    for. *)
Definition memo_inv (P : board → cell → Z → Prop) (memo : memo_table)
  : Prop :=
  ∀ b t v, memo !! board_key b t = Some v → P b t v.

(** A reference search: no memo table, and every move is tried on a copy
    of the board. *)
Fixpoint reference_loop (rec : board → result Z) (mark : cell)
    (pick : Z → Z → Z) (moves : list nat) (best : Z) (b : board)
  : result Z :=
  match moves with
  | [] => mret best
  | m :: rest =>
      b' ← setitem b m mark;
      score ← rec b';
      reference_loop rec mark pick rest (pick best score) b
  end.

(** Steps 1, 2 and 4 of the search: terminal positions first, then the
    maximum (AI) or minimum (HUMAN) over the available moves in ascending
    order, each evaluated on a copy of the board with the mark placed. *)
Fixpoint minimax_reference (fuel : nat) (b : board) (turn : cell)
  : result Z :=
  match fuel with
  | O => OutOfFuel
  | S fuel =>
      w ← winner b;
      if decide (w = Some AI) then mret 1
      else if decide (w = Some HUMAN) then mret (-1)
      else
        draw ← is_draw b;
        if (draw : bool) then mret 0
        else if decide (turn = AI) then
          reference_loop (λ b, minimax_reference fuel b HUMAN) AI Z.max
                         (available_moves b) (-10) b
        else
          reference_loop (λ b, minimax_reference fuel b AI) HUMAN Z.min
                         (available_moves b) 10 b
  end.

(** [s] is the score of the reference at [(b, t)], whatever the fuel. *)
Definition reference_score (b : board) (t : cell) (s : Z) : Prop :=
  ∀ fuel, (empties b < fuel)%nat → minimax_reference fuel b t = Ok s.

(** The score of the reference as a number. *)
Definition value (b : board) (t : cell) : Z :=
  match minimax_reference (S (length b)) b t with
  | Ok s => s
  | _ => 0
  end.

Definition in_range (s : Z) : Prop := -1 ≤ s ≤ 1.

(** A memo table is well formed when it holds scores only. *)
Definition memo_in_range (memo : memo_table) : Prop :=
  memo_inv (λ _ _ s, in_range s) memo.

Definition sound_score (b : board) (t : cell) (s : Z) : Prop :=
  reference_score b t s ∧ in_range s.

(** ** The choice of [best_ai_move] and its narration *)

(** The moves of [moves] after which [winner] reports [player]. *)
Definition wins_among (b : board) (player : cell) (moves : list nat)
  : list nat :=
  filter (λ m, winner_of (<[m := player]> b) = Some player) moves.

Definition wins_for (b : board) (player : cell) : list nat :=
  wins_among b player (available_moves b).

Definition wins_now (b : board) (m : nat) : bool :=
  bool_decide (winner_of (<[m := AI]> b) = Some AI).

(** The score [best_ai_move] gets for move [m]. *)
Definition move_value (b : board) (m : nat) : Z := value (<[m := AI]> b) HUMAN.

Fixpoint decision (threats : list nat) (b : board) (moves : list nat)
    (best_score best_move : Z) : Z * list event :=
  match moves with
  | [] => (best_move, [Chosen best_move])
  | m :: rest =>
      if wins_now b m
      then (Z.of_nat m, [ImmediateWin m; Chosen (Z.of_nat m)])
      else
        let score := move_value b m in
        let line := MoveScore m score (bool_decide (m ∈ threats))
                              (wins_for (<[m := AI]> b) HUMAN) in
        let r := if decide (score > best_score)
                 then decision threats b rest score (Z.of_nat m)
                 else decision threats b rest best_score best_move in
        (r.1, line :: r.2)
  end.

Definition threat_lines (threats : list nat) : list event :=
  match threats with
  | [] => []
  | _ => [ThreatWarning threats]
  end.

(** The line [best_ai_move] prints for a move it has scored. *)
Definition score_line (threats : list nat) (b : board) (m : nat) : event :=
  MoveScore m (move_value b m) (bool_decide (m ∈ threats))
            (wins_for (<[m := AI]> b) HUMAN).

(** The moves for which a score line was printed, in order: the moves whose
    position [best_ai_move] handed to [minimax]. *)
Definition scored (out : list event) : list nat :=
  omap (λ e, match e with MoveScore m _ _ _ => Some m | _ => None end) out.

(** ** The search as a parameter of the loop *)

(** The loop of [best_ai_move], line for line, with the function it calls
    for the score of a move taken as the parameter [search]; the loop of the
    program is the instance [search := minimax].  A [search] that raises on
    a position shows in the result whether the loop calls it there. *)
Fixpoint best_ai_move_loop_with
    (search : board → cell → memo_table → result (Z * board * memo_table))
    (human_threats_now : list nat) (moves : list nat)
    (best_score best_move : Z) (b : board) (memo : memo_table)
    (out : list event) : result (Z * board * list event) :=
  match moves with
  | [] => mret (best_move, b, out ++ [Chosen best_move])
  | m :: rest =>
      b ← setitem b m AI;
      w ← winner b;
      if decide (w = Some AI) then
        b ← setitem b m EMPTY;
        mret (Z.of_nat m, b, out ++ [ImmediateWin m; Chosen (Z.of_nat m)])
      else
        '(human_wins_next, b) ← winning_moves b HUMAN;
        '(score, b, memo) ← search b HUMAN memo;
        b ← setitem b m EMPTY;
        let out :=
          out ++ [MoveScore m score (bool_decide (m ∈ human_threats_now))
                            human_wins_next] in
        if decide (score > best_score)
        then best_ai_move_loop_with search human_threats_now rest score
                                    (Z.of_nat m) b memo out
        else best_ai_move_loop_with search human_threats_now rest best_score
                                    best_move b memo out
  end.

Definition best_ai_move_with
    (search : board → cell → memo_table → result (Z * board * memo_table))
    (b : board) : result (Z * board * list event) :=
  let memo : memo_table := ∅ in
  let best_score := -10 in
  let best_move := -1 in
  '(human_threats_now, b) ← winning_moves b HUMAN;
  let out := match human_threats_now with
             | [] => []
             | _ => [ThreatWarning human_threats_now]
             end ++ [Thinking] in
  best_ai_move_loop_with search human_threats_now (available_moves b)
                         best_score best_move b memo out.

(** [minimax] on the positions that follow the moves [pre] on [b], and an
    exception on every other position. *)
Definition search_before (b : board) (pre : list nat)
  : board → cell → memo_table → result (Z * board * memo_table) :=
  λ c turn memo,
    if decide (c ∈ (λ m, <[m := AI]> b) <$> pre) then minimax c turn memo
    else Raise IndexError.

(** A position in which the immediate win of AI, at index 5, is not the
    first available move. *)
Definition late_win_position : board :=
  [EMPTY; HUMAN; EMPTY; AI; AI; EMPTY; HUMAN; EMPTY; EMPTY].


(** ** The draws of the random module *)

Definition valid_source (rnd : random_source) : Prop :=
  (0 <= rnd_random rnd ∧ rnd_random rnd < 1)%Q
  ∧ ∀ n, (0 < n)%nat → (rnd_randbelow rnd n < n)%nat.

(** A source whose first draw is 1/2 and that picks index 0. *)
Definition half_then_first : random_source :=
  {| rnd_random := 1 # 2; rnd_randbelow := λ _, 0%nat |}.

(** The perfect-play probability [choose_ai_move] compares the draw with. *)
Definition p_best (difficulty : string) : Q :=
  if decide (difficulty = "medium"%string) then p_medium else p_easy.

(** The moves [random.choice] picks from in the mistake branch. *)
Definition other_moves (b : board) (best : Z) : list nat :=
  filter (λ m, Z.of_nat m ≠ best) (available_moves b).

(** ** Perfect play *)

(** A perfect HUMAN: the score of a reply is what [minimax] says about the
    position it leaves with AI to move, and the perfect replies are those
    with the least score. *)
Definition human_score (b : board) (m : nat) : result Z :=
  b ← setitem b m HUMAN;
  '(s, _, _) ← minimax b AI ∅;
  mret s.

Fixpoint scores_of (f : nat → result Z) (moves : list nat)
  : result (list (nat * Z)) :=
  match moves with
  | [] => mret []
  | m :: rest => s ← f m; ss ← scores_of f rest; mret ((m, s) :: ss)
  end.

Definition perfect_human_moves (b : board) : result (list nat) :=
  ss ← scores_of (human_score b) (available_moves b);
  let least := foldr Z.min 10 (ss.*2) in
  mret (filter (λ p, p.2 = least) ss).*1.

Fixpoint collect {A} (f : nat → result (list A)) (moves : list nat)
  : result (list A) :=
  match moves with
  | [] => mret []
  | m :: rest => xs ← f m; ys ← collect f rest; mret (xs ++ ys)
  end.

(** All final boards of the games in which AI plays [choose_ai_move] at
    "hard" and HUMAN plays any perfect reply. *)
Fixpoint perfect_play (rnd : random_source) (fuel : nat) (turn : cell)
    (b : board) : result (list board) :=
  match fuel with
  | O => OutOfFuel
  | S fuel =>
      let continue (b : board) : result (list board) :=
        st ← after_move turn b;
        match st with
        | Over _ => mret [b]
        | Playing turn => perfect_play rnd fuel turn b
        end in
      if decide (turn = HUMAN) then
        moves ← perfect_human_moves b;
        collect (λ m, b ← human_turn b m; continue b) moves
      else
        '(b, _) ← ai_turn b "hard" rnd;
        continue b
  end.

(** [perfect_game rnd turn b final]: a game that starts at [b] with [turn]
    to move, in which AI plays [choose_ai_move] at "hard" and HUMAN plays
    perfect replies, ends on the board [final]. *)
Inductive perfect_game (rnd : random_source) : cell → board → board → Prop :=
| human_ends (b b' : board) (moves : list nat) (m : nat) (w : option cell) :
    perfect_human_moves b = Ok moves → m ∈ moves →
    human_turn b m = Ok b' →
    after_move HUMAN b' = Ok (Over w) →
    perfect_game rnd HUMAN b b'
| human_goes_on (b b' : board) (moves : list nat) (m : nat) (turn : cell)
    (final : board) :
    perfect_human_moves b = Ok moves → m ∈ moves →
    human_turn b m = Ok b' →
    after_move HUMAN b' = Ok (Playing turn) →
    perfect_game rnd turn b' final →
    perfect_game rnd HUMAN b final
| ai_ends (b b' : board) (out : list event) (w : option cell) :
    ai_turn b "hard" rnd = Ok (b', out) →
    after_move AI b' = Ok (Over w) →
    perfect_game rnd AI b b'
| ai_goes_on (b b' : board) (out : list event) (turn : cell) (final : board) :
    ai_turn b "hard" rnd = Ok (b', out) →
    after_move AI b' = Ok (Playing turn) →
    perfect_game rnd turn b' final →
    perfect_game rnd AI b final.

(** The game is over in a draw: no winner and no empty cell. *)
Definition drawn (b : board) : Prop :=
  winner b = Ok None ∧ is_draw b = Ok true ∧ EMPTY ∉ b.

Definition drawnb (b : board) : bool :=
  match winner b, is_draw b with
  | Ok None, Ok true => forallb (λ x, bool_decide (x ≠ EMPTY)) b
  | _, _ => false
  end.

Definition all_drawn (r : result (list board)) : bool :=
  match r with
  | Ok (b :: finals) => forallb drawnb (b :: finals)
  | _ => false
  end.

(** ** Scores of [minimax] started with a fresh memo table *)

(** The position after [turn] has placed its mark on cell [m]. *)
Definition child (b : board) (turn : cell) (m : nat) : board :=
  <[m := mover turn]> b.

(** [minimax] started with an empty memo table returns score [s] at
    [(b, turn)] and hands the board back. *)
Definition scores (b : board) (turn : cell) (s : Z) : Prop :=
  ∃ memo, minimax b turn ∅ = Ok (s, b, memo).

(** ** Games against any HUMAN *)

(** All final boards of the games in which AI plays [choose_ai_move] at
    "hard" and HUMAN plays any empty cell. *)
Fixpoint hard_play (rnd : random_source) (fuel : nat) (turn : cell)
    (b : board) : result (list board) :=
  match fuel with
  | O => OutOfFuel
  | S fuel =>
      let continue (b : board) : result (list board) :=
        st ← after_move turn b;
        match st with
        | Over _ => mret [b]
        | Playing turn => hard_play rnd fuel turn b
        end in
      if decide (turn = HUMAN) then
        collect (λ m, b ← human_turn b m; continue b) (available_moves b)
      else
        '(b, _) ← ai_turn b "hard" rnd;
        continue b
  end.

(** ** The rendering of the board *)

(** The character [print_board] shows for cell [i]: the mark of the cell,
    or the number of the cell, counted from 1, when the cell is empty. *)
Definition shown (b : board) (i : nat) : ascii :=
  match b !! i with
  | Some EMPTY => ascii_of_nat (49 + i)
  | Some x => cell_char x
  | None => " "%char
  end.

(** Where the character of cell [i] stands in the text. *)
Definition shown_at (i : nat) : nat := (24 * (i / 3) + 4 * (i mod 3) + 1)%nat.

Definition row_of (c : nat → ascii) (i : nat) : string :=
  String " " (String (c i) (" | " +:+ String (c (i + 1)%nat)
    (" | " +:+ String (c (i + 2)%nat) " "))).

(** The text of a board whose cells show the characters [c 0], ..., [c 8]. *)
Definition layout (c : nat → ascii) : string :=
  row_of c 0 +:+ nl +:+ "---+---+---" +:+ nl +:+
  row_of c 3 +:+ nl +:+ "---+---+---" +:+ nl +:+ row_of c 6.

(** ** Lines typed at the console *)

Definition blank (l : list ascii) : Prop := Forall (λ c, isspace c = true) l.

(** [line] is [s] between any two runs of white space. *)
Definition padded (s line : string) : Prop :=
  ∃ l r, blank l ∧ blank r
         ∧ String.list_ascii_of_string line
           = l ++ String.list_ascii_of_string s ++ r.

(** [s] neither starts nor ends with white space. *)
Definition trimmed (s : string) : Prop :=
  match String.list_ascii_of_string s with
  | c :: _ => isspace c = false
  | [] => True
  end
  ∧ match reverse (String.list_ascii_of_string s) with
    | c :: _ => isspace c = false
    | [] => True
    end.

(** The number [print_board] shows for the empty cell [i]. *)
Definition cell_number (i : nat) : string :=
  String (ascii_of_nat (49 + i)) "".

Definition ask_prompt : output := Prompt "Choose a position (1-9): ".

(** A line that names the empty cell [i] of [b] by its number. *)
Definition names_empty_cell (b : board) (line : string) : Prop :=
  ∃ i, (i < 9)%nat ∧ b !! i = Some EMPTY ∧ padded (cell_number i) line.

(** The answers the two menus take, in lower case, and what they stand
    for. *)
Definition start_words : list (string * cell) :=
  [("h", HUMAN); ("human", HUMAN); ("a", AI); ("ai", AI)]%string.

Definition difficulty_words : list (string * string) :=
  [("e", "easy"); ("easy", "easy"); ("m", "medium"); ("medium", "medium");
   ("h", "hard"); ("hard", "hard")]%string.

Definition start_prompt : output := Prompt "Who starts? (H)uman / (A)I: ".

Definition difficulty_prompt : output :=
  Prompt "Choose difficulty: (E)asy / (M)edium / (H)ard: ".

(** ** The end of a game *)

(** The game is over on [b]: a line is completed or no cell is empty. *)
Definition over (b : board) : Prop := winner_of b ≠ None ∨ EMPTY ∉ b.

Definition overb (b : board) : bool :=
  bool_decide (winner_of b ≠ None)
  || forallb (λ x, bool_decide (x ≠ EMPTY)) b.

(** The last line [main] prints for the final board [b]. *)
Definition result_line (b : board) : output :=
  Line (nl +:+ "Result: " +:+
        match winner_of b with
        | Some w => if decide (w = AI) then "AI wins." else "You win!"
        | None => "Draw."
        end).

(** [b'] is [b] with marks placed on some of its empty cells. *)
Definition extends (b b' : board) : Prop :=
  length b' = length b
  ∧ ∀ i x, b !! i = Some x → x ≠ EMPTY → b' !! i = Some x.

(** No final board of [r] is won by HUMAN. *)
Definition never_lost (r : result (list board)) : bool :=
  match r with
  | Ok finals =>
      forallb (λ b, bool_decide (winner_of b ≠ Some HUMAN) && overb b) finals
  | _ => false
  end.

(** What [main] has written when it asks who starts. *)
Definition banner : list output :=
  [Line ("Tic-Tac-Toe: You are O, AI is X." +:+ nl);
   Line (layout (shown empty_board))].

(** The number of cells of [b] that hold the mark [x]. *)
Definition count_of (x : cell) (b : board) : nat :=
  length (filter (λ y, y = x) b).

(** * Concrete runs *)

Example board_key_example : board_key winning_position AI = "XX OO    X"%string.
Proof. reflexivity. Qed.

Example available_moves_example :
  available_moves winning_position = [2; 5; 6; 7; 8]%nat.
Proof. reflexivity. Qed.

Example winner_example :
  winner [HUMAN; AI; EMPTY; EMPTY; AI; HUMAN; EMPTY; AI; EMPTY] = Ok (Some AI).
Proof. vm_compute. reflexivity. Qed.

(** With marks on two completed lines the first line of [WIN_LINES] decides. *)
Example winner_first_line :
  winner [HUMAN; EMPTY; AI; HUMAN; EMPTY; AI; HUMAN; EMPTY; AI] = Ok (Some HUMAN).
Proof. vm_compute. reflexivity. Qed.

(** A list that is too short raises as soon as a missing cell is read, and
    only then. *)
Example winner_short_board :
  winner [AI; AI] = Raise IndexError
  ∧ winner [EMPTY; EMPTY; EMPTY; EMPTY; EMPTY; EMPTY; EMPTY] = Ok None.
Proof. split; vm_compute; reflexivity. Qed.

Example winning_moves_example :
  winning_moves winning_position HUMAN = Ok ([5%nat], winning_position)
  ∧ winning_moves winning_position AI = Ok ([2%nat], winning_position).
Proof. split; vm_compute; reflexivity. Qed.

Example minimax_example :
  match minimax blocking_position AI ∅ with
  | Ok (s, b, memo) => s = 0 ∧ b = blocking_position ∧ size memo = 135%nat
  | _ => False
  end.
Proof. vm_compute. auto. Qed.

(** The blocking move: every other move loses to the threat at index 2. *)
Example best_ai_move_blocks :
  best_ai_move blocking_position
    = Ok (2, blocking_position,
          [ThreatWarning [2%nat]; Thinking; MoveScore 2 0 true [];
           MoveScore 3 (-1) false [2%nat]; MoveScore 5 (-1) false [2%nat];
           MoveScore 6 (-1) false [2%nat]; MoveScore 7 (-1) false [2%nat];
           MoveScore 8 (-1) false [2%nat]; Chosen 2]).
Proof. vm_compute. reflexivity. Qed.

(** On a board that HUMAN has already won [winner] keeps reporting HUMAN, so
    the AI mark at index 6 is not seen as a win and the first move is kept. *)
Example best_ai_move_decided :
  best_ai_move decided_position
    = Ok (3, decided_position,
          [ThreatWarning [3; 4; 5; 6]%nat; Thinking;
           MoveScore 3 (-1) true [4; 5; 6]%nat;
           MoveScore 4 (-1) true [3; 5; 6]%nat;
           MoveScore 5 (-1) true [3; 4; 6]%nat;
           MoveScore 6 (-1) true [3; 4; 5]%nat; Chosen 3]).
Proof. vm_compute. reflexivity. Qed.

(** Without an empty cell the loop body never runs. *)
Example best_ai_move_full :
  best_ai_move [AI; HUMAN; AI; AI; HUMAN; HUMAN; HUMAN; AI; AI]
    = Ok (-1, [AI; HUMAN; AI; AI; HUMAN; HUMAN; HUMAN; AI; AI],
          [Thinking; Chosen (-1)]).
Proof. vm_compute. reflexivity. Qed.

(** * Lemmas *)

(** ** The result monad and item access *)

Lemma bind_Ok {A B} (r : result A) (f : A → result B) (y : B) :
  r ≫= f = Ok y ↔ ∃ x, r = Ok x ∧ f x = Ok y.
Proof.
  destruct r as [a| |]; simpl; split; try done.
  - intros H. by exists a.
  - intros (x & Hx & H). by injection Hx as ->.
  - by intros (x & Hx & _).
  - by intros (x & Hx & _).
Qed.

Lemma getitem_Ok {A} (l : list A) (i : nat) (x : A) :
  getitem l i = Ok x ↔ l !! i = Some x.
Proof. unfold getitem. destruct (l !! i); split; congruence. Qed.

Lemma getitem_lt {A} (l : list A) (i : nat) :
  (i < length l)%nat → ∃ x, l !! i = Some x ∧ getitem l i = Ok x.
Proof.
  intros [x Hx]%lookup_lt_is_Some_2. exists x. by rewrite getitem_Ok.
Qed.

Lemma setitem_lt (b : board) (i : nat) (v : cell) :
  (i < length b)%nat → setitem b i v = Ok (<[i := v]> b).
Proof. intros H. unfold setitem. by rewrite decide_True. Qed.

Lemma setitem_Ok (b b' : board) (i : nat) (v : cell) :
  setitem b i v = Ok b' ↔ (i < length b)%nat ∧ b' = <[i := v]> b.
Proof.
  unfold setitem. case_decide as H; split.
  - by intros [= <-].
  - by intros [_ ->].
  - done.
  - by intros [? _].
Qed.

(** Placing a mark on an empty cell and resetting the cell to [EMPTY]
    gives back the board one started from. *)
Lemma place_revert (b : board) (m : nat) (x : cell) :
  b !! m = Some EMPTY → <[m := EMPTY]> (<[m := x]> b) = b.
Proof. intros H. rewrite list_insert_insert_eq. by apply list_insert_id. Qed.

(** ** [winner] and [is_draw] on boards of at least nine cells *)

Lemma line_full_completed (b : board) (l : nat * nat * nat) :
  line_full b l = true ↔ ∃ x, completed b l x.
Proof.
  unfold line_full, completed. split.
  - destruct (b !! l.1.1) as [x|], (b !! l.1.2) as [y|], (b !! l.2) as [z|];
      try done.
    intros (? & -> & ->)%bool_decide_eq_true. by exists z.
  - intros (x & -> & -> & -> & ?). by apply bool_decide_eq_true.
Qed.

Lemma WIN_LINES_range (l : nat * nat * nat) :
  l ∈ WIN_LINES → (l.1.1 < 9 ∧ l.1.2 < 9 ∧ l.2 < 9)%nat.
Proof.
  unfold WIN_LINES. rewrite !elem_of_cons, elem_of_nil.
  intros H. destruct_or!; subst; simpl; lia.
Qed.

Lemma line_complete_wide (b : board) (l : nat * nat * nat) :
  (l.1.1 < length b ∧ l.1.2 < length b ∧ l.2 < length b)%nat →
  line_complete b l = Ok (line_full b l).
Proof.
  destruct l as [[a c] d]. simpl. intros (Ha & Hc & Hd).
  destruct (getitem_lt b a Ha) as (x & Hx & Hgx).
  destruct (getitem_lt b c Hc) as (y & Hy & Hgy).
  destruct (getitem_lt b d Hd) as (z & Hz & Hgz).
  unfold line_complete, line_full. simpl. rewrite Hx, Hy, Hz, Hgx. simpl.
  case_decide as Hne; [|by rewrite bool_decide_eq_false_2 by tauto].
  rewrite Hgy. simpl.
  case_decide as Hxy; [|by rewrite bool_decide_eq_false_2 by tauto].
  rewrite Hgz. simpl. f_equal. apply bool_decide_ext. tauto.
Qed.

Lemma winner_in_wide (lines : list (nat * nat * nat)) (b : board) :
  (∀ l, l ∈ lines →
        (l.1.1 < length b ∧ l.1.2 < length b ∧ l.2 < length b)%nat) →
  winner_in lines b = Ok (l ← find (line_full b) lines; b !! l.1.1).
Proof.
  induction lines as [|l lines IH]; intros Hr; [done|].
  simpl. rewrite line_complete_wide by (apply Hr; left). simpl.
  destruct (line_full b l) eqn:Hf.
  - destruct (getitem_lt b l.1.1) as (x & Hx & Hgx); [by apply Hr; left|].
    rewrite Hgx. simpl. by rewrite Hx.
  - apply IH. intros l' Hl'. apply Hr. by right.
Qed.

Lemma winner_wide (b : board) :
  (9 ≤ length b)%nat → winner b = Ok (winner_of b).
Proof.
  intros Hlen. unfold winner, winner_of. apply winner_in_wide.
  intros l Hl%WIN_LINES_range. lia.
Qed.

Lemma is_draw_wide (b : board) :
  (9 ≤ length b)%nat →
  is_draw b = Ok (bool_decide (winner_of b = None)
                  && forallb (λ x, bool_decide (x ≠ EMPTY)) b).
Proof. intros Hlen. unfold is_draw. by rewrite winner_wide. Qed.

(** What [winner] reports is the mark of the first completed line. *)
Lemma winner_of_Some (b : board) (x : cell) :
  winner_of b = Some x ↔
  ∃ pre l post, WIN_LINES = pre ++ l :: post ∧ completed b l x ∧
                ∀ l', l' ∈ pre → ¬ ∃ y, completed b l' y.
Proof.
  unfold winner_of. generalize WIN_LINES as lines.
  induction lines as [|l lines IH]; simpl.
  - split; [done|]. intros (pre & l & post & H & _). by destruct pre.
  - destruct (line_full b l) eqn:Hf; simpl.
    + split.
      * intros Hx. exists [], l, lines. split; [done|].
        apply line_full_completed in Hf as (y & Hy).
        assert (y = x) as -> by (destruct Hy as (Hy & _); congruence).
        split; [done|]. by intros l' ?%elem_of_nil.
      * intros (pre & l0 & post & Heq & Hc & Hpre).
        destruct pre as [|p pre]; simplify_eq/=; [by destruct Hc|].
        exfalso. apply (Hpre p); [by left|]. by apply line_full_completed.
    + rewrite IH. split.
      * intros (pre & l0 & post & -> & Hc & Hpre).
        exists (l :: pre), l0, post. split; [done|]. split; [done|].
        intros l' [->|?]%elem_of_cons; [|by apply Hpre].
        rewrite <-line_full_completed. by rewrite Hf.
      * intros (pre & l0 & post & Heq & Hc & Hpre).
        destruct pre as [|p pre]; simplify_eq/=.
        -- exfalso. assert (line_full b l0 = true) as Ht
             by (apply line_full_completed; eauto). congruence.
        -- exists pre, l0, post. split; [done|]. split; [done|].
           intros l' ?. apply Hpre. by right.
Qed.

Lemma winner_of_None (b : board) :
  winner_of b = None ↔ ∀ l x, l ∈ WIN_LINES → ¬ completed b l x.
Proof.
  unfold winner_of. generalize WIN_LINES as lines.
  induction lines as [|l lines IH]; simpl.
  - split; [|done]. by intros _ l x ?%elem_of_nil.
  - destruct (line_full b l) eqn:Hf; simpl.
    + apply line_full_completed in Hf as (y & Hy). split.
      * destruct Hy as (Hy & _). congruence.
      * intros H. exfalso. apply (H l y); [by left|done].
    + rewrite IH. split.
      * intros H l' x [->|?]%elem_of_cons; [|by apply H].
        intros Hc. assert (line_full b l = true)
          by (apply line_full_completed; eauto). congruence.
      * intros H l' x ?. apply H. by right.
Qed.

Lemma winner_of_not_EMPTY (b : board) : winner_of b ≠ Some EMPTY.
Proof.
  intros (pre & l & post & _ & Hc & _)%winner_of_Some.
  by destruct Hc as (_ & _ & _ & ?).
Qed.

Lemma completed_insert_other (b : board) (m : nat) (l : nat * nat * nat)
    (x : cell) :
  x ≠ AI → completed (<[m := AI]> b) l x → completed b l x.
Proof.
  intros Hx (H1 & H2 & H3 & Hne).
  assert (∀ i, <[m := AI]> b !! i = Some x → b !! i = Some x) as Hother.
  { intros i Hi. destruct (decide (m = i)) as [->|Hmi].
    - apply list_lookup_insert_Some in Hi as [(_ & <- & _)|[? _]]; done.
    - by rewrite list_lookup_insert_ne in Hi. }
  repeat split; auto.
Qed.

(** On a board without a completed line, [winner] reports AI after a mark
    of AI is placed exactly when the placement leaves a line completed by
    AI, that is, when the cell completes an AI win line. *)
Lemma wins_now_completes (b : board) (m : nat) :
  winner_of b = None →
  winner_of (<[m := AI]> b) = Some AI ↔
  ∃ l, l ∈ WIN_LINES ∧ completed (<[m := AI]> b) l AI.
Proof.
  intros Hnone. split.
  - intros (pre & l & post & Heq & Hc & _)%winner_of_Some.
    exists l. split; [|done]. rewrite Heq. apply elem_of_app. right. by left.
  - intros (l & Hl & Hc).
    destruct (winner_of (<[m := AI]> b)) as [x|] eqn:Hw.
    + destruct (decide (x = AI)) as [->|Hx]; [done|]. exfalso.
      apply winner_of_Some in Hw as (pre & l' & post & Heq & Hc' & _).
      apply completed_insert_other in Hc'; [|done].
      eapply winner_of_None; [exact Hnone| |exact Hc'].
      rewrite Heq. apply elem_of_app. right. by left.
    + exfalso. by eapply winner_of_None.
Qed.

(** ** [available_moves] *)

Lemma avail_from_cons (i : nat) (x : cell) (b : board) :
  avail_from i (x :: b) =
  if decide (x = EMPTY) then i :: avail_from (S i) b
  else avail_from (S i) b.
Proof.
  unfold avail_from. simpl. rewrite filter_cons. simpl.
  by destruct (decide (x = EMPTY)).
Qed.

Lemma elem_of_avail_from (i : nat) (b : board) (m : nat) :
  m ∈ avail_from i b ↔ ∃ j, m = (i + j)%nat ∧ b !! j = Some EMPTY.
Proof.
  revert i. induction b as [|x b IH]; intros i.
  - split; [by intros ?%elem_of_nil|]. by intros (j & _ & ?).
  - rewrite avail_from_cons. split.
    + case_decide as Hx.
      * intros [->|(j & -> & Hj)%IH]%elem_of_cons.
        -- exists 0%nat. subst. split; [lia|done].
        -- exists (S j). split; [lia|done].
      * intros (j & -> & Hj)%IH. exists (S j). split; [lia|done].
    + intros (j & -> & Hj). destruct j as [|j]; simpl in Hj.
      * injection Hj as ->. rewrite decide_True by done.
        rewrite Nat.add_0_r. by left.
      * assert ((i + S j)%nat ∈ avail_from (S i) b)
          by (apply IH; exists j; split; [lia|done]).
        case_decide; [by right|done].
Qed.

Lemma elem_of_available_moves (b : board) (m : nat) :
  m ∈ available_moves b ↔ b !! m = Some EMPTY.
Proof.
  change (available_moves b) with (avail_from 0 b).
  rewrite elem_of_avail_from. split.
  - by intros (j & -> & ?).
  - intros H. by exists m.
Qed.

Lemma available_moves_lt (b : board) (m : nat) :
  m ∈ available_moves b → (m < length b)%nat.
Proof. intros H%elem_of_available_moves. by eapply lookup_lt_Some. Qed.

(** The moves come in strictly ascending index order. *)
Lemma avail_from_sorted (i : nat) (b : board) :
  StronglySorted lt (avail_from i b).
Proof.
  revert i. induction b as [|x b IH]; intros i.
  - constructor.
  - rewrite avail_from_cons. case_decide; [|apply IH].
    constructor; [apply IH|]. apply Forall_forall.
    intros m (j & -> & _)%elem_of_avail_from. lia.
Qed.

Lemma available_moves_sorted (b : board) :
  StronglySorted lt (available_moves b).
Proof. apply (avail_from_sorted 0). Qed.

Lemma available_moves_NoDup (b : board) : NoDup (available_moves b).
Proof.
  change (available_moves b) with (avail_from 0 b). generalize 0%nat.
  induction b as [|x b IH]; intros i; [constructor|].
  rewrite avail_from_cons. case_decide; [|apply IH].
  constructor; [|apply IH].
  intros (j & Hj & _)%elem_of_avail_from. lia.
Qed.

Lemma length_avail_from (i j : nat) (b : board) :
  length (avail_from i b) = length (avail_from j b).
Proof.
  revert i j. induction b as [|x b IH]; intros i j; [done|].
  rewrite !avail_from_cons. case_decide; simpl; by rewrite (IH (S i) (S j)).
Qed.

Lemma empties_cons (x : cell) (b : board) :
  empties (x :: b) = if decide (x = EMPTY) then S (empties b) else empties b.
Proof.
  unfold empties. change (available_moves (x :: b)) with (avail_from 0 (x :: b)).
  rewrite avail_from_cons.
  change (available_moves b) with (avail_from 0 b).
  case_decide; simpl; by rewrite (length_avail_from 1 0).
Qed.

Lemma empties_le (b : board) : (empties b ≤ length b)%nat.
Proof.
  induction b as [|x b IH]; [done|].
  rewrite empties_cons. case_decide; simpl; lia.
Qed.

Lemma empties_place (b : board) (m : nat) (x : cell) :
  b !! m = Some EMPTY → x ≠ EMPTY → S (empties (<[m := x]> b)) = empties b.
Proof.
  revert m. induction b as [|y b IH]; intros m Hm Hx; [done|].
  destruct m as [|m]; simpl in *.
  - injection Hm as ->. rewrite !empties_cons.
    by rewrite decide_False, decide_True.
  - rewrite !empties_cons. specialize (IH m Hm Hx). case_decide; lia.
Qed.

Lemma forallb_marked (b : board) :
  forallb (λ x, bool_decide (x ≠ EMPTY)) b = true ↔ available_moves b = [].
Proof.
  change (available_moves b) with (avail_from 0 b). generalize 0%nat.
  induction b as [|x b IH]; intros i; [done|].
  rewrite avail_from_cons. simpl.
  rewrite andb_true_iff, bool_decide_eq_true, (IH (S i)).
  case_decide; [split; [by intros [? _]|done] | tauto].
Qed.

Lemma available_moves_nil (b : board) : available_moves b = [] ↔ EMPTY ∉ b.
Proof.
  split.
  - intros Hnil (i & Hi)%list_elem_of_lookup.
    apply elem_of_available_moves in Hi. rewrite Hnil in Hi.
    by apply elem_of_nil in Hi.
  - intros Hno. apply elem_of_nil_inv. intros m Hm%elem_of_available_moves.
    apply Hno. apply list_elem_of_lookup. by exists m.
Qed.

Lemma sorted_split (pre : list nat) (m : nat) (post : list nat) :
  StronglySorted lt (pre ++ m :: post) →
  (∀ x, x ∈ pre → (x < m)%nat) ∧ (∀ x, x ∈ post → (m < x)%nat).
Proof.
  induction pre as [|p pre IH]; simpl; intros Hs.
  - apply StronglySorted_inv in Hs as [_ Hall]. split.
    + by intros x ?%elem_of_nil.
    + intros x Hx. by eapply Forall_forall in Hall.
  - apply StronglySorted_inv in Hs as [Hs Hall].
    destruct (IH Hs) as [Hpre Hpost]. split; [|done].
    intros x [->|?]%elem_of_cons; [|by apply Hpre].
    eapply Forall_forall in Hall; [exact Hall|].
    apply elem_of_app. right. by left.
Qed.

(** Splitting a list at the first element that satisfies a test. *)
Lemma first_split {A} (f : A → bool) (l : list A) :
  (∀ x, x ∈ l → f x = false)
  ∨ ∃ pre x post, l = pre ++ x :: post ∧ f x = true
                  ∧ ∀ y, y ∈ pre → f y = false.
Proof.
  induction l as [|a l IH].
  - left. by intros x ?%elem_of_nil.
  - destruct (f a) eqn:Ha.
    + right. exists [], a, l. repeat split; [done|]. by intros y ?%elem_of_nil.
    + destruct IH as [Hall|(pre & x & post & -> & Hx & Hpre)].
      * left. intros x [->|?]%elem_of_cons; [done|by apply Hall].
      * right. exists (a :: pre), x, post. repeat split; [done|].
        intros y [->|?]%elem_of_cons; [done|by apply Hpre].
Qed.

(** ** The cache key *)

Lemma cell_char_inj (x y : cell) : cell_char x = cell_char y → x = y.
Proof. by destruct x, y. Qed.

Lemma board_key_nil (t : cell) :
  board_key [] t = String (cell_char t) EmptyString.
Proof. by destruct t. Qed.

Lemma board_key_cons (x : cell) (b : board) (t : cell) :
  board_key (x :: b) t = String (cell_char x) (board_key b t).
Proof. unfold board_key. destruct b, x; reflexivity. Qed.

(** The key is the nine cells followed by the turn, one character each. *)
Lemma board_key_length (b : board) (t : cell) :
  String.length (board_key b t) = S (length b).
Proof.
  induction b as [|x b IH]; [by rewrite board_key_nil|].
  rewrite board_key_cons. simpl. by rewrite IH.
Qed.

Lemma board_key_inj (b b' : board) (t t' : cell) :
  board_key b t = board_key b' t' → b = b' ∧ t = t'.
Proof.
  revert b'. induction b as [|x b IH]; intros [|y b'] H.
  - rewrite !board_key_nil in H. injection H as H%cell_char_inj. done.
  - apply (f_equal String.length) in H. rewrite !board_key_length in H.
    simpl in H. lia.
  - apply (f_equal String.length) in H. rewrite !board_key_length in H.
    simpl in H. lia.
  - rewrite !board_key_cons in H. injection H as Hc%cell_char_inj Hk.
    destruct (IH _ Hk) as [-> ->]. by subst.
Qed.


(** ** The search, for any property of scores that the recursion preserves *)

Section search.
Variable P : board → cell → Z → Prop.

Hypothesis P_win :
  ∀ b t, (9 ≤ length b)%nat → winner_of b = Some AI → P b t 1.
Hypothesis P_loss :
  ∀ b t, (9 ≤ length b)%nat → winner_of b = Some HUMAN → P b t (-1).
Hypothesis P_draw :
  ∀ b t, (9 ≤ length b)%nat → winner_of b = None →
         available_moves b = [] → P b t 0.
Hypothesis P_node :
  ∀ b t scores,
    (9 ≤ length b)%nat → winner_of b = None → available_moves b ≠ [] →
    Forall2 (λ m s, P (<[m := mover t]> b) (opponent t) s)
            (available_moves b) scores →
    P b t (foldl (pick_of t) (worst t) scores).

Lemma memo_inv_empty : memo_inv P ∅.
Proof. intros b t v H. by rewrite lookup_empty in H. Qed.

Lemma memo_inv_insert (memo : memo_table) (b : board) (t : cell) (v : Z) :
  memo_inv P memo → P b t v → memo_inv P (<[board_key b t := v]> memo).
Proof.
  intros Hinv HP b' t' v' Hl.
  destruct (decide (board_key b t = board_key b' t')) as [Heq|Hne].
  - rewrite Heq, lookup_insert_eq in Hl. injection Hl as <-.
    by apply board_key_inj in Heq as [<- <-].
  - rewrite lookup_insert_ne in Hl by done. by apply Hinv.
Qed.

Lemma minimax_loop_spec
    (rec : board → memo_table → result (Z * board * memo_table))
    (mark other : cell) (pick : Z → Z → Z) (b : board) :
  (∀ m memo, b !! m = Some EMPTY → memo_inv P memo →
     ∃ s memo', rec (<[m := mark]> b) memo = Ok (s, <[m := mark]> b, memo')
                ∧ P (<[m := mark]> b) other s ∧ memo_inv P memo') →
  ∀ moves best memo,
    (∀ m, m ∈ moves → b !! m = Some EMPTY) → memo_inv P memo →
    ∃ scores memo',
      minimax_loop rec mark pick moves best b memo
        = Ok (foldl pick best scores, b, memo')
      ∧ Forall2 (λ m s, P (<[m := mark]> b) other s) moves scores
      ∧ memo_inv P memo'.
Proof.
  intros Hrec. induction moves as [|m moves IH]; intros best memo Hm Hinv.
  - exists [], memo. by repeat split.
  - assert (b !! m = Some EMPTY) as Hbm by (apply Hm; by left).
    destruct (Hrec m memo Hbm Hinv) as (s & memo1 & Hcall & HP & Hinv1).
    destruct (IH (pick best s) memo1) as (scores & memo2 & Hl & HF & Hinv2);
      [by intros m' ?; apply Hm; right|done|].
    exists (s :: scores), memo2. split; [|by split; [constructor|]].
    simpl. rewrite setitem_lt by (by eapply lookup_lt_Some). simpl.
    rewrite Hcall. simpl.
    rewrite setitem_lt by (rewrite length_insert; by eapply lookup_lt_Some).
    simpl. by rewrite place_revert.
Qed.

Lemma minimax_fuel_spec (fuel : nat) :
  ∀ b t memo,
    (9 ≤ length b)%nat → (empties b < fuel)%nat → memo_inv P memo →
    ∃ s memo', minimax_fuel fuel b t memo = Ok (s, b, memo')
               ∧ P b t s ∧ memo_inv P memo'.
Proof.
  induction fuel as [|fuel IH]; intros b t memo Hlen Hfuel Hinv; [lia|].
  simpl. rewrite winner_wide by done. simpl.
  case_decide as Hai; [by exists 1, memo; eauto|].
  case_decide as Hhu; [by exists (-1), memo; eauto|].
  assert (winner_of b = None) as Hnone.
  { destruct (winner_of b) as [[]|] eqn:Hw; try done.
    by apply winner_of_not_EMPTY in Hw. }
  rewrite is_draw_wide by done. simpl.
  rewrite Hnone, bool_decide_eq_true_2 by done. simpl.
  destruct (forallb _ b) eqn:Hfull.
  { apply forallb_marked in Hfull. by exists 0, memo; eauto. }
  assert (available_moves b ≠ []) as Hmoves.
  { intros H%forallb_marked. congruence. }
  destruct (memo !! board_key b t) as [v|] eqn:Hmemo.
  { exists v, memo. eauto. }
  assert (∀ mark other,
    mark ≠ EMPTY →
    ∀ m memo0, b !! m = Some EMPTY → memo_inv P memo0 →
    ∃ s memo',
      minimax_fuel fuel (<[m := mark]> b) other memo0
        = Ok (s, <[m := mark]> b, memo')
      ∧ P (<[m := mark]> b) other s ∧ memo_inv P memo') as Hrec.
  { intros mark other Hmark m memo0 Hbm Hinv0. apply IH; [|  |done].
    - by rewrite length_insert.
    - pose proof (empties_place b m mark Hbm Hmark). lia. }
  pose proof (P_node b t) as Hnode. unfold mover, opponent, pick_of, worst in Hnode.
  case_decide as Ht.
  - destruct (minimax_loop_spec
                (λ b memo, minimax_fuel fuel b HUMAN memo) AI HUMAN Z.max b
                (Hrec AI HUMAN ltac:(done)) (available_moves b) (-10) memo)
      as (scores & memo' & Hl & HF & Hinv');
      [by intros m ?%elem_of_available_moves|done|].
    rewrite Hl. simpl. eexists _, _. split; [done|].
    split; [by apply Hnode|]. apply memo_inv_insert; [done|by apply Hnode].
  - destruct (minimax_loop_spec
                (λ b memo, minimax_fuel fuel b AI memo) HUMAN AI Z.min b
                (Hrec HUMAN AI ltac:(done)) (available_moves b) 10 memo)
      as (scores & memo' & Hl & HF & Hinv');
      [by intros m ?%elem_of_available_moves|done|].
    rewrite Hl. simpl. eexists _, _. split; [done|].
    split; [by apply Hnode|]. apply memo_inv_insert; [done|by apply Hnode].
Qed.

Lemma minimax_spec (b : board) (t : cell) (memo : memo_table) :
  (9 ≤ length b)%nat → memo_inv P memo →
  ∃ s memo', minimax b t memo = Ok (s, b, memo') ∧ P b t s ∧ memo_inv P memo'.
Proof.
  intros Hlen Hinv. apply minimax_fuel_spec; [done| |done].
  pose proof (empties_le b). lia.
Qed.

End search.

(** ** The fuel is a termination device only *)

Lemma minimax_loop_mono
    (rec1 rec2 : board → memo_table → result (Z * board * memo_table))
    (mark : cell) (pick : Z → Z → Z) :
  (∀ b memo r, rec1 b memo = Ok r → rec2 b memo = Ok r) →
  ∀ moves best b memo r,
    minimax_loop rec1 mark pick moves best b memo = Ok r →
    minimax_loop rec2 mark pick moves best b memo = Ok r.
Proof.
  intros Hrec. induction moves as [|m moves IH]; intros best b memo r; [done|].
  simpl. intros (b1 & Hb1 & Hrest)%bind_Ok.
  apply bind_Ok in Hrest as ([[score b2] memo2] & Hcall & Hrest).
  apply bind_Ok in Hrest as (b3 & Hb3 & Hrest).
  rewrite Hb1. simpl. rewrite (Hrec _ _ _ Hcall). simpl. rewrite Hb3. simpl.
  by apply IH.
Qed.

(** More fuel never changes a result. *)
Lemma minimax_fuel_mono (fuel : nat) :
  ∀ fuel' b t memo r,
    (fuel ≤ fuel')%nat →
    minimax_fuel fuel b t memo = Ok r → minimax_fuel fuel' b t memo = Ok r.
Proof.
  induction fuel as [|fuel IH]; intros fuel' b t memo r Hle; [done|].
  destruct fuel' as [|fuel']; [lia|]. simpl.
  destruct (winner b) as [w| |]; simpl; try done.
  case_decide; [done|]. case_decide; [done|].
  destruct (is_draw b) as [[|]| |]; simpl; try done.
  destruct (memo !! board_key b t); [done|].
  case_decide; intros (x & Hloop & Hret)%bind_Ok; apply bind_Ok; exists x;
    (split; [|done]); eapply minimax_loop_mono; try exact Hloop;
    intros b0 memo0 r0; apply IH; lia.
Qed.

(** With more fuel than empty cells the result is that of [minimax]. *)
Lemma minimax_fuel_enough (fuel : nat) (b : board) (t : cell)
    (memo : memo_table) :
  (9 ≤ length b)%nat → (empties b < fuel)%nat →
  minimax_fuel fuel b t memo = minimax b t memo.
Proof.
  intros Hlen Hfuel. pose proof (empties_le b) as Hle.
  destruct (minimax_fuel_spec (λ _ _ _, True) ltac:(done) ltac:(done)
              ltac:(done) ltac:(done) fuel b t memo Hlen Hfuel)
    as (s1 & memo1 & H1 & _); [done|].
  destruct (minimax_fuel_spec (λ _ _ _, True) ltac:(done) ltac:(done)
              ltac:(done) ltac:(done) (S (length b)) b t memo Hlen)
    as (s2 & memo2 & H2 & _); [lia|done|].
  unfold minimax. rewrite H1, H2.
  apply (minimax_fuel_mono _ (fuel `max` S (length b))) in H1; [|lia].
  apply (minimax_fuel_mono _ (fuel `max` S (length b))) in H2; [|lia].
  congruence.
Qed.

(** ** Terminal positions and cached positions *)





(** ** The reference search *)

Lemma reference_score_terminal (b : board) (t : cell) (s : Z) :
  (9 ≤ length b)%nat →
  (winner_of b = Some AI ∧ s = 1) ∨ (winner_of b = Some HUMAN ∧ s = -1) ∨
  (winner_of b = None ∧ available_moves b = [] ∧ s = 0) →
  reference_score b t s.
Proof.
  intros Hlen H [|fuel] Hf; [lia|]. simpl. rewrite winner_wide by done. simpl.
  destruct H as [[Hw ->]|[[Hw ->]|(Hw & Hm & ->)]]; rewrite Hw.
  - by rewrite decide_True.
  - by rewrite decide_False, decide_True.
  - rewrite !decide_False by done. rewrite is_draw_wide by done. simpl.
    apply forallb_marked in Hm. by rewrite Hw, Hm.
Qed.

Lemma reference_loop_scores (fuel : nat) (mark other : cell)
    (pick : Z → Z → Z) (b : board) :
  mark ≠ EMPTY → (empties b ≤ fuel)%nat →
  ∀ moves scores best,
    (∀ m, m ∈ moves → b !! m = Some EMPTY) →
    Forall2 (λ m s, reference_score (<[m := mark]> b) other s) moves scores →
    reference_loop (λ b, minimax_reference fuel b other) mark pick
                   moves best b = Ok (foldl pick best scores).
Proof.
  intros Hmark Hfuel moves scores best Hm HF. revert best.
  induction HF as [|m s moves scores Hs HF IH]; intros best; [done|].
  assert (b !! m = Some EMPTY) as Hbm by (apply Hm; by left).
  simpl. rewrite setitem_lt by (by eapply lookup_lt_Some). simpl.
  rewrite Hs by (pose proof (empties_place b m mark Hbm Hmark); lia).
  simpl. apply IH. intros m' ?. apply Hm. by right.
Qed.

Lemma reference_score_node (b : board) (t : cell) (scores : list Z) :
  (9 ≤ length b)%nat → winner_of b = None → available_moves b ≠ [] →
  Forall2 (λ m s, reference_score (<[m := mover t]> b) (opponent t) s)
          (available_moves b) scores →
  reference_score b t (foldl (pick_of t) (worst t) scores).
Proof.
  intros Hlen Hw Hm HF [|fuel] Hf; [lia|]. simpl.
  rewrite winner_wide by done. simpl. rewrite Hw, !decide_False by done.
  rewrite is_draw_wide by done. simpl.
  destruct (forallb _ b) eqn:Hfull; [by apply forallb_marked in Hfull|].
  rewrite andb_false_r.
  unfold mover, opponent, pick_of, worst in *.
  case_decide; apply reference_loop_scores; try done; try lia;
    by intros m ?%elem_of_available_moves.
Qed.

Lemma reference_score_value (b : board) (t : cell) (s : Z) :
  reference_score b t s → value b t = s.
Proof.
  intros H. unfold value. rewrite H; [done|]. pose proof (empties_le b). lia.
Qed.

(** ** Scores stay in {-1, 0, 1} *)

Lemma foldl_pick_in_range (t : cell) (scores : list Z) (best : Z) :
  in_range best → Forall in_range scores →
  in_range (foldl (pick_of t) best scores).
Proof.
  intros Hb HF. revert best Hb.
  induction HF as [|s scores Hs HF IH]; intros best Hb; [done|].
  simpl. apply IH. unfold pick_of, in_range in *. case_decide; lia.
Qed.

Lemma foldl_pick_worst (t : cell) (scores : list Z) :
  scores ≠ [] → Forall in_range scores →
  in_range (foldl (pick_of t) (worst t) scores).
Proof.
  intros Hne HF. destruct HF as [|s scores Hs HF]; [done|].
  simpl. apply foldl_pick_in_range; [|done].
  unfold pick_of, worst, in_range in *. case_decide; lia.
Qed.

Lemma in_range_node (P : board → cell → Z → Prop)
    (b : board) (t : cell) (scores : list Z) :
  available_moves b ≠ [] →
  Forall2 (λ m s, P (<[m := mover t]> b) (opponent t) s ∧ in_range s)
          (available_moves b) scores →
  in_range (foldl (pick_of t) (worst t) scores).
Proof.
  intros Hne HF. apply foldl_pick_worst.
  - destruct HF; [done|discriminate].
  - clear Hne. induction HF; constructor; tauto.
Qed.

Lemma minimax_in_range (b : board) (t : cell) (memo : memo_table) :
  (9 ≤ length b)%nat → memo_in_range memo →
  ∃ s memo', minimax b t memo = Ok (s, b, memo')
             ∧ in_range s ∧ memo_in_range memo'.
Proof.
  apply minimax_spec; try (intros; unfold in_range; lia).
  intros b0 t0 scores _ _ Hne HF.
  apply (in_range_node (λ _ _ _, True) b0 t0); [done|].
  eapply Forall2_impl; [exact HF|]. by intros.
Qed.

(** The board comes back as it was, whatever the memo table holds. *)
Lemma minimax_frame (b : board) (t : cell) (memo : memo_table) :
  (9 ≤ length b)%nat →
  ∃ s memo', minimax b t memo = Ok (s, b, memo').
Proof.
  intros Hlen.
  destruct (minimax_spec (λ _ _ _, True) ltac:(done) ltac:(done) ltac:(done)
              ltac:(done) b t memo Hlen) as (s & memo' & H & _); [done|].
  by exists s, memo'.
Qed.

(** ** Sharing one memo table between searches does not change a score *)

Lemma minimax_sound (b : board) (t : cell) (memo : memo_table) :
  (9 ≤ length b)%nat → memo_inv sound_score memo →
  ∃ s memo', minimax b t memo = Ok (s, b, memo')
             ∧ sound_score b t s ∧ memo_inv sound_score memo'.
Proof.
  apply minimax_spec.
  - intros. split; [apply reference_score_terminal; auto|]. unfold in_range; lia.
  - intros. split; [apply reference_score_terminal; auto|]. unfold in_range; lia.
  - intros. split; [apply reference_score_terminal; auto|]. unfold in_range; lia.
  - intros b0 t0 scores Hlen Hw Hne HF. split.
    + apply reference_score_node; try done.
      eapply Forall2_impl; [exact HF|]. by intros ?? [? _].
    + by apply (in_range_node reference_score b0 t0).
Qed.

Lemma minimax_value (b : board) (t : cell) (memo : memo_table) :
  (9 ≤ length b)%nat → memo_inv sound_score memo →
  ∃ memo', minimax b t memo = Ok (value b t, b, memo')
           ∧ in_range (value b t) ∧ memo_inv sound_score memo'.
Proof.
  intros Hlen Hinv.
  destruct (minimax_sound b t memo Hlen Hinv) as (s & memo' & H & [Hs Hr] & ?).
  apply reference_score_value in Hs as <-. by exists memo'.
Qed.

Lemma minimax_move_value (b : board) (m : nat) :
  (9 ≤ length b)%nat →
  ∃ memo, minimax (<[m := AI]> b) HUMAN ∅
          = Ok (move_value b m, <[m := AI]> b, memo).
Proof.
  intros Hlen.
  destruct (minimax_value (<[m := AI]> b) HUMAN ∅) as (memo & H & _).
  - by rewrite length_insert.
  - intros b' t v H. discriminate H.
  - by exists memo.
Qed.

Lemma move_value_in_range (b : board) (m : nat) :
  (9 ≤ length b)%nat → in_range (move_value b m).
Proof.
  intros Hlen.
  destruct (minimax_value (<[m := AI]> b) HUMAN ∅) as (_ & _ & H & _).
  - by rewrite length_insert.
  - intros b' t v H. by rewrite lookup_empty in H.
  - done.
Qed.

(** ** [winning_moves] *)

Lemma winning_moves_loop_spec (b : board) (player : cell) :
  (9 ≤ length b)%nat →
  ∀ moves wins,
    (∀ m, m ∈ moves → b !! m = Some EMPTY) →
    winning_moves_loop player moves wins b
      = Ok (wins ++ wins_among b player moves, b).
Proof.
  intros Hlen. induction moves as [|m moves IH]; intros wins Hm.
  - simpl. by rewrite app_nil_r.
  - assert (b !! m = Some EMPTY) as Hbm by (apply Hm; by left).
    simpl. rewrite setitem_lt by (by eapply lookup_lt_Some). simpl.
    rewrite winner_wide by (by rewrite length_insert). simpl.
    rewrite setitem_lt by (rewrite length_insert; by eapply lookup_lt_Some).
    simpl. rewrite place_revert by done.
    rewrite IH by (intros m' ?; apply Hm; by right).
    unfold wins_among. rewrite filter_cons.
    case_decide; [|done]. by rewrite <-app_assoc.
Qed.

Lemma winning_moves_spec (b : board) (player : cell) :
  (9 ≤ length b)%nat → winning_moves b player = Ok (wins_for b player, b).
Proof.
  intros Hlen. unfold winning_moves.
  rewrite winning_moves_loop_spec; [done|done|].
  by intros m ?%elem_of_available_moves.
Qed.

Lemma elem_of_wins_for (b : board) (player : cell) (m : nat) :
  m ∈ wins_for b player ↔
  b !! m = Some EMPTY ∧ winner_of (<[m := player]> b) = Some player.
Proof.
  unfold wins_for, wins_among.
  rewrite list_elem_of_filter, elem_of_available_moves. tauto.
Qed.

Lemma wins_now_false (b : board) (m : nat) :
  (9 ≤ length b)%nat → m ∈ available_moves b →
  winning_moves b AI = Ok ([], b) → wins_now b m = false.
Proof.
  intros Hlen Hm. rewrite winning_moves_spec by done. intros [= Hnil].
  apply bool_decide_eq_false. intros Hw.
  assert (m ∈ wins_for b AI) as Hin.
  { apply elem_of_wins_for. by apply elem_of_available_moves in Hm. }
  rewrite Hnil in Hin. by apply elem_of_nil in Hin.
Qed.

(** ** [best_ai_move] as a function of the position *)

Lemma best_ai_move_loop_spec (threats : list nat) (b : board) :
  (9 ≤ length b)%nat →
  ∀ moves best_score best_move memo out,
    (∀ m, m ∈ moves → b !! m = Some EMPTY) →
    memo_inv sound_score memo →
    best_ai_move_loop threats moves best_score best_move b memo out
      = Ok ((decision threats b moves best_score best_move).1, b,
            out ++ (decision threats b moves best_score best_move).2).
Proof.
  intros Hlen.
  induction moves as [|m moves IH]; intros best_score best_move memo out Hm Hinv;
    [done|].
  assert (b !! m = Some EMPTY) as Hbm by (apply Hm; by left).
  assert (m < length b)%nat as Hlt by (by eapply lookup_lt_Some).
  assert (9 ≤ length (<[m := AI]> b))%nat as Hlen' by (by rewrite length_insert).
  simpl. rewrite setitem_lt by done. simpl.
  rewrite winner_wide by done. simpl. unfold wins_now.
  case_decide as Hw.
  - rewrite (bool_decide_eq_true_2 (winner_of _ = Some AI)) by done.
    rewrite setitem_lt by (by rewrite length_insert). simpl.
    by rewrite place_revert.
  - rewrite (bool_decide_eq_false_2 (winner_of _ = Some AI)) by done.
    rewrite winning_moves_spec by done. simpl.
    destruct (minimax_value (<[m := AI]> b) HUMAN memo Hlen' Hinv)
      as (memo' & Hcall & _ & Hinv').
    rewrite Hcall. simpl.
    rewrite setitem_lt by (by rewrite length_insert). simpl.
    rewrite place_revert by done. fold (move_value b m).
    assert (∀ m', m' ∈ moves → b !! m' = Some EMPTY) as Hm'
      by (intros m' ?; apply Hm; by right).
    case_decide; rewrite IH by done; simpl; by rewrite <-app_assoc.
Qed.

Lemma best_ai_move_spec (b : board) :
  (9 ≤ length b)%nat →
  best_ai_move b
    = Ok ((decision (wins_for b HUMAN) b (available_moves b) (-10) (-1)).1, b,
          (threat_lines (wins_for b HUMAN) ++ [Thinking]) ++
          (decision (wins_for b HUMAN) b (available_moves b) (-10) (-1)).2).
Proof.
  intros Hlen. unfold best_ai_move. rewrite winning_moves_spec by done. simpl.
  rewrite best_ai_move_loop_spec.
  - done.
  - done.
  - by intros m ?%elem_of_available_moves.
  - intros b' t v H. by rewrite lookup_empty in H.
Qed.

(** The first immediate win ends the loop: the moves before it are scored,
    the winning move and the moves after it are not. *)
Lemma decision_immediate_win (threats : list nat) (b : board)
    (pre : list nat) (m : nat) (post : list nat) (best_score best_move : Z) :
  (∀ m', m' ∈ pre → wins_now b m' = false) → wins_now b m = true →
  decision threats b (pre ++ m :: post) best_score best_move
    = (Z.of_nat m,
       (score_line threats b <$> pre)
         ++ [ImmediateWin m; Chosen (Z.of_nat m)]).
Proof.
  revert best_score best_move.
  induction pre as [|p pre IH]; intros best_score best_move Hpre Hm; simpl.
  - by rewrite Hm.
  - rewrite (Hpre p) by (by left).
    assert (∀ m', m' ∈ pre → wins_now b m' = false) as Hpre'
      by (intros m' ?; apply Hpre; by right).
    case_decide; by rewrite IH.
Qed.

(** Without an immediate win every move is scored, and the move kept is the
    first one whose score is strictly above everything before it and not
    below anything after it. *)
Lemma decision_first_max (threats : list nat) (b : board) (moves : list nat)
    (best_score best_move : Z) :
  (∀ m, m ∈ moves → wins_now b m = false) →
  (decision threats b moves best_score best_move).2
    = (score_line threats b <$> moves)
        ++ [Chosen (decision threats b moves best_score best_move).1]
  ∧ (((decision threats b moves best_score best_move).1 = best_move
      ∧ ∀ m, m ∈ moves → move_value b m ≤ best_score)
     ∨ ∃ pre m post,
         moves = pre ++ m :: post
         ∧ (decision threats b moves best_score best_move).1 = Z.of_nat m
         ∧ best_score < move_value b m
         ∧ (∀ m', m' ∈ pre → move_value b m' < move_value b m)
         ∧ (∀ m', m' ∈ post → move_value b m' ≤ move_value b m)).
Proof.
  revert best_score best_move.
  induction moves as [|m moves IH]; intros best_score best_move Hno.
  - split; [done|]. left. split; [done|]. by intros m ?%elem_of_nil.
  - simpl. rewrite (Hno m) by (by left).
    assert (∀ m', m' ∈ moves → wins_now b m' = false) as Hno'
      by (intros m' ?; apply Hno; by right).
    case_decide as Hgt; simpl.
    + destruct (IH (move_value b m) (Z.of_nat m) Hno') as [-> Hcase].
      split; [done|]. right.
      destruct Hcase as [[-> Hle]|(pre & m1 & post & -> & -> & Hlt & Hpre & Hpost)].
      * exists [], m, moves. repeat split; try done; try lia.
        by intros m' ?%elem_of_nil.
      * exists (m :: pre), m1, post. repeat split; try done; try lia.
        intros m' [->|?]%elem_of_cons; [lia|by apply Hpre].
    + destruct (IH best_score best_move Hno') as [-> Hcase].
      split; [done|].
      destruct Hcase as [[-> Hle]|(pre & m1 & post & -> & -> & Hlt & Hpre & Hpost)].
      * left. split; [done|].
        intros m' [->|?]%elem_of_cons; [lia|by apply Hle].
      * right. exists (m :: pre), m1, post. repeat split; try done.
        intros m' [->|?]%elem_of_cons; [lia|by apply Hpre].
Qed.

(** With at least one move to look at, [best_ai_move] returns one of them. *)
Lemma decision_available (threats : list nat) (b : board) :
  (9 ≤ length b)%nat → available_moves b ≠ [] →
  (∀ m, m ∈ available_moves b → in_range (move_value b m)) →
  ∃ m, (decision threats b (available_moves b) (-10) (-1)).1 = Z.of_nat m
       ∧ m ∈ available_moves b.
Proof.
  intros Hlen Hne Hr.
  destruct (first_split (wins_now b) (available_moves b))
    as [Hno|(pre & m & post & Heq & Hm & Hpre)].
  - destruct (decision_first_max threats b (available_moves b) (-10) (-1) Hno)
      as [_ [[_ Hle]|(pre & m & post & Heq & Hr' & _)]].
    + destruct (available_moves b) as [|m ms] eqn:Hmoves; [done|].
      specialize (Hle m ltac:(by left)). specialize (Hr m ltac:(by left)).
      unfold in_range in Hr. lia.
    + exists m. split; [done|]. rewrite Heq. apply elem_of_app. right. by left.
  - exists m. rewrite Heq at 1. rewrite decision_immediate_win by done.
    split; [done|]. rewrite Heq. apply elem_of_app. right. by left.
Qed.

Lemma best_ai_move_available (b : board) :
  (9 ≤ length b)%nat → available_moves b ≠ [] →
  ∃ m out, best_ai_move b = Ok (Z.of_nat m, b, out) ∧ m ∈ available_moves b.
Proof.
  intros Hlen Hne. rewrite best_ai_move_spec by done.
  destruct (decision_available (wins_for b HUMAN) b Hlen Hne) as (m & -> & Hm).
  - intros m _. by apply move_value_in_range.
  - by eexists m, _.
Qed.

Lemma scored_app (out1 out2 : list event) :
  scored (out1 ++ out2) = scored out1 ++ scored out2.
Proof. apply omap_app. Qed.

Lemma scored_score_lines (threats : list nat) (b : board) (moves : list nat) :
  scored (score_line threats b <$> moves) = moves.
Proof.
  unfold scored. induction moves as [|m moves IH]; [done|].
  rewrite fmap_cons. cbn [omap list_omap score_line]. by rewrite IH.
Qed.

Lemma scored_threat_lines (threats : list nat) :
  scored (threat_lines threats ++ [Thinking]) = [].
Proof. by destruct threats. Qed.

(** ** The loop with the search as a parameter *)

Lemma best_ai_move_loop_with_minimax (threats moves : list nat) :
  ∀ best_score best_move b memo out,
    best_ai_move_loop_with minimax threats moves best_score best_move b memo
                           out
    = best_ai_move_loop threats moves best_score best_move b memo out.
Proof.
  induction moves as [|m moves IH]; intros best_score best_move b memo out;
    [done|].
  simpl. destruct (setitem b m AI) as [b1| |]; simpl; [|done..].
  destruct (winner b1) as [w| |]; simpl; [|done..].
  case_decide; [done|].
  destruct (winning_moves b1 HUMAN) as [[next b2]| |]; simpl; [|done..].
  destruct (minimax b2 HUMAN memo) as [[[score b3] memo']| |]; simpl;
    [|done..].
  destruct (setitem b3 m EMPTY) as [b4| |]; simpl; [|done..].
  case_decide; apply IH.
Qed.

Lemma best_ai_move_with_minimax (b : board) :
  best_ai_move_with minimax b = best_ai_move b.
Proof.
  unfold best_ai_move_with, best_ai_move.
  destruct (winning_moves b HUMAN) as [[threats b']| |]; simpl; [|done..].
  apply best_ai_move_loop_with_minimax.
Qed.

(** Up to the first immediate win the loop asks [search] for the positions
    after the moves before that win, and for no other. *)
Lemma best_ai_move_loop_with_spec
    (search : board → cell → memo_table → result (Z * board * memo_table))
    (threats : list nat) (b : board) (m : nat) (post : list nat) :
  (9 ≤ length b)%nat → wins_now b m = true →
  ∀ pre best_score best_move memo out,
    (∀ m', m' ∈ pre ++ m :: post → b !! m' = Some EMPTY) →
    (∀ m' memo', m' ∈ pre →
       search (<[m' := AI]> b) HUMAN memo'
       = minimax (<[m' := AI]> b) HUMAN memo') →
    memo_inv sound_score memo →
    best_ai_move_loop_with search threats (pre ++ m :: post) best_score
                           best_move b memo out
      = Ok ((decision threats b (pre ++ m :: post) best_score best_move).1, b,
            out ++ (decision threats b (pre ++ m :: post) best_score
                             best_move).2).
Proof.
  intros Hlen Hnow.
  assert (∀ m' rest best_score best_move memo out,
    b !! m' = Some EMPTY → wins_now b m' = true →
    best_ai_move_loop_with search threats (m' :: rest) best_score best_move
                           b memo out
      = Ok ((decision threats b (m' :: rest) best_score best_move).1, b,
            out ++ (decision threats b (m' :: rest) best_score best_move).2))
    as Hwin.
  { intros m' rest best_score best_move memo out Hbm Hw.
    assert (m' < length b)%nat as Hlt by (by eapply lookup_lt_Some).
    simpl. rewrite Hw. rewrite setitem_lt by done. simpl.
    rewrite winner_wide by (by rewrite length_insert). simpl.
    apply bool_decide_eq_true in Hw. rewrite decide_True by congruence.
    rewrite setitem_lt by (by rewrite length_insert). simpl.
    by rewrite place_revert. }
  induction pre as [|m' pre IH]; intros best_score best_move memo out Hm Hagree
    Hinv.
  { apply Hwin; [|done]. apply Hm. by left. }
  assert (b !! m' = Some EMPTY) as Hbm by (apply Hm; by left).
  destruct (wins_now b m') eqn:Hw; [by apply Hwin|].
  assert (m' < length b)%nat as Hlt by (by eapply lookup_lt_Some).
  assert (9 ≤ length (<[m' := AI]> b))%nat as Hlen'
    by (by rewrite length_insert).
  change ((m' :: pre) ++ m :: post) with (m' :: (pre ++ m :: post)).
  simpl. rewrite Hw. rewrite setitem_lt by done. simpl.
  rewrite winner_wide by done. simpl.
  apply bool_decide_eq_false in Hw. rewrite decide_False by congruence.
  rewrite winning_moves_spec by done. simpl.
  rewrite Hagree by (by left).
  destruct (minimax_value (<[m' := AI]> b) HUMAN memo Hlen' Hinv)
    as (memo' & Hcall & _ & Hinv').
  rewrite Hcall. simpl.
  rewrite setitem_lt by (by rewrite length_insert). simpl.
  rewrite place_revert by done. fold (move_value b m').
  assert (∀ m0, m0 ∈ pre ++ m :: post → b !! m0 = Some EMPTY) as Hm'
    by (intros m0 ?; apply Hm; by right).
  assert (∀ m0 memo0, m0 ∈ pre →
            search (<[m0 := AI]> b) HUMAN memo0
            = minimax (<[m0 := AI]> b) HUMAN memo0) as Hagree'
    by (intros m0 memo0 ?; apply Hagree; by right).
  case_decide; rewrite IH by done; simpl; by rewrite <-app_assoc.
Qed.

Lemma search_before_agrees (b : board) (pre : list nat) (m : nat)
    (turn : cell) (memo : memo_table) :
  m ∈ pre →
  search_before b pre (<[m := AI]> b) turn memo
  = minimax (<[m := AI]> b) turn memo.
Proof.
  intros Hm. unfold search_before. rewrite decide_True; [done|].
  apply list_elem_of_fmap. by exists m.
Qed.

Lemma search_before_raises (b : board) (pre : list nat) (m : nat)
    (turn : cell) (memo : memo_table) :
  b !! m = Some EMPTY → m ∉ pre →
  search_before b pre (<[m := AI]> b) turn memo = Raise IndexError.
Proof.
  intros Hbm Hm. unfold search_before. rewrite decide_False; [done|].
  intros (m' & Heq & Hin)%list_elem_of_fmap.
  assert (m' ≠ m) as Hne by (by intros ->).
  assert (<[m := AI]> b !! m = Some AI) as Hleft.
  { apply list_lookup_insert_Some. left.
    split; [done|]. split; [done|]. by eapply lookup_lt_Some. }
  rewrite Heq, list_lookup_insert_ne, Hbm in Hleft by done.
  discriminate Hleft.
Qed.

(** ** [choose_ai_move] *)

Lemma choice_Ok {A} (rnd : random_source) (seq : list A) :
  valid_source rnd → seq ≠ [] →
  ∃ x, seq !! rnd_randbelow rnd (length seq) = Some x ∧ choice rnd seq = Ok x.
Proof.
  intros [_ Hbelow] Hne.
  assert (0 < length seq)%nat as Hpos by (destruct seq; [done|simpl; lia]).
  destruct (getitem_lt seq _ (Hbelow _ Hpos)) as (x & Hx & Hgx).
  exists x. split; [done|]. by destruct seq.
Qed.

Lemma choose_ai_move_hard (b : board) (rnd : random_source) :
  choose_ai_move b "hard" rnd = best_ai_move b.
Proof.
  unfold choose_ai_move. destruct (best_ai_move b) as [[[best b'] out]| |]; done.
Qed.

Lemma choose_ai_move_unfold (b : board) (difficulty : string)
    (rnd : random_source) (best : Z) (out : list event) :
  best_ai_move b = Ok (best, b, out) →
  choose_ai_move b difficulty rnd =
    if decide (difficulty = "hard"%string) then Ok (best, b, out)
    else if decide (length (available_moves b) = 1%nat) then Ok (best, b, out)
    else if Qlt_le_dec (rnd_random rnd) (p_best difficulty)
         then Ok (best, b, out ++ [ChoosesBest difficulty])
         else mistake ← choice rnd (other_moves b best);
              mret (Z.of_nat mistake, b,
                    out ++ [Mistake difficulty mistake best]).
Proof. intros H. unfold choose_ai_move. rewrite H. reflexivity. Qed.

Lemma other_moves_nonempty (b : board) (best : nat) :
  best ∈ available_moves b → length (available_moves b) ≠ 1%nat →
  other_moves b (Z.of_nat best) ≠ [].
Proof.
  intros Hin Hlen Hnil.
  assert (∀ m, m ∈ available_moves b → m = best) as Hall.
  { intros m Hm. destruct (decide (m = best)) as [|Hne]; [done|]. exfalso.
    assert (m ∈ other_moves b (Z.of_nat best)) as Hm'
      by (apply list_elem_of_filter; split; [lia|done]).
    rewrite Hnil in Hm'. by apply elem_of_nil in Hm'. }
  pose proof (available_moves_NoDup b) as Hnd.
  destruct (available_moves b) as [|m1 [|m2 ms]]; [|done|].
  - by apply elem_of_nil in Hin.
  - assert (m1 = best) as -> by (apply Hall; by left).
    assert (m2 = best) as -> by (apply Hall; right; by left).
    apply NoDup_cons in Hnd as [Hnotin _]. apply Hnotin. by left.
Qed.

Lemma choose_ai_move_modulated (b : board) (difficulty : string)
    (rnd : random_source) :
  (9 ≤ length b)%nat → available_moves b ≠ [] → valid_source rnd →
  ∃ best out0 move out,
    best_ai_move b = Ok (best, b, out0)
    ∧ choose_ai_move b difficulty rnd = Ok (move, b, out)
    ∧ (difficulty = "hard"%string ∨ length (available_moves b) = 1%nat →
       move = best ∧ out = out0)
    ∧ (difficulty ≠ "hard"%string → length (available_moves b) ≠ 1%nat →
       ((rnd_random rnd < p_best difficulty)%Q → move = best)
       ∧ (¬ (rnd_random rnd < p_best difficulty)%Q →
          move ≠ best ∧ ∃ m, move = Z.of_nat m ∧ m ∈ available_moves b)).
Proof.
  intros Hwide Hne Hvalid.
  destruct (best_ai_move_available b Hwide Hne) as (mb & out0 & Hbest & Hmb).
  pose proof (choose_ai_move_unfold b difficulty rnd _ _ Hbest) as Hrun.
  exists (Z.of_nat mb), out0.
  destruct (decide (difficulty = "hard"%string)) as [Hhard|Hhard].
  { eexists _, _. split; [done|]. split; [exact Hrun|]. by split. }
  destruct (decide (length (available_moves b) = 1%nat)) as [Hone|Hone].
  { eexists _, _. split; [done|]. split; [exact Hrun|]. by split. }
  destruct (Qlt_le_dec (rnd_random rnd) (p_best difficulty)) as [Hlt|Hge].
  { eexists _, _. split; [done|]. split; [exact Hrun|].
    split; [by intros [?|?]|]. intros _ _. split; [done|]. by intros []. }
  destruct (choice_Ok rnd (other_moves b (Z.of_nat mb)) Hvalid)
    as (mistake & Hlookup & Hchoice); [by apply other_moves_nonempty|].
  rewrite Hchoice in Hrun. simpl in Hrun.
  apply list_elem_of_lookup_2, list_elem_of_filter in Hlookup as [Hneq Hin].
  eexists _, _. split; [done|]. split; [exact Hrun|].
  split; [by intros [?|?]|]. intros _ _. split.
  - intros Hlt. exfalso. by eapply Qle_not_lt.
  - intros _. split; [done|]. by exists mistake.
Qed.

(** ** Perfect play *)

Lemma drawnb_drawn (b : board) : drawnb b = true → drawn b.
Proof.
  unfold drawnb, drawn.
  destruct (winner b) as [[w|]| |]; try done.
  destruct (is_draw b) as [[|]| |]; try done.
  intros H%forallb_marked%available_moves_nil. done.
Qed.

Lemma all_drawn_spec (r : result (list board)) :
  all_drawn r = true →
  ∃ finals, r = Ok finals ∧ finals ≠ [] ∧ ∀ final, final ∈ finals → drawn final.
Proof.
  destruct r as [[|b finals]| |]; try done. intros H.
  exists (b :: finals). split; [done|]. split; [done|].
  intros final Hin. apply drawnb_drawn.
  unfold all_drawn in H. rewrite forallb_forall in H. apply H.
  by apply list_elem_of_In.
Qed.

Lemma collect_elem_of {A} (f : nat → result (list A)) (moves : list nat)
    (finals : list A) (x : A) :
  collect f moves = Ok finals →
  x ∈ finals ↔ ∃ m xs, m ∈ moves ∧ f m = Ok xs ∧ x ∈ xs.
Proof.
  revert finals. induction moves as [|m moves IH]; intros finals; simpl.
  - intros [= <-]. split; [by intros ?%elem_of_nil|].
    by intros (m & xs & ?%elem_of_nil & _).
  - intros (xs & Hxs & (ys & Hys & [= <-])%bind_Ok)%bind_Ok.
    rewrite elem_of_app, (IH ys Hys). split.
    + intros [Hx|(m' & xs' & Hm' & Hf & Hx)].
      * exists m, xs. split; [by left|done].
      * exists m', xs'. split; [by right|done].
    + intros (m' & xs' & [->|Hm']%elem_of_cons & Hf & Hx).
      * left. congruence.
      * right. by exists m', xs'.
Qed.

(** [perfect_play] lists the final boards of the perfect games, all of them
    and nothing else. *)
Lemma perfect_play_complete (rnd : random_source) (turn : cell)
    (b final : board) :
  perfect_game rnd turn b final →
  ∀ fuel finals, perfect_play rnd fuel turn b = Ok finals → final ∈ finals.
Proof.
  induction 1 as [b b' moves m w Hmoves Hm Hturn Hafter
                 |b b' moves m turn final Hmoves Hm Hturn Hafter Hgame IH
                 |b b' out w Hturn Hafter
                 |b b' out turn final Hturn Hafter Hgame IH];
    intros [|fuel] finals; try done; simpl.
  - rewrite Hmoves. simpl. intros Hc.
    apply (collect_elem_of _ _ _ b' Hc). exists m, [b'].
    split; [done|]. rewrite Hturn. simpl. rewrite Hafter. simpl.
    split; [done|]. by left.
  - rewrite Hmoves. simpl. intros Hc.
    destruct (perfect_play rnd fuel turn b') as [xs| |] eqn:Hrest.
    + apply (collect_elem_of _ _ _ final Hc). exists m, xs.
      split; [done|]. rewrite Hturn. simpl. rewrite Hafter. simpl.
      split; [done|]. by apply (IH fuel).
    + exfalso. clear -Hc Hm Hturn Hafter Hrest.
      revert finals Hc. induction moves as [|m' moves IHm]; intros finals;
        [by apply elem_of_nil in Hm|].
      simpl. apply elem_of_cons in Hm as [<-|Hm].
      * rewrite Hturn. simpl. rewrite Hafter. simpl. by rewrite Hrest.
      * intros (xs & _ & (ys & Hys & _)%bind_Ok)%bind_Ok. by eapply IHm.
    + exfalso. clear -Hc Hm Hturn Hafter Hrest.
      revert finals Hc. induction moves as [|m' moves IHm]; intros finals;
        [by apply elem_of_nil in Hm|].
      simpl. apply elem_of_cons in Hm as [<-|Hm].
      * rewrite Hturn. simpl. rewrite Hafter. simpl. by rewrite Hrest.
      * intros (xs & _ & (ys & Hys & _)%bind_Ok)%bind_Ok. by eapply IHm.
  - rewrite Hturn. simpl. rewrite Hafter. simpl. intros [= <-]. by left.
  - rewrite Hturn. simpl. rewrite Hafter. simpl. apply IH.
Qed.

Lemma after_move_turn (turn turn' : cell) (b : board) :
  after_move turn b = Ok (Playing turn') → turn' = AI ∨ turn' = HUMAN.
Proof.
  unfold after_move. destruct (winner b) as [w| |]; try done. simpl.
  case_decide; [done|]. destruct (is_draw b) as [[|]| |]; try done. simpl.
  intros [= <-]. case_decide; auto.
Qed.

Lemma perfect_play_sound (rnd : random_source) (fuel : nat) :
  ∀ turn b finals final,
    turn = AI ∨ turn = HUMAN →
    perfect_play rnd fuel turn b = Ok finals → final ∈ finals →
    perfect_game rnd turn b final.
Proof.
  induction fuel as [|fuel IH]; intros turn b finals final Hturn; [done|].
  simpl. destruct Hturn as [->| ->]; simpl.
  - intros ([b' out] & Hai & Hrest)%bind_Ok.
    apply bind_Ok in Hrest as (st & Hafter & Hrest).
    destruct st as [turn'|w].
    + intros Hin. eapply ai_goes_on; [done|done|].
      eapply IH; [by eapply after_move_turn|done|done].
    + injection Hrest as <-. intros ->%list_elem_of_singleton.
      by eapply ai_ends.
  - intros (moves & Hmoves & Hc)%bind_Ok Hin.
    apply (collect_elem_of _ _ _ final Hc) in Hin as (m & xs & Hm & Hf & Hin).
    apply bind_Ok in Hf as (b' & Hhuman & Hrest).
    apply bind_Ok in Hrest as (st & Hafter & Hrest).
    destruct st as [turn'|w].
    + eapply human_goes_on; [done|done|done|done|].
      eapply IH; [by eapply after_move_turn|done|done].
    + injection Hrest as <-. apply list_elem_of_singleton in Hin as ->.
      by eapply human_ends.
Qed.

(** * The claims *)

(** C1. Perfect play is a forced draw: from the empty nine-cell board, with
    either side to start, AI playing [choose_ai_move] at "hard" and HUMAN
    playing any reply that is optimal for [minimax], every game ends, within
    nine plies and without an error, on a board that has no winner and no
    empty cell; and such a game exists. *)
Theorem perfect_play_forced_draw (rnd : random_source) (start : cell) :
  start = AI ∨ start = HUMAN →
  (∃ finals,
     perfect_play rnd 10 start empty_board = Ok finals
     ∧ finals ≠ []
     ∧ ∀ final, final ∈ finals ↔ perfect_game rnd start empty_board final)
  ∧ (∃ final, perfect_game rnd start empty_board final)
  ∧ ∀ final, perfect_game rnd start empty_board final → drawn final.
Proof.
  intros Hstart.
  assert (all_drawn (perfect_play rnd 10 start empty_board) = true) as Hall
    by (destruct Hstart as [->| ->]; vm_compute; reflexivity).
  apply all_drawn_spec in Hall as (finals & Hrun & Hne & Hdrawn).
  assert (∀ final, final ∈ finals ↔ perfect_game rnd start empty_board final)
    as Hiff.
  { intros final. split.
    - intros Hin. exact (perfect_play_sound rnd 10 _ _ _ _ Hstart Hrun Hin).
    - intros Hgame. exact (perfect_play_complete _ _ _ _ Hgame 10 _ Hrun). }
  split; [by exists finals|]. split.
  - destruct finals as [|final finals]; [done|].
    exists final. apply Hiff. by left.
  - intros final Hgame. by apply Hdrawn, Hiff.
Qed.

Lemma perfect_play_forced_draw_witness :
  ∃ final, perfect_game half_then_first HUMAN empty_board final
           ∧ drawn final.
Proof.
  destruct (perfect_play_forced_draw half_then_first HUMAN)
    as (_ & [final Hgame] & Hdrawn).
  - right. reflexivity.
  - exists final. exact (conj Hgame (Hdrawn final Hgame)).
Defined.






(** C4. Move/revert symmetry and purity: on a nine-cell board, whatever the
    turn and the contents of the memo table, [minimax] returns the board it
    was given; a second call with a fresh memo on the board the first call
    left behind returns the same score; [winning_moves] and [best_ai_move]
    return the board they were given too, and that covers the early return
    of [best_ai_move] on an immediate win. *)
Theorem move_revert_symmetry (b : board) :
  length b = 9%nat →
  (∀ turn memo, ∃ s memo', minimax b turn memo = Ok (s, b, memo'))
  ∧ (∀ turn s b1 memo1,
       minimax b turn ∅ = Ok (s, b1, memo1) →
       ∃ memo2, minimax b1 turn ∅ = Ok (s, b1, memo2))
  ∧ (∀ player, ∃ wins, winning_moves b player = Ok (wins, b))
  ∧ (∃ move out, best_ai_move b = Ok (move, b, out))
  ∧ (∀ m, m ∈ available_moves b →
          winner (<[m := AI]> b) = Ok (Some AI) →
          ∃ m0 out, best_ai_move b = Ok (Z.of_nat m0, b, out)
                    ∧ ImmediateWin m0 ∈ out).
Proof.
  intros Hlen. assert (9 ≤ length b)%nat as Hwide by lia.
  split; [|split; [|split; [|split]]].
  - intros turn memo. by apply minimax_frame.
  - intros turn s b1 memo1 Hrun.
    destruct (minimax_frame b turn ∅ Hwide) as (s' & memo' & Hrun').
    rewrite Hrun' in Hrun. injection Hrun as -> <- <-. by exists memo'.
  - intros player. eexists. by apply winning_moves_spec.
  - eexists _, _. by apply best_ai_move_spec.
  - intros m Hm Hwin. rewrite best_ai_move_spec by done.
    rewrite winner_wide in Hwin by (by rewrite length_insert).
    injection Hwin as Hwin.
    destruct (first_split (wins_now b) (available_moves b))
      as [Hno|(pre & m0 & post & Heq & Hm0 & Hpre)].
    + specialize (Hno m Hm). unfold wins_now in Hno.
      by rewrite bool_decide_eq_true_2 in Hno.
    + pose proof (decision_immediate_win (wins_for b HUMAN) b pre m0 post
                    (-10) (-1) Hpre Hm0) as Hd.
      rewrite <-Heq in Hd. rewrite Hd.
      eexists m0, _. split; [done|]. simpl.
      rewrite !elem_of_app, !elem_of_cons. right. right. by left.
Qed.

Lemma move_revert_symmetry_witness :
  ∃ move out,
    best_ai_move [AI; AI; EMPTY; HUMAN; HUMAN; EMPTY; EMPTY; EMPTY; EMPTY]
      = Ok (move, [AI; AI; EMPTY; HUMAN; HUMAN; EMPTY; EMPTY; EMPTY; EMPTY],
            out).
Proof.
  apply (move_revert_symmetry
           [AI; AI; EMPTY; HUMAN; HUMAN; EMPTY; EMPTY; EMPTY; EMPTY]).
  reflexivity.
Defined.

(** C5. Tie-break determinism: on a nine-cell board with an empty cell on
    which no move wins at once, [best_ai_move] scores every available move
    and returns an available move whose [minimax] score no other available
    move exceeds and that has the lowest index among the moves with that
    score; on the empty board all nine moves score 0 and it returns
    index 0. *)
Theorem tie_break_determinism :
  (∀ b : board,
     length b = 9%nat → available_moves b ≠ [] →
     winning_moves b AI = Ok ([], b) →
     ∃ m out,
       best_ai_move b = Ok (Z.of_nat m, b, out)
       ∧ m ∈ available_moves b
       ∧ scored out = available_moves b
       ∧ ∀ m', m' ∈ available_moves b →
           ∃ s s' memo memo',
             minimax (<[m := AI]> b) HUMAN ∅ = Ok (s, <[m := AI]> b, memo)
             ∧ minimax (<[m' := AI]> b) HUMAN ∅
                 = Ok (s', <[m' := AI]> b, memo')
             ∧ s' ≤ s ∧ (s' = s → (m ≤ m')%nat))
  ∧ best_ai_move empty_board
    = Ok (0, empty_board,
          [Thinking] ++ ((λ m, MoveScore m 0 false []) <$> seq 0 9)
            ++ [Chosen 0]).
Proof.
  split; [|vm_compute; reflexivity].
  intros b Hlen Hne Hnowin. assert (9 ≤ length b)%nat as Hwide by lia.
  assert (∀ m, m ∈ available_moves b → wins_now b m = false) as Hno
    by (intros m Hm; by apply wins_now_false).
  rewrite best_ai_move_spec by done.
  destruct (decision_first_max (wins_for b HUMAN) b (available_moves b)
              (-10) (-1) Hno)
    as [Hout [[_ Hle]|(pre & m & post & Heq & Hmove & _ & Hpre & Hpost)]].
  { destruct (available_moves b) as [|m ms] eqn:Hmoves; [done|].
    specialize (Hle m ltac:(by left)).
    pose proof (move_value_in_range b m Hwide) as Hr.
    unfold in_range in Hr. lia. }
  rewrite Hout, Hmove. exists m. eexists. split; [done|].
  assert (m ∈ available_moves b) as Hm
    by (rewrite Heq; apply elem_of_app; right; by left).
  split; [done|]. split.
  { rewrite scored_app, scored_threat_lines, scored_app, scored_score_lines.
    simpl. by rewrite app_nil_r. }
  intros m' Hm'.
  destruct (minimax_move_value b m Hwide) as (memo & Hrun).
  destruct (minimax_move_value b m' Hwide) as (memo' & Hrun').
  exists (move_value b m), (move_value b m'), memo, memo'.
  split; [done|]. split; [done|].
  pose proof (available_moves_sorted b) as Hsorted. rewrite Heq in Hsorted.
  apply sorted_split in Hsorted as [Hlt Hgt].
  rewrite Heq in Hm'.
  apply elem_of_app in Hm' as [Hin|[->|Hin]%elem_of_cons].
  - specialize (Hpre m' Hin). lia.
  - lia.
  - specialize (Hpost m' Hin). specialize (Hgt m' Hin). lia.
Qed.

Lemma tie_break_determinism_witness :
  ∃ m out,
    best_ai_move [HUMAN; HUMAN; EMPTY; EMPTY; AI; EMPTY; EMPTY; EMPTY; EMPTY]
      = Ok (Z.of_nat m,
            [HUMAN; HUMAN; EMPTY; EMPTY; AI; EMPTY; EMPTY; EMPTY; EMPTY], out)
    ∧ m ∈ available_moves
            [HUMAN; HUMAN; EMPTY; EMPTY; AI; EMPTY; EMPTY; EMPTY; EMPTY].
Proof.
  destruct tie_break_determinism as [H _].
  destruct (H [HUMAN; HUMAN; EMPTY; EMPTY; AI; EMPTY; EMPTY; EMPTY; EMPTY])
    as (m & out & Hrun & Hm & _).
  - reflexivity.
  - vm_compute. discriminate.
  - vm_compute. reflexivity.
  - exists m, out. exact (conj Hrun Hm).
Defined.

(** C6, as stated: "on the board [X,X,EMPTY,O,O,EMPTY,EMPTY,EMPTY,EMPTY]
    with AI to move, select_ai_move returns index 2".  At "easy" with a draw
    of 1/2, which is not below 0.35, [choose_ai_move] takes the mistake
    branch and returns index 5, although [best_ai_move] found the win at 2. *)
Lemma immediate_win_example_counterexample :
  choose_ai_move winning_position "easy" half_then_first
    = Ok (5, winning_position,
          [ThreatWarning [5%nat]; Thinking; ImmediateWin 2; Chosen 2;
           Mistake "easy" 5 2])
  ∧ valid_source half_then_first
  ∧ ¬ ∃ out, choose_ai_move winning_position "easy" half_then_first
             = Ok (2, winning_position, out).
Proof.
  assert (choose_ai_move winning_position "easy" half_then_first
            = Ok (5, winning_position,
                  [ThreatWarning [5%nat]; Thinking; ImmediateWin 2; Chosen 2;
                   Mistake "easy" 5 2])) as Hrun
    by (vm_compute; reflexivity).
  split; [exact Hrun|]. split.
  - split; [split; [discriminate|reflexivity]|]. intros n Hn. simpl. exact Hn.
  - intros [out Hout]. rewrite Hrun in Hout. discriminate Hout.
Qed.

(** The loop does not ask for the score of the first immediate win or of
    any later move: any [search] that agrees with [minimax] on the positions
    after the moves before that win gives the result of [best_ai_move]. *)
Lemma best_ai_move_with_first_win
    (search : board → cell → memo_table → result (Z * board * memo_table))
    (b : board) (pre : list nat) (m : nat) (post : list nat) :
  (9 ≤ length b)%nat → available_moves b = pre ++ m :: post →
  wins_now b m = true →
  (∀ m' memo, m' ∈ pre →
     search (<[m' := AI]> b) HUMAN memo
     = minimax (<[m' := AI]> b) HUMAN memo) →
  best_ai_move_with search b = best_ai_move b.
Proof.
  intros Hlen Heq Hnow Hagree.
  rewrite best_ai_move_spec by done.
  unfold best_ai_move_with. rewrite winning_moves_spec by done. simpl.
  rewrite Heq.
  rewrite (best_ai_move_loop_with_spec search _ b m post Hlen Hnow pre).
  - reflexivity.
  - intros m' Hm'. apply elem_of_available_moves. by rewrite Heq.
  - exact Hagree.
  - intros b' t v H. by rewrite lookup_empty in H.
Qed.

(** C6, amended.  Immediate-win priority: on a nine-cell board, when placing
    the AI mark on some empty cell makes [winner] report AI, [best_ai_move]
    returns the lowest-index such cell; only the available moves before it
    get a score line, and the search is invoked neither for it nor for any
    later move: the loop, with the search as a parameter, returns the same
    result for every search that agrees with [minimax] on the positions after
    the earlier moves, in particular for the search that raises on the
    position after the winning move and after every later move; and
    [choose_ai_move] at "hard" returns the same cell.  The loop with
    [minimax] as the search is [best_ai_move].  On a board without a
    completed line these cells are exactly the empty cells that complete an
    AI win line.  On [X,X,EMPTY,O,O,EMPTY,EMPTY,EMPTY,EMPTY] [best_ai_move],
    and [choose_ai_move] at "hard", return index 2 without any score line,
    also with a search that raises on every position. *)
Theorem immediate_win_priority :
  (∀ (b : board) (m : nat),
     length b = 9%nat → b !! m = Some EMPTY →
     winner (<[m := AI]> b) = Ok (Some AI) →
     (∀ m', (m' < m)%nat → b !! m' = Some EMPTY →
            winner (<[m' := AI]> b) ≠ Ok (Some AI)) →
     ∃ out pre post,
       best_ai_move b = Ok (Z.of_nat m, b, out)
       ∧ available_moves b = pre ++ m :: post
       ∧ scored out = pre
       ∧ ImmediateWin m ∈ out
       ∧ (∀ rnd, choose_ai_move b "hard" rnd = Ok (Z.of_nat m, b, out))
       ∧ (∀ search,
            (∀ m' memo, m' ∈ pre →
               search (<[m' := AI]> b) HUMAN memo
               = minimax (<[m' := AI]> b) HUMAN memo) →
            best_ai_move_with search b = Ok (Z.of_nat m, b, out))
       ∧ best_ai_move_with (search_before b pre) b = Ok (Z.of_nat m, b, out)
       ∧ (∀ m' turn memo, m' ∈ m :: post →
            search_before b pre (<[m' := AI]> b) turn memo
            = Raise IndexError))
  ∧ (∀ b : board, best_ai_move_with minimax b = best_ai_move b)
  ∧ (∀ (b : board) (m : nat),
       length b = 9%nat → winner b = Ok None →
       (winner (<[m := AI]> b) = Ok (Some AI)
        ↔ ∃ l, l ∈ WIN_LINES ∧ completed (<[m := AI]> b) l AI))
  ∧ (∀ rnd,
       choose_ai_move winning_position "hard" rnd
         = Ok (2, winning_position,
               [ThreatWarning [5%nat]; Thinking; ImmediateWin 2; Chosen 2]))
  ∧ best_ai_move_with (λ _ _ _, Raise IndexError) winning_position
      = Ok (2, winning_position,
            [ThreatWarning [5%nat]; Thinking; ImmediateWin 2; Chosen 2]).
Proof.
  split; [|split; [|split; [|split]]].
  - intros b m Hlen Hbm Hwin Hfirst. assert (9 ≤ length b)%nat as Hwide by lia.
    assert (m ∈ available_moves b) as Hm by (by apply elem_of_available_moves).
    apply list_elem_of_split in Hm as (pre & post & Heq).
    pose proof (available_moves_sorted b) as Hsorted. rewrite Heq in Hsorted.
    apply sorted_split in Hsorted as [Hlt Hgt].
    assert (wins_now b m = true) as Hnow.
    { apply bool_decide_eq_true.
      rewrite winner_wide in Hwin by (by rewrite length_insert). congruence. }
    assert (∀ m', m' ∈ pre → wins_now b m' = false) as Hpre.
    { intros m' Hin. apply bool_decide_eq_false. intros Hw.
      apply (Hfirst m' (Hlt m' Hin)).
      - apply elem_of_available_moves. rewrite Heq. apply elem_of_app. by left.
      - rewrite winner_wide by (by rewrite length_insert). by rewrite Hw. }
    pose proof (decision_immediate_win (wins_for b HUMAN) b pre m post
                  (-10) (-1) Hpre Hnow) as Hd.
    rewrite <-Heq in Hd.
    assert (∃ out, best_ai_move b = Ok (Z.of_nat m, b, out)
                   ∧ scored out = pre ∧ ImmediateWin m ∈ out)
      as (out & Hrun & Hscored & Hin).
    { rewrite best_ai_move_spec, Hd by done. eexists. split; [done|]. simpl.
      split.
      - rewrite scored_app, scored_threat_lines, scored_app, scored_score_lines.
        simpl. by rewrite app_nil_r.
      - rewrite !elem_of_app, !elem_of_cons. right. right. by left. }
    exists out, pre, post.
    split; [done|]. split; [done|]. split; [done|]. split; [done|].
    split; [intros rnd; by rewrite choose_ai_move_hard|].
    split; [|split].
    + intros search Hagree. rewrite <-Hrun.
      by apply (best_ai_move_with_first_win search b pre m post).
    + rewrite <-Hrun.
      apply (best_ai_move_with_first_win _ b pre m post); [done..|].
      intros m' memo Hm'. by apply search_before_agrees.
    + intros m' turn memo Hm'. apply search_before_raises.
      * apply elem_of_available_moves. rewrite Heq. apply elem_of_app.
        by right.
      * intros Hin'. apply Hlt in Hin'.
        apply elem_of_cons in Hm' as [->|Hm']; [lia|].
        apply Hgt in Hm'. lia.
  - apply best_ai_move_with_minimax.
  - intros b m Hlen. rewrite !winner_wide by (rewrite ?length_insert; lia).
    intros [= Hnone]. rewrite <-wins_now_completes by done.
    split; [by intros [= ->]|by intros ->].
  - intros rnd. rewrite choose_ai_move_hard. vm_compute. reflexivity.
  - vm_compute. reflexivity.
Qed.

Lemma immediate_win_priority_witness :
  ∃ out pre post,
    best_ai_move late_win_position = Ok (5, late_win_position, out)
    ∧ available_moves late_win_position = pre ++ 5%nat :: post
    ∧ scored out = pre
    ∧ best_ai_move_with (search_before late_win_position pre)
                        late_win_position
      = Ok (5, late_win_position, out)
    ∧ search_before late_win_position pre
                    (<[5%nat := AI]> late_win_position) HUMAN ∅
      = Raise IndexError.
Proof.
  destruct immediate_win_priority as [H _].
  destruct (H late_win_position 5%nat)
    as (out & pre & post & H1 & H2 & H3 & _ & _ & _ & H7 & H8).
  - reflexivity.
  - reflexivity.
  - vm_compute. reflexivity.
  - intros m' Hlt.
    assert (m' = 0 ∨ m' = 1 ∨ m' = 2 ∨ m' = 3 ∨ m' = 4)%nat
      as [->|[->|[->|[->| ->]]]] by lia; intros Hc;
      first [discriminate Hc|intros Hw; vm_compute in Hw; discriminate Hw].
  - exists out, pre, post.
    exact (conj H1 (conj H2 (conj H3 (conj H7
             (H8 5%nat HUMAN ∅ (list_elem_of_here 5%nat post)))))).
Defined.

(** C7. Difficulty modulation rule: on a nine-cell board with an empty cell
    and for every outcome of the random source, [choose_ai_move] returns the
    result of [best_ai_move] when the difficulty is "hard" or a single move
    is available; otherwise it returns that perfect move when the draw of
    [random.random()] is below the perfect-play probability (the float 0.7
    for "medium", the float 0.35 for "easy") and, when the draw is not
    below it, an available move different from the perfect move. *)
Theorem difficulty_modulation (b : board) (difficulty : string)
    (rnd : random_source) :
  length b = 9%nat → available_moves b ≠ [] → valid_source rnd →
  (∃ best out0 move out,
     best_ai_move b = Ok (best, b, out0)
     ∧ choose_ai_move b difficulty rnd = Ok (move, b, out)
     ∧ (difficulty = "hard"%string ∨ length (available_moves b) = 1%nat →
        move = best ∧ out = out0)
     ∧ (difficulty ≠ "hard"%string → length (available_moves b) ≠ 1%nat →
        ((rnd_random rnd < p_best difficulty)%Q → move = best)
        ∧ (¬ (rnd_random rnd < p_best difficulty)%Q →
           move ≠ best ∧ ∃ m, move = Z.of_nat m ∧ m ∈ available_moves b)))
  ∧ p_best "medium" = p_medium ∧ p_best "easy" = p_easy
  ∧ (0 <= (7 # 10) - p_medium ∧ (7 # 10) - p_medium <= 1 # 2 ^ 54)%Q
  ∧ (0 <= (35 # 100) - p_easy ∧ (35 # 100) - p_easy <= 1 # 2 ^ 55)%Q.
Proof.
  intros Hlen Hne Hvalid. split.
  - apply choose_ai_move_modulated; [lia|done|done].
  - split; [reflexivity|]. split; [reflexivity|].
    split; split; vm_compute; discriminate.
Qed.

Lemma difficulty_modulation_witness :
  ∃ best out0 move out,
    best_ai_move winning_position = Ok (best, winning_position, out0)
    ∧ choose_ai_move winning_position "medium" half_then_first
        = Ok (move, winning_position, out)
    ∧ (("medium" : string) ≠ "hard"%string →
       length (available_moves winning_position) ≠ 1%nat →
       ((rnd_random half_then_first < p_best "medium")%Q → move = best)
       ∧ (¬ (rnd_random half_then_first < p_best "medium")%Q →
          move ≠ best
          ∧ ∃ m, move = Z.of_nat m ∧ m ∈ available_moves winning_position)).
Proof.
  destruct (difficulty_modulation winning_position "medium" half_then_first)
    as [(best & out0 & move & out & H1 & H2 & _ & H4) _].
  - reflexivity.
  - vm_compute. discriminate.
  - split; [split; [discriminate|reflexivity]|]. intros n Hn. exact Hn.
  - exists best, out0, move, out. exact (conj H1 (conj H2 H4)).
Defined.

(** C8. Mistake move exclusion: on a nine-cell board with more than one
    available move, at a difficulty other than "hard" and with a draw that is
    not below the perfect-play probability, [choose_ai_move] returns the
    element that [random.choice] draws from the available moves without the
    perfect move: an available move, different from the perfect move.  The
    list it draws from has no repetition and holds exactly the other available
    moves, so an index drawn uniformly gives each of them the same chance. *)
Theorem mistake_move_exclusion (b : board) (difficulty : string)
    (rnd : random_source) :
  length b = 9%nat → difficulty ≠ "hard"%string →
  (1 < length (available_moves b))%nat →
  ¬ (rnd_random rnd < p_best difficulty)%Q →
  valid_source rnd →
  ∃ best out0 mistake out,
    best_ai_move b = Ok (Z.of_nat best, b, out0)
    ∧ choose_ai_move b difficulty rnd = Ok (Z.of_nat mistake, b, out)
    ∧ mistake ∈ available_moves b
    ∧ mistake ≠ best
    ∧ Mistake difficulty mistake (Z.of_nat best) ∈ out
    ∧ other_moves b (Z.of_nat best)
        !! rnd_randbelow rnd (length (other_moves b (Z.of_nat best)))
      = Some mistake
    ∧ NoDup (other_moves b (Z.of_nat best))
    ∧ S (length (other_moves b (Z.of_nat best))) = length (available_moves b)
    ∧ ∀ m, m ∈ other_moves b (Z.of_nat best)
           ↔ m ∈ available_moves b ∧ m ≠ best.
Proof.
  intros Hlen Hhard Hmany Hge Hvalid. assert (9 ≤ length b)%nat as Hwide by lia.
  assert (available_moves b ≠ []) as Hne
    by (destruct (available_moves b); [simpl in Hmany; lia|done]).
  destruct (best_ai_move_available b Hwide Hne) as (best & out0 & Hbest & Hin).
  pose proof (choose_ai_move_unfold b difficulty rnd _ _ Hbest) as Hrun.
  rewrite decide_False in Hrun by done.
  rewrite decide_False in Hrun by lia.
  destruct (Qlt_le_dec (rnd_random rnd) (p_best difficulty)) as [Hlt|_];
    [done|].
  destruct (choice_Ok rnd (other_moves b (Z.of_nat best)) Hvalid)
    as (mistake & Hlookup & Hchoice); [apply other_moves_nonempty; [done|lia]|].
  rewrite Hchoice in Hrun. simpl in Hrun.
  assert (∀ m, m ∈ other_moves b (Z.of_nat best)
               ↔ m ∈ available_moves b ∧ m ≠ best) as Hmem.
  { intros m. unfold other_moves. rewrite list_elem_of_filter.
    split; intros [? ?]; split; try done; lia. }
  pose proof Hlookup as Hm%list_elem_of_lookup_2%Hmem.
  exists best, out0, mistake. eexists. split; [done|]. split; [exact Hrun|].
  split; [tauto|]. split; [tauto|].
  split; [apply elem_of_app; right; by left|]. split; [done|].
  split; [apply NoDup_filter, available_moves_NoDup|]. split; [|done].
  unfold other_moves. clear -Hin. pose proof (available_moves_NoDup b) as Hnd.
  induction Hnd as [|m ms Hnotin Hnd IH]; [by apply elem_of_nil in Hin|].
  rewrite filter_cons. apply elem_of_cons in Hin as [->|Hin].
  - rewrite decide_False by lia. simpl. f_equal.
    clear -Hnotin. induction ms as [|x ms IH]; [done|].
    rewrite filter_cons. apply not_elem_of_cons in Hnotin as [Hne Hnotin].
    rewrite decide_True by lia. simpl. by rewrite IH.
  - assert (m ≠ best) by (by intros ->).
    rewrite decide_True by lia. simpl. by rewrite IH.
Qed.

Lemma mistake_move_exclusion_witness :
  ∃ best out0 mistake out,
    best_ai_move winning_position = Ok (Z.of_nat best, winning_position, out0)
    ∧ choose_ai_move winning_position "easy" half_then_first
        = Ok (Z.of_nat mistake, winning_position, out)
    ∧ mistake ∈ available_moves winning_position
    ∧ mistake ≠ best.
Proof.
  destruct (mistake_move_exclusion winning_position "easy" half_then_first)
    as (best & out0 & mistake & out & H1 & H2 & H3 & H4 & _).
  - reflexivity.
  - discriminate.
  - vm_compute. lia.
  - vm_compute. intros H. discriminate H.
  - split; [split; [discriminate|reflexivity]|]. intros n Hn. exact Hn.
  - exists best, out0, mistake, out. exact (conj H1 (conj H2 (conj H3 H4))).
Defined.

(** C9. Totality and score range of the search engine: on every nine-cell
    board (full or not, terminal or not), for every turn and every memo table
    that holds scores only (the empty table in particular), [minimax] returns
    without exhausting its fuel and without raising, the score is -1, 0 or 1,
    and the sentinels -10 and 10 are never returned; the table it leaves
    holds scores only again. *)
Theorem minimax_total_in_range (b : board) (turn : cell) (memo : memo_table) :
  length b = 9%nat → memo_in_range memo →
  ∃ s memo',
    minimax b turn memo = Ok (s, b, memo')
    ∧ (s = -1 ∨ s = 0 ∨ s = 1) ∧ s ≠ -10 ∧ s ≠ 10
    ∧ memo_in_range memo'.
Proof.
  intros Hlen Hmemo.
  destruct (minimax_in_range b turn memo) as (s & memo' & Hrun & Hs & Hmemo');
    [lia|done|].
  exists s, memo'. unfold in_range in Hs.
  split; [done|]. split; [lia|]. split; [lia|]. split; [lia|done].
Qed.

Lemma minimax_total_in_range_witness :
  ∃ s memo',
    minimax empty_board HUMAN ∅ = Ok (s, empty_board, memo')
    ∧ (s = -1 ∨ s = 0 ∨ s = 1) ∧ s ≠ -10 ∧ s ≠ 10
    ∧ memo_in_range memo'.
Proof.
  apply (minimax_total_in_range empty_board HUMAN ∅).
  - reflexivity.
  - intros b t v H. discriminate H.
Defined.

(** C10. Legal-move invariant: on a nine-cell board with an empty cell, for
    every difficulty string and every outcome of the random source,
    [choose_ai_move] returns an element of [available_moves], that is an index
    between 0 and 8 whose cell is empty, and leaves the board as it was; the
    assignment of the game loop then writes the AI mark on that empty cell
    and touches no other cell. *)
Theorem legal_move_invariant (b : board) (difficulty : string)
    (rnd : random_source) :
  length b = 9%nat → available_moves b ≠ [] → valid_source rnd →
  ∃ m out,
    choose_ai_move b difficulty rnd = Ok (Z.of_nat m, b, out)
    ∧ m ∈ available_moves b
    ∧ (0 ≤ Z.of_nat m ≤ 8)
    ∧ b !! m = Some EMPTY
    ∧ ai_turn b difficulty rnd = Ok (<[m := AI]> b, out).
Proof.
  intros Hlen Hne Hvalid. assert (9 ≤ length b)%nat as Hwide by lia.
  destruct (choose_ai_move_modulated b difficulty rnd Hwide Hne Hvalid)
    as (best & out0 & move & out & Hbest & Hrun & Hperfect & Hmod).
  destruct (best_ai_move_available b Hwide Hne) as (mb & out1 & Hbest' & Hmb).
  rewrite Hbest' in Hbest. injection Hbest as <- <-.
  assert (∃ m, move = Z.of_nat m ∧ m ∈ available_moves b) as (m & -> & Hm).
  { destruct (decide (difficulty = "hard"%string)) as [Hhard|Hhard].
    { destruct Hperfect as [-> _]; [by left|]. by exists mb. }
    destruct (decide (length (available_moves b) = 1%nat)) as [Hone|Hone].
    { destruct Hperfect as [-> _]; [by right|]. by exists mb. }
    destruct (Hmod Hhard Hone) as [Hlt Hge].
    destruct (Qlt_le_dec (rnd_random rnd) (p_best difficulty)) as [Hq|Hq].
    - rewrite (Hlt Hq). by exists mb.
    - destruct Hge as [_ Hex]; [by apply Qle_not_lt|]. exact Hex. }
  pose proof (available_moves_lt b m Hm) as Hrange.
  exists m, out. split; [exact Hrun|]. split; [done|]. split; [lia|].
  split; [by apply elem_of_available_moves|].
  unfold ai_turn. rewrite Hrun. simpl. unfold setitem_int.
  rewrite decide_True by lia. rewrite Nat2Z.id, setitem_lt by done.
  reflexivity.
Qed.

Lemma legal_move_invariant_witness :
  ∃ m out,
    choose_ai_move empty_board "easy" half_then_first
      = Ok (Z.of_nat m, empty_board, out)
    ∧ m ∈ available_moves empty_board
    ∧ ai_turn empty_board "easy" half_then_first
        = Ok (<[m := AI]> empty_board, out).
Proof.
  destruct (legal_move_invariant empty_board "easy" half_then_first)
    as (m & out & H1 & H2 & _ & _ & H3).
  - reflexivity.
  - vm_compute. discriminate.
  - split; [split; [discriminate|reflexivity]|]. intros n Hn. exact Hn.
  - exists m, out. exact (conj H1 (conj H2 H3)).
Defined.

(** * Further properties *)

(** ** Folding scores with [max] and [min] *)

Lemma foldl_max_le (l : list Z) (init : Z) :
  init ≤ foldl Z.max init l ∧ ∀ x, x ∈ l → x ≤ foldl Z.max init l.
Proof.
  revert init. induction l as [|y l IH]; intros init; simpl.
  - split; [lia|]. by intros x ?%elem_of_nil.
  - destruct (IH (init `max` y)) as [Hinit Hall]. split; [lia|].
    intros x [->|Hx]%elem_of_cons; [lia|by apply Hall].
Qed.

Lemma foldl_max_elem (l : list Z) (init : Z) :
  foldl Z.max init l = init ∨ foldl Z.max init l ∈ l.
Proof.
  revert init. induction l as [|y l IH]; intros init; simpl; [by left|].
  destruct (IH (init `max` y)) as [Heq|Hin].
  - rewrite Heq. destruct (Z.max_spec init y) as [[_ ->]|[_ ->]];
      [right; by left|by left].
  - right. by right.
Qed.

Lemma foldl_min_le (l : list Z) (init : Z) :
  foldl Z.min init l ≤ init ∧ ∀ x, x ∈ l → foldl Z.min init l ≤ x.
Proof.
  revert init. induction l as [|y l IH]; intros init; simpl.
  - split; [lia|]. by intros x ?%elem_of_nil.
  - destruct (IH (init `min` y)) as [Hinit Hall]. split; [lia|].
    intros x [->|Hx]%elem_of_cons; [lia|by apply Hall].
Qed.

Lemma foldl_min_elem (l : list Z) (init : Z) :
  foldl Z.min init l = init ∨ foldl Z.min init l ∈ l.
Proof.
  revert init. induction l as [|y l IH]; intros init; simpl; [by left|].
  destruct (IH (init `min` y)) as [Heq|Hin].
  - rewrite Heq. destruct (Z.min_spec init y) as [[_ ->]|[_ ->]];
      [by left|right; by left].
  - right. by right.
Qed.

(** ** The value of a position *)

Lemma value_sound (b : board) (t : cell) :
  (9 ≤ length b)%nat → reference_score b t (value b t) ∧ in_range (value b t).
Proof.
  intros Hlen.
  destruct (minimax_sound b t ∅ Hlen) as (s & memo & _ & [Hs Hr] & _).
  - intros b' t' v H. discriminate H.
  - by rewrite (reference_score_value b t s Hs).
Qed.

Lemma scores_value (b : board) (t : cell) :
  (9 ≤ length b)%nat → scores b t (value b t).
Proof.
  intros Hlen. destruct (minimax_value b t ∅ Hlen) as (memo & H & _).
  - intros b' t' v H. discriminate H.
  - by exists memo.
Qed.

Lemma scores_unique (b : board) (t : cell) (s : Z) :
  (9 ≤ length b)%nat → scores b t s → s = value b t.
Proof.
  intros Hlen [memo H]. destruct (scores_value b t Hlen) as [memo' H'].
  congruence.
Qed.

Lemma value_terminal (b : board) (t : cell) :
  (9 ≤ length b)%nat →
  (winner_of b = Some AI → value b t = 1)
  ∧ (winner_of b = Some HUMAN → value b t = -1)
  ∧ (winner_of b = None → available_moves b = [] → value b t = 0).
Proof.
  intros Hlen. repeat split; intros; apply reference_score_value,
    reference_score_terminal; auto.
Qed.

Lemma value_node (b : board) (t : cell) :
  (9 ≤ length b)%nat → winner_of b = None → available_moves b ≠ [] →
  value b t = foldl (pick_of t) (worst t)
                    ((λ m, value (child b t m) (opponent t))
                       <$> available_moves b).
Proof.
  intros Hlen Hw Hne. apply reference_score_value, reference_score_node;
    try done.
  apply Forall2_fmap_r, Forall_Forall2_diag, Forall_forall. intros m _.
  apply value_sound. unfold child. by rewrite length_insert.
Qed.

Lemma value_node_AI (b : board) :
  (9 ≤ length b)%nat → winner_of b = None → available_moves b ≠ [] →
  (∀ m, m ∈ available_moves b → value (child b AI m) HUMAN ≤ value b AI)
  ∧ ∃ m, m ∈ available_moves b ∧ value (child b AI m) HUMAN = value b AI.
Proof.
  intros Hlen Hw Hne. rewrite (value_node b AI Hlen Hw Hne).
  unfold pick_of, worst, opponent. simpl.
  set (l := (λ m, value (child b AI m) HUMAN) <$> available_moves b).
  destruct (foldl_max_le l (-10)) as [_ Hall]. split.
  - intros m Hm. apply Hall. apply list_elem_of_fmap. by exists m.
  - destruct (foldl_max_elem l (-10)) as [Heq|Hin].
    + exfalso. destruct (available_moves b) as [|m ms] eqn:Hmoves; [done|].
      specialize (Hall (value (child b AI m) HUMAN)).
      destruct (value_sound (child b AI m) HUMAN) as [_ Hr].
      { unfold child. by rewrite length_insert. }
      unfold in_range in Hr. rewrite Heq in Hall.
      assert (value (child b AI m) HUMAN ≤ -10); [|lia].
      apply Hall. subst l. simpl. by left.
    + apply list_elem_of_fmap in Hin as (m & Heq & Hm). by exists m.
Qed.

Lemma value_node_HUMAN (b : board) (t : cell) :
  t ≠ AI →
  (9 ≤ length b)%nat → winner_of b = None → available_moves b ≠ [] →
  (∀ m, m ∈ available_moves b → value b t ≤ value (child b t m) AI)
  ∧ ∃ m, m ∈ available_moves b ∧ value (child b t m) AI = value b t.
Proof.
  intros Ht Hlen Hw Hne. rewrite (value_node b t Hlen Hw Hne).
  unfold pick_of, worst, opponent. rewrite !decide_False by done.
  set (l := (λ m, value (child b t m) AI) <$> available_moves b).
  destruct (foldl_min_le l 10) as [_ Hall]. split.
  - intros m Hm. apply Hall. apply list_elem_of_fmap. by exists m.
  - destruct (foldl_min_elem l 10) as [Heq|Hin].
    + exfalso. destruct (available_moves b) as [|m ms] eqn:Hmoves; [done|].
      specialize (Hall (value (child b t m) AI)).
      destruct (value_sound (child b t m) AI) as [_ Hr].
      { unfold child. by rewrite length_insert. }
      unfold in_range in Hr. rewrite Heq in Hall.
      assert (10 ≤ value (child b t m) AI); [|lia].
      apply Hall. subst l. simpl. by left.
    + apply list_elem_of_fmap in Hin as (m & Heq & Hm). by exists m.
Qed.

(** X1. The score [minimax] returns with a fresh memo table obeys the
    minimax recurrence: at a nine-cell position without winner and with an
    empty cell, the score with AI to move is the greatest of the scores of
    the positions AI can move to (with HUMAN to move there), and the score
    with HUMAN to move is the least of the scores of the positions HUMAN can
    move to (with AI to move there); the bound is attained by some move. *)
Theorem minimax_recurrence (b : board) (turn : cell) :
  length b = 9%nat → winner b = Ok None → available_moves b ≠ [] →
  ∃ s,
    scores b turn s
    ∧ (∀ m, m ∈ available_moves b →
         ∃ s', scores (child b turn m) (opponent turn) s'
               ∧ if decide (turn = AI) then s' ≤ s else s ≤ s')
    ∧ ∃ m, m ∈ available_moves b ∧ scores (child b turn m) (opponent turn) s.
Proof.
  intros Hlen Hw Hne. assert (9 ≤ length b)%nat as Hwide by lia.
  rewrite winner_wide in Hw by done. injection Hw as Hw.
  assert (∀ m, (9 ≤ length (child b turn m))%nat) as Hchild
    by (intros m; unfold child; rewrite length_insert; lia).
  exists (value b turn). split; [by apply scores_value|].
  destruct (decide (turn = AI)) as [->|Ht].
  - destruct (value_node_AI b Hwide Hw Hne) as [Hall (m & Hm & Heq)]. split.
    + intros m' Hm'. exists (value (child b AI m') HUMAN).
      split; [by apply scores_value|by apply Hall].
    + exists m. split; [done|]. rewrite <-Heq. by apply scores_value.
  - destruct (value_node_HUMAN b turn Ht Hwide Hw Hne) as [Hall (m & Hm & Heq)].
    unfold opponent. rewrite decide_False by done. split.
    + intros m' Hm'. exists (value (child b turn m') AI).
      split; [by apply scores_value|by apply Hall].
    + exists m. split; [done|]. rewrite <-Heq. by apply scores_value.
Qed.

Lemma minimax_recurrence_witness :
  ∃ s,
    scores blocking_position AI s
    ∧ ∃ m, m ∈ available_moves blocking_position
           ∧ scores (child blocking_position AI m) (opponent AI) s.
Proof.
  destruct (minimax_recurrence blocking_position AI) as (s & H1 & _ & H3).
  - reflexivity.
  - vm_compute. reflexivity.
  - vm_compute. discriminate.
  - exists s. exact (conj H1 H3).
Defined.

(** X2. An immediate win decides the score: at a nine-cell position without
    winner, if [winning_moves] finds a move for the side to move, [minimax]
    with a fresh memo table returns +1 when AI is to move and -1 when HUMAN
    is to move. *)
Theorem minimax_immediate_win (b : board) (turn : cell) (wins : list nat) :
  length b = 9%nat → turn = AI ∨ turn = HUMAN → winner b = Ok None →
  winning_moves b turn = Ok (wins, b) → wins ≠ [] →
  scores b turn (if decide (turn = AI) then 1 else -1).
Proof.
  intros Hlen Hturn Hw Hwins Hne. assert (9 ≤ length b)%nat as Hwide by lia.
  rewrite winner_wide in Hw by done. injection Hw as Hw.
  rewrite winning_moves_spec in Hwins by done. injection Hwins as <-.
  destruct (wins_for b turn) as [|m ms] eqn:Hfor; [done|].
  assert (m ∈ wins_for b turn) as [Hbm Hwin]%elem_of_wins_for
    by (rewrite Hfor; by left).
  assert (m ∈ available_moves b) as Hm by (by apply elem_of_available_moves).
  assert (available_moves b ≠ []) as Hmoves
    by (intros Hnil; rewrite Hnil in Hm; by apply elem_of_nil in Hm).
  assert (9 ≤ length (<[m := turn]> b))%nat as Hc by (by rewrite length_insert).
  destruct (value_sound b turn Hwide) as [_ Hr]. unfold in_range in Hr.
  assert (value b turn = if decide (turn = AI) then 1 else -1) as <-;
    [|by apply scores_value].
  destruct Hturn as [->| ->]; simpl.
  - destruct (value_node_AI b Hwide Hw Hmoves) as [Hall _].
    specialize (Hall m Hm). unfold child, mover in Hall. simpl in Hall.
    destruct (value_terminal (<[m := AI]> b) HUMAN Hc) as [H1 _].
    rewrite (H1 Hwin) in Hall. lia.
  - destruct (value_node_HUMAN b HUMAN ltac:(done) Hwide Hw Hmoves) as [Hall _].
    specialize (Hall m Hm). unfold child, mover in Hall. simpl in Hall.
    destruct (value_terminal (<[m := HUMAN]> b) AI Hc) as (_ & H2 & _).
    rewrite (H2 Hwin) in Hall. lia.
Qed.

Lemma minimax_immediate_win_witness : scores winning_position HUMAN (-1).
Proof.
  apply (minimax_immediate_win winning_position HUMAN [5%nat]).
  - reflexivity.
  - right. reflexivity.
  - vm_compute. reflexivity.
  - vm_compute. reflexivity.
  - discriminate.
Defined.

(** ** The memo table only grows *)

Lemma minimax_loop_grows
    (rec : board → memo_table → result (Z * board * memo_table))
    (mark : cell) (pick : Z → Z → Z) :
  (∀ b memo s b' memo', rec b memo = Ok (s, b', memo') → memo ⊆ memo') →
  ∀ moves best b memo best' b' memo',
    minimax_loop rec mark pick moves best b memo = Ok (best', b', memo') →
    memo ⊆ memo'.
Proof.
  intros Hrec. induction moves as [|m moves IH];
    intros best b memo best' b' memo'; simpl.
  - by intros [= _ _ ->].
  - intros (b1 & _ & Hrest)%bind_Ok.
    apply bind_Ok in Hrest as ([[score b2] memo2] & Hcall & Hrest).
    apply bind_Ok in Hrest as (b3 & _ & Hrest).
    transitivity memo2; [by eapply Hrec|by eapply IH].
Qed.

Lemma minimax_fuel_grows (fuel : nat) :
  ∀ b t memo s b' memo',
    minimax_fuel fuel b t memo = Ok (s, b', memo') → memo ⊆ memo'.
Proof.
  induction fuel as [|fuel IH]; intros b t memo s b' memo'; [done|]. simpl.
  destruct (winner b) as [w| |]; simpl; try done.
  case_decide; [by intros [= _ _ ->]|]. case_decide; [by intros [= _ _ ->]|].
  destruct (is_draw b) as [[|]| |]; simpl; try done; [by intros [= _ _ ->]|].
  destruct (memo !! board_key b t) eqn:Hkey; [by intros [= _ _ ->]|].
  case_decide;
    intros ([[best b1] memo1] & Hloop & [= _ _ <-])%bind_Ok;
    apply insert_subseteq_r; try done;
    eapply minimax_loop_grows; try exact Hloop;
    intros b0 memo0 s0 b0' memo0'; apply IH.
Qed.

(** X3. [minimax] never removes or changes an entry of the memo table it is
    given: on a nine-cell board every entry of the table passed in is found,
    with the same score, in the table it leaves behind. *)
Theorem minimax_keeps_entries (b : board) (turn : cell) (memo : memo_table) :
  length b = 9%nat →
  ∃ s memo',
    minimax b turn memo = Ok (s, b, memo')
    ∧ memo ⊆ memo'
    ∧ ∀ key v, memo !! key = Some v → memo' !! key = Some v.
Proof.
  intros Hlen.
  destruct (minimax_frame b turn memo) as (s & memo' & Hrun); [lia|].
  pose proof (minimax_fuel_grows _ _ _ _ _ _ _ Hrun) as Hsub.
  exists s, memo'. split; [done|]. split; [done|].
  intros key v Hkey. by eapply lookup_weaken.
Qed.

Lemma minimax_keeps_entries_witness :
  ∃ s memo',
    minimax blocking_position AI {[ "junk"%string := 7 ]}
      = Ok (s, blocking_position, memo')
    ∧ memo' !! "junk"%string = Some 7.
Proof.
  destruct (minimax_keeps_entries blocking_position AI {[ "junk"%string := 7 ]})
    as (s & memo' & H1 & _ & H3); [reflexivity|].
  exists s, memo'. split; [exact H1|]. apply H3. reflexivity.
Defined.

(** ** Threats *)

Lemma completed_insert_ne (b : board) (m : nat) (l : nat * nat * nat)
    (x y : cell) :
  x ≠ y → completed (<[m := y]> b) l x → completed b l x.
Proof.
  intros Hx (H1 & H2 & H3 & Hne).
  assert (∀ i, <[m := y]> b !! i = Some x → b !! i = Some x) as Hother.
  { intros i Hi. destruct (decide (m = i)) as [->|Hmi].
    - apply list_lookup_insert_Some in Hi as [(_ & <- & _)|[? _]]; done.
    - by rewrite list_lookup_insert_ne in Hi. }
  repeat split; auto.
Qed.

Lemma winner_of_elem (b : board) (x : cell) :
  winner_of b = Some x → ∃ l, l ∈ WIN_LINES ∧ completed b l x.
Proof.
  intros (pre & l & post & Heq & Hc & _)%winner_of_Some.
  exists l. split; [|done]. rewrite Heq. apply elem_of_app. right. by left.
Qed.

(** A move of AI that is not a win leaves a position without winner. *)
Lemma no_winner_after (b : board) (m : nat) :
  winner_of b = None → winner_of (<[m := AI]> b) ≠ Some AI →
  winner_of (<[m := AI]> b) = None.
Proof.
  intros Hnone Hnot. destruct (winner_of (<[m := AI]> b)) as [x|] eqn:Hw;
    [|done].
  destruct (decide (x = AI)) as [->|Hx]; [done|]. exfalso.
  apply winner_of_elem in Hw as (l & Hl & Hc).
  apply completed_insert_ne in Hc; [|done].
  by eapply winner_of_None.
Qed.

(** A threat of HUMAN survives every move of AI on another cell that does
    not win the game. *)
Lemma threat_survives (b : board) (m t : nat) :
  winner_of b = None → b !! m = Some EMPTY → m ≠ t →
  winner_of (<[m := AI]> b) = None →
  (t < length b)%nat →
  winner_of (<[t := HUMAN]> b) = Some HUMAN →
  winner_of (<[t := HUMAN]> (<[m := AI]> b)) = Some HUMAN.
Proof.
  intros Hnone Hbm Hmt Hafter Ht Hthreat.
  apply winner_of_elem in Hthreat as (l & Hl & (H1 & H2 & H3 & _)).
  assert (∀ i, <[t := HUMAN]> b !! i = Some HUMAN →
               <[t := HUMAN]> (<[m := AI]> b) !! i = Some HUMAN) as Hkeep.
  { intros i Hi. destruct (decide (t = i)) as [->|Hti].
    - apply list_lookup_insert_eq. by rewrite length_insert.
    - rewrite list_lookup_insert_ne in Hi by done.
      rewrite list_lookup_insert_ne by done.
      rewrite list_lookup_insert_ne; [done|]. intros ->. congruence. }
  assert (completed (<[t := HUMAN]> (<[m := AI]> b)) l HUMAN) as Hc
    by (repeat split; auto).
  destruct (winner_of (<[t := HUMAN]> (<[m := AI]> b))) as [x|] eqn:Hw.
  - destruct (decide (x = HUMAN)) as [->|Hx]; [done|]. exfalso.
    apply winner_of_elem in Hw as (l' & Hl' & Hc').
    apply completed_insert_ne in Hc'; [|done].
    by eapply winner_of_None.
  - exfalso. by eapply winner_of_None.
Qed.

Lemma unblocked_threat_loses (b : board) (m t : nat) :
  (9 ≤ length b)%nat → winner_of b = None →
  b !! m = Some EMPTY → winner_of (<[m := AI]> b) ≠ Some AI →
  t ∈ wins_for b HUMAN → m ≠ t →
  value (<[m := AI]> b) HUMAN = -1.
Proof.
  intros Hlen Hnone Hbm Hnot [Hbt Hthreat]%elem_of_wins_for Hmt.
  pose proof (no_winner_after b m Hnone Hnot) as Hafter.
  assert (t < length b)%nat as Ht by (by eapply lookup_lt_Some).
  pose proof (threat_survives b m t Hnone Hbm Hmt Hafter Ht Hthreat) as Hwin.
  assert (9 ≤ length (<[m := AI]> b))%nat as Hc by (by rewrite length_insert).
  assert (t ∈ available_moves (<[m := AI]> b)) as Havail.
  { apply elem_of_available_moves. by rewrite list_lookup_insert_ne. }
  assert (available_moves (<[m := AI]> b) ≠ []) as Hne
    by (intros Hnil; rewrite Hnil in Havail; by apply elem_of_nil in Havail).
  destruct (value_node_HUMAN (<[m := AI]> b) HUMAN ltac:(done) Hc Hafter Hne)
    as [Hall _].
  specialize (Hall t Havail). unfold child, mover in Hall. simpl in Hall.
  destruct (value_terminal (<[t := HUMAN]> (<[m := AI]> b)) AI) as (_ & H2 & _);
    [by rewrite !length_insert|].
  rewrite (H2 Hwin) in Hall.
  destruct (value_sound (<[m := AI]> b) HUMAN Hc) as [_ Hr].
  unfold in_range in Hr. lia.
Qed.

(** X4. Block or lose: at a nine-cell position without winner where AI has
    no immediate win and HUMAN threatens to win at some cell, every available
    move of AI outside the threatened cells scores -1, and with two
    different threatened cells every move scores -1.  Hence [best_ai_move]
    returns a threatened cell unless every move scores -1. *)
Theorem block_or_lose (b : board) (threats : list nat) :
  length b = 9%nat → winner b = Ok None →
  winning_moves b AI = Ok ([], b) →
  winning_moves b HUMAN = Ok (threats, b) → threats ≠ [] →
  (∀ m, m ∈ available_moves b → m ∉ threats → scores (child b AI m) HUMAN (-1))
  ∧ (∀ t1 t2, t1 ∈ threats → t2 ∈ threats → t1 ≠ t2 →
       ∀ m, m ∈ available_moves b → scores (child b AI m) HUMAN (-1))
  ∧ ∃ move out,
      best_ai_move b = Ok (Z.of_nat move, b, out)
      ∧ move ∈ available_moves b
      ∧ (move ∈ threats
         ∨ ∀ m, m ∈ available_moves b → scores (child b AI m) HUMAN (-1)).
Proof.
  intros Hlen Hw Hnowin Hthreats Hne. assert (9 ≤ length b)%nat as Hwide by lia.
  rewrite winner_wide in Hw by done. injection Hw as Hw.
  rewrite winning_moves_spec in Hthreats by done. injection Hthreats as <-.
  assert (∀ m, m ∈ available_moves b → wins_now b m = false) as Hno
    by (intros m Hm; by apply wins_now_false).
  assert (∀ m t, m ∈ available_moves b → t ∈ wins_for b HUMAN → m ≠ t →
                 value (child b AI m) HUMAN = -1) as Hlose.
  { intros m t Hm Ht Hmt. unfold child, mover. simpl.
    apply (unblocked_threat_loses b m t); try done.
    - by apply elem_of_available_moves.
    - specialize (Hno m Hm). by apply bool_decide_eq_false in Hno. }
  assert (∀ m, (9 ≤ length (child b AI m))%nat) as Hchild
    by (intros m; unfold child; rewrite length_insert; lia).
  assert (∀ m, m ∈ available_moves b → m ∉ wins_for b HUMAN →
               scores (child b AI m) HUMAN (-1)) as Hpart1.
  { intros m Hm Hnotin.
    destruct (wins_for b HUMAN) as [|t ts] eqn:Hfor; [done|].
    rewrite <-(Hlose m t); [by apply scores_value|done| |].
    - by left.
    - intros ->. apply Hnotin. by left. }
  assert (∀ t1 t2, t1 ∈ wins_for b HUMAN → t2 ∈ wins_for b HUMAN → t1 ≠ t2 →
            ∀ m, m ∈ available_moves b → scores (child b AI m) HUMAN (-1))
    as Hpart2.
  { intros t1 t2 Ht1 Ht2 Hdiff m Hm.
    destruct (decide (m = t1)) as [->|Hm1].
    - rewrite <-(Hlose t1 t2); [by apply scores_value|done|done|done].
    - rewrite <-(Hlose m t1); [by apply scores_value|done|done|done]. }
  split; [done|]. split; [done|].
  assert (available_moves b ≠ []) as Hmoves.
  { destruct (wins_for b HUMAN) as [|t ts] eqn:Hfor; [done|].
    assert (t ∈ wins_for b HUMAN) as [Hbt _]%elem_of_wins_for
      by (rewrite Hfor; by left).
    apply elem_of_available_moves in Hbt. intros Hnil. rewrite Hnil in Hbt.
    by apply elem_of_nil in Hbt. }
  rewrite best_ai_move_spec by done.
  destruct (decision_first_max (wins_for b HUMAN) b (available_moves b)
              (-10) (-1) Hno)
    as [_ [[_ Hle]|(pre & mv & post & Heq & Hmove & _ & Hpre & Hpost)]].
  { exfalso. destruct (available_moves b) as [|m ms] eqn:Hm; [done|].
    specialize (Hle m ltac:(by left)).
    pose proof (move_value_in_range b m Hwide) as Hr.
    unfold in_range in Hr. lia. }
  rewrite Hmove. exists mv. eexists. split; [done|].
  assert (mv ∈ available_moves b) as Hmv
    by (rewrite Heq; apply elem_of_app; right; by left).
  split; [done|].
  destruct (decide (mv ∈ wins_for b HUMAN)) as [Hin|Hnotin]; [by left|].
  right. intros m Hm.
  assert (value (child b AI mv) HUMAN = -1) as Hmvl.
  { destruct (Hpart1 mv Hmv Hnotin) as [memo Hrun].
    symmetry. apply scores_unique; [done|by exists memo]. }
  assert (value (child b AI m) HUMAN ≤ -1) as Hle.
  { unfold child, mover in *. simpl in *. unfold move_value in *.
    rewrite Heq in Hm.
    apply elem_of_app in Hm as [Hin|[->|Hin]%elem_of_cons].
    - specialize (Hpre m Hin). lia.
    - lia.
    - specialize (Hpost m Hin). lia. }
  destruct (value_sound (child b AI m) HUMAN (Hchild m)) as [_ Hr].
  unfold in_range in Hr.
  assert (value (child b AI m) HUMAN = -1) as <- by lia.
  by apply scores_value.
Qed.

Lemma block_or_lose_witness :
  ∃ move out,
    best_ai_move blocking_position = Ok (Z.of_nat move, blocking_position, out)
    ∧ move ∈ available_moves blocking_position
    ∧ (move ∈ [2%nat]
       ∨ ∀ m, m ∈ available_moves blocking_position →
              scores (child blocking_position AI m) HUMAN (-1)).
Proof.
  destruct (block_or_lose blocking_position [2%nat]) as (_ & _ & H).
  - reflexivity.
  - vm_compute. reflexivity.
  - vm_compute. reflexivity.
  - vm_compute. reflexivity.
  - discriminate.
  - exact H.
Defined.

(** ** The board model on lists of any length *)

Lemma length_avail_from_filter (i : nat) (b : board) :
  length (avail_from i b) = length (filter (λ x, x = EMPTY) b).
Proof.
  revert i. induction b as [|x b IH]; intros i; [done|].
  rewrite avail_from_cons, filter_cons. case_decide; simpl; by rewrite IH.
Qed.

(** X5. [available_moves] returns exactly the indices of the cells that
    hold [EMPTY], each once and in strictly ascending order, for a list of
    any length; there are as many of them as [EMPTY] cells, and every one is
    a valid index. *)
Theorem available_moves_exact (b : board) :
  (∀ m, m ∈ available_moves b ↔ b !! m = Some EMPTY)
  ∧ StronglySorted lt (available_moves b)
  ∧ NoDup (available_moves b)
  ∧ length (available_moves b) = length (filter (λ x, x = EMPTY) b)
  ∧ ∀ m, m ∈ available_moves b → (m < length b)%nat.
Proof.
  split; [apply elem_of_available_moves|].
  split; [apply available_moves_sorted|].
  split; [apply available_moves_NoDup|].
  split; [apply (length_avail_from_filter 0)|apply available_moves_lt].
Qed.

Lemma StronglySorted_filter_lt (P : nat → Prop) `{!∀ x, Decision (P x)}
    (l : list nat) :
  StronglySorted lt l → StronglySorted lt (filter P l).
Proof.
  induction 1 as [|x l Hs IH Hall]; [constructor|].
  rewrite filter_cons. case_decide; [|done].
  constructor; [done|]. apply Forall_forall.
  intros y [_ Hy]%list_elem_of_filter. by eapply Forall_forall in Hall.
Qed.

(** X6. On a nine-cell board [winning_moves] returns, in ascending order,
    exactly the empty cells on which the mark of [player] makes [winner]
    report [player]; every one of them is an available move, the board comes
    back unchanged, and for the [EMPTY] mark the list is empty. *)
Theorem winning_moves_exact (b : board) (player : cell) :
  length b = 9%nat →
  ∃ wins,
    winning_moves b player = Ok (wins, b)
    ∧ (∀ m, m ∈ wins ↔
            b !! m = Some EMPTY
            ∧ winner (<[m := player]> b) = Ok (Some player))
    ∧ StronglySorted lt wins
    ∧ wins ⊆ available_moves b
    ∧ (player = EMPTY → wins = []).
Proof.
  intros Hlen. assert (9 ≤ length b)%nat as Hwide by lia.
  exists (wins_for b player). split; [by apply winning_moves_spec|].
  assert (∀ m, m ∈ wins_for b player ↔
               b !! m = Some EMPTY
               ∧ winner (<[m := player]> b) = Ok (Some player)) as Hmem.
  { intros m. rewrite elem_of_wins_for.
    rewrite winner_wide by (by rewrite length_insert).
    split; intros [? Hw]; split; try done; congruence. }
  split; [done|]. split.
  { apply StronglySorted_filter_lt, available_moves_sorted. }
  split.
  { intros m [Hm _]%Hmem. by apply elem_of_available_moves. }
  intros ->. apply elem_of_nil_inv. intros m [_ Hw]%elem_of_wins_for.
  by apply winner_of_not_EMPTY in Hw.
Qed.

Lemma winning_moves_exact_witness :
  ∃ wins,
    winning_moves decided_position HUMAN = Ok (wins, decided_position)
    ∧ StronglySorted lt wins
    ∧ wins ⊆ available_moves decided_position.
Proof.
  destruct (winning_moves_exact decided_position HUMAN)
    as (wins & H1 & _ & H3 & H4 & _); [reflexivity|].
  exists wins. exact (conj H1 (conj H3 H4)).
Defined.

Lemma line_complete_Ok (b : board) (l : nat * nat * nat) (r : bool) :
  line_complete b l = Ok r → r = line_full b l.
Proof.
  destruct l as [[a c] d]. unfold line_complete, line_full, getitem. simpl.
  destruct (b !! a) as [x|]; [simpl|done].
  case_decide as Hx.
  - destruct (b !! c) as [y|]; [simpl|done]. case_decide as Hxy.
    + destruct (b !! d) as [z|]; [simpl|done]. intros [= <-].
      apply bool_decide_ext. tauto.
    + intros [= <-]. destruct (b !! d); [|done].
      symmetry. apply bool_decide_eq_false. tauto.
  - intros [= <-]. destruct (b !! c), (b !! d); try done.
    symmetry. apply bool_decide_eq_false. tauto.
Qed.

Lemma winner_in_Ok (lines : list (nat * nat * nat)) (b : board)
    (w : option cell) :
  winner_in lines b = Ok w → w = (l ← find (line_full b) lines; b !! l.1.1).
Proof.
  induction lines as [|l lines IH]; simpl; [by intros [= <-]|].
  intros (full & Hfull & Hrest)%bind_Ok.
  apply line_complete_Ok in Hfull as ->.
  destruct (line_full b l); [|by apply IH].
  apply bind_Ok in Hrest as (x & Hx%getitem_Ok & [= <-]). simpl. by rewrite Hx.
Qed.

Lemma line_complete_app (b extra : board) (l : nat * nat * nat) (r : bool) :
  line_complete b l = Ok r → line_complete (b ++ extra) l = Ok r.
Proof.
  destruct l as [[a c] d]. unfold line_complete, getitem. simpl.
  destruct (b !! a) as [x|] eqn:Ha; [simpl|done].
  rewrite (lookup_app_l_Some _ _ _ _ Ha). simpl.
  case_decide; [|done].
  destruct (b !! c) as [y|] eqn:Hc; [simpl|done].
  rewrite (lookup_app_l_Some _ _ _ _ Hc). simpl.
  case_decide; [|done].
  destruct (b !! d) as [z|] eqn:Hd; [simpl|done].
  by rewrite (lookup_app_l_Some _ _ _ _ Hd).
Qed.

Lemma winner_in_app (lines : list (nat * nat * nat)) (b extra : board)
    (w : option cell) :
  winner_in lines b = Ok w → winner_in lines (b ++ extra) = Ok w.
Proof.
  induction lines as [|l lines IH]; simpl; [done|].
  intros (full & Hfull & Hrest)%bind_Ok.
  rewrite (line_complete_app _ extra _ _ Hfull). simpl.
  destruct full; [|by apply IH].
  apply bind_Ok in Hrest as (x & Hx%getitem_Ok & [= <-]).
  unfold getitem. by rewrite (lookup_app_l_Some _ _ _ _ Hx).
Qed.

(** X7. What [winner] returns, on a list of any length: a mark it returns
    is HUMAN or AI, never [EMPTY], and occupies a completed line, the first
    one in the order of [WIN_LINES]; when it returns [None] no line of
    [WIN_LINES] is completed. *)
Theorem winner_result (b : board) (w : option cell) :
  winner b = Ok w →
  match w with
  | Some x =>
      (x = HUMAN ∨ x = AI)
      ∧ ∃ pre l post,
          WIN_LINES = pre ++ l :: post ∧ completed b l x
          ∧ ∀ l', l' ∈ pre → ¬ ∃ y, completed b l' y
  | None => ∀ l x, l ∈ WIN_LINES → ¬ completed b l x
  end.
Proof.
  intros Hw%winner_in_Ok. fold (winner_of b) in Hw. symmetry in Hw.
  destruct w as [x|].
  - split.
    + destruct x; auto. by apply winner_of_not_EMPTY in Hw.
    + by apply winner_of_Some.
  - by apply winner_of_None.
Qed.

Lemma winner_result_witness :
  (AI = HUMAN ∨ AI = AI)
  ∧ ∃ pre l post,
      WIN_LINES = pre ++ l :: post
      ∧ completed [HUMAN; AI; EMPTY; EMPTY; AI; HUMAN; EMPTY; AI; EMPTY] l AI
      ∧ ∀ l', l' ∈ pre →
          ¬ ∃ y, completed [HUMAN; AI; EMPTY; EMPTY; AI; HUMAN; EMPTY; AI; EMPTY]
                           l' y.
Proof.
  apply (winner_result [HUMAN; AI; EMPTY; EMPTY; AI; HUMAN; EMPTY; AI; EMPTY]
                       (Some AI)).
  vm_compute. reflexivity.
Defined.

(** X8. [winner] reads the cells 0 to 8 only: on a list of at least nine
    cells it returns, and the result is that of the first nine cells; a
    result, once obtained, does not change when cells are appended; it
    raises nothing but [IndexError], and only on a list of fewer than nine
    cells, the empty list among them. *)
Theorem winner_bounds :
  (∀ b : board, (9 ≤ length b)%nat →
        ∃ w, winner b = Ok w ∧ winner (take 9 b) = Ok w)
  ∧ (∀ (b extra : board) w, winner b = Ok w → winner (b ++ extra) = Ok w)
  ∧ (∀ (b : board) e, winner b = Raise e →
        e = IndexError ∧ (length b < 9)%nat)
  ∧ (∀ b : board, winner b ≠ OutOfFuel)
  ∧ winner [] = Raise IndexError.
Proof.
  assert (∀ b : board, (9 ≤ length b)%nat → ∃ w, winner b = Ok w) as Hwide
    by (intros b Hb; eexists; by apply winner_wide).
  split; [|split; [|split; [|split]]].
  - intros b Hlen.
    destruct (Hwide (take 9 b)) as [w Hw]; [rewrite length_take; lia|].
    exists w. split; [|done].
    rewrite <-(take_drop 9 b). by apply winner_in_app.
  - intros b extra w. apply winner_in_app.
  - intros b [] Hraise. split; [done|].
    destruct (decide (9 ≤ length b)%nat) as [Hlen|]; [|lia].
    destruct (Hwide b Hlen) as [w Hw]. congruence.
  - intros b Hout.
    destruct (decide (9 ≤ length b)%nat) as [Hlen|Hshort].
    + destruct (Hwide b Hlen) as [w Hw]. congruence.
    + revert Hout. unfold winner. generalize WIN_LINES.
      induction l as [|[[a c] d] lines IH]; simpl; [done|].
      unfold line_complete, getitem. simpl.
      destruct (b !! a); simpl; [|done].
      case_decide; simpl; [|done].
      destruct (b !! c); simpl; [|done].
      case_decide; simpl; [|done].
      destruct (b !! d); simpl; [|done].
      case_bool_decide; simpl; [done|done].
  - reflexivity.
Qed.

(** X9. [choose_ai_move] on a board without an empty cell: [best_ai_move]
    runs its loop zero times and returns the initial -1; at "hard", or when
    the draw is below the perfect-play probability, [choose_ai_move] returns
    that -1; otherwise [random.choice] is handed an empty list and raises
    [IndexError].  The game loop's [b[move] = AI] with -1 would overwrite the
    last cell. *)
Theorem choose_ai_move_full_board (b : board) (difficulty : string)
    (rnd : random_source) :
  length b = 9%nat → available_moves b = [] →
  best_ai_move b = Ok (-1, b, [Thinking; Chosen (-1)])
  ∧ (difficulty = "hard"%string →
     choose_ai_move b difficulty rnd = Ok (-1, b, [Thinking; Chosen (-1)])
     ∧ ai_turn b difficulty rnd
       = Ok (<[8%nat := AI]> b, [Thinking; Chosen (-1)]))
  ∧ (difficulty ≠ "hard"%string →
     (rnd_random rnd < p_best difficulty)%Q →
     choose_ai_move b difficulty rnd
       = Ok (-1, b, [Thinking; Chosen (-1); ChoosesBest difficulty]))
  ∧ (difficulty ≠ "hard"%string →
     ¬ (rnd_random rnd < p_best difficulty)%Q →
     choose_ai_move b difficulty rnd = Raise IndexError
     ∧ ai_turn b difficulty rnd = Raise IndexError).
Proof.
  intros Hlen Hfull. assert (9 ≤ length b)%nat as Hwide by lia.
  assert (best_ai_move b = Ok (-1, b, [Thinking; Chosen (-1)])) as Hbest.
  { rewrite best_ai_move_spec by done. unfold wins_for. by rewrite Hfull. }
  pose proof (choose_ai_move_unfold b difficulty rnd _ _ Hbest) as Hrun.
  unfold other_moves in Hrun. rewrite Hfull in Hrun. simpl in Hrun.
  split; [done|]. split; [|split].
  - intros Hhard. rewrite decide_True in Hrun by done. split; [done|].
    unfold ai_turn. rewrite Hrun. simpl. unfold setitem_int. simpl.
    rewrite Hlen. simpl. unfold setitem. rewrite decide_True by lia. done.
  - intros Hhard Hlt. rewrite decide_False in Hrun by done.
    destruct (Qlt_le_dec _ _) as [_|Hge]; [done|].
    exfalso. by eapply Qle_not_lt.
  - intros Hhard Hge. rewrite decide_False in Hrun by done.
    destruct (Qlt_le_dec _ _) as [Hlt|_]; [done|].
    split; [done|]. unfold ai_turn. by rewrite Hrun.
Qed.

Lemma choose_ai_move_full_board_witness :
  choose_ai_move [AI; HUMAN; AI; AI; HUMAN; HUMAN; HUMAN; AI; AI] "easy"
                 half_then_first
    = Raise IndexError.
Proof.
  destruct (choose_ai_move_full_board
              [AI; HUMAN; AI; AI; HUMAN; HUMAN; HUMAN; AI; AI] "easy"
              half_then_first) as (_ & _ & _ & H).
  - reflexivity.
  - reflexivity.
  - destruct H as [H _]; [discriminate| |exact H].
    vm_compute. intros Hc. discriminate Hc.
Defined.

(** ** [print_board] *)

Lemma str_cell_number (i : nat) :
  (i < 9)%nat → str (Z.of_nat i + 1) = String (ascii_of_nat (49 + i)) "".
Proof.
  intros Hi. do 9 (destruct i as [|i]; [vm_compute; reflexivity|]). lia.
Qed.

Lemma cell_text_shown (b : board) (i : nat) :
  (i < 9)%nat → (i < length b)%nat →
  cell_text b i = Ok (String (shown b i) "").
Proof.
  intros Hi Hlen. destruct (getitem_lt b i Hlen) as (x & Hx & Hgx).
  unfold cell_text, shown. rewrite Hgx, Hx. simpl.
  destruct x; simpl; [by rewrite str_cell_number|done..].
Qed.

Lemma print_board_layout (b : board) :
  (9 ≤ length b)%nat → print_board b = Ok (layout (shown b)).
Proof.
  intros Hlen. unfold print_board, row_text. simpl.
  rewrite !cell_text_shown by lia. reflexivity.
Qed.

Lemma cell_text_Ok (b : board) (i : nat) (t : string) :
  cell_text b i = Ok t → (i < length b)%nat.
Proof.
  unfold cell_text. intros (x & Hx%getitem_Ok & _)%bind_Ok.
  by eapply lookup_lt_Some.
Qed.

Lemma print_board_Ok (b : board) (t : string) :
  print_board b = Ok t → (9 ≤ length b)%nat.
Proof.
  unfold print_board. intros (r0 & _ & Hrest)%bind_Ok.
  apply bind_Ok in Hrest as (r1 & _ & Hrest).
  apply bind_Ok in Hrest as (r2 & Hr2 & _).
  unfold row_text in Hr2. apply bind_Ok in Hr2 as (c0 & _ & Hrest).
  apply bind_Ok in Hrest as (c1 & _ & Hrest).
  apply bind_Ok in Hrest as (c2 & Hc2%cell_text_Ok & _). simpl in Hc2. lia.
Qed.

Lemma bind_fuel {A B} (r : result A) (f : A → result B) :
  r ≠ OutOfFuel → (∀ x, f x ≠ OutOfFuel) → r ≫= f ≠ OutOfFuel.
Proof. destruct r; simpl; auto. Qed.

Lemma cell_text_fuel (b : board) (i : nat) : cell_text b i ≠ OutOfFuel.
Proof.
  unfold cell_text, getitem. destruct (b !! i); simpl; [|done].
  case_decide; done.
Qed.

Lemma print_board_fuel (b : board) : print_board b ≠ OutOfFuel.
Proof.
  unfold print_board, row_text.
  repeat (apply bind_fuel; [try apply cell_text_fuel|intros ?]); done.
Qed.

(** X10. [print_board] reads the nine cells 0 to 8: it raises [IndexError]
    exactly on a list of fewer than nine cells.  Otherwise the text has 59
    characters in three rows, and the character of cell [i] is its mark, or
    the number [i + 1] when the cell is empty. *)
Theorem print_board_text (b : board) :
  (print_board b = Raise IndexError ↔ (length b < 9)%nat)
  ∧ ((9 ≤ length b)%nat →
     ∃ text,
       print_board b = Ok text
       ∧ String.length text = 59%nat
       ∧ ∀ i, (i < 9)%nat →
           String.get (shown_at i) text = Some (shown b i)
           ∧ (b !! i = Some EMPTY ↔ shown b i = ascii_of_nat (49 + i))
           ∧ (b !! i = Some HUMAN ↔ shown b i = "O"%char)
           ∧ (b !! i = Some AI ↔ shown b i = "X"%char)).
Proof.
  split.
  - split.
    + intros Hraise. destruct (decide (9 ≤ length b)%nat) as [Hlen|]; [|lia].
      rewrite print_board_layout in Hraise by done. discriminate Hraise.
    + intros Hshort. destruct (print_board b) as [t|[]|] eqn:Hrun; [|done|].
      * apply print_board_Ok in Hrun. lia.
      * by apply print_board_fuel in Hrun.
  - intros Hlen. exists (layout (shown b)).
    split; [by apply print_board_layout|]. split; [reflexivity|].
    intros i Hi. split.
    + do 9 (destruct i as [|i]; [reflexivity|]). lia.
    + destruct (getitem_lt b i) as (x & Hx & _); [lia|].
      unfold shown. rewrite Hx.
      do 9 (destruct i as [|i];
            [destruct x; repeat split; intros H; try done;
             try discriminate H|]).
      lia.
Qed.

Lemma print_board_text_witness :
  ∃ text,
    print_board winning_position = Ok text
    ∧ String.length text = 59%nat
    ∧ String.get (shown_at 2) text = Some "3"%char
    ∧ String.get (shown_at 4) text = Some "O"%char.
Proof.
  destruct (print_board_text winning_position) as [_ H].
  destruct H as (text & H1 & H2 & H3); [vm_compute; lia|].
  exists text. split; [exact H1|]. split; [exact H2|].
  split; [exact (proj1 (H3 2%nat ltac:(lia)))
         |exact (proj1 (H3 4%nat ltac:(lia)))].
Defined.

(** X11. The rendering determines the position: two boards of at least
    nine cells with the same text have the same first nine cells. *)
Theorem print_board_injective (b b' : board) (text : string) :
  print_board b = Ok text → print_board b' = Ok text → take 9 b = take 9 b'.
Proof.
  intros Hb Hb'.
  pose proof (print_board_Ok _ _ Hb) as Hlen.
  pose proof (print_board_Ok _ _ Hb') as Hlen'.
  rewrite print_board_layout in Hb, Hb' by done.
  assert (layout (shown b) = layout (shown b')) as Heq by congruence.
  assert (∀ i, (i < 9)%nat → shown b i = shown b' i) as Hshown.
  { intros i Hi.
    assert (String.get (shown_at i) (layout (shown b))
            = String.get (shown_at i) (layout (shown b'))) as Hget
      by (by rewrite Heq).
    do 9 (destruct i as [|i]; [by injection Hget|]). lia. }
  apply list_eq. intros i. destruct (decide (i < 9)%nat) as [Hi|Hi].
  - rewrite !lookup_take_lt by done. specialize (Hshown i Hi).
    destruct (getitem_lt b i) as (x & Hx & _); [lia|].
    destruct (getitem_lt b' i) as (x' & Hx' & _); [lia|].
    unfold shown in Hshown. rewrite Hx, Hx' in Hshown. rewrite Hx, Hx'.
    f_equal.
    do 9 (destruct i as [|i]; [by destruct x, x'|]). lia.
  - rewrite !lookup_take_ge by lia. done.
Qed.

Lemma print_board_injective_witness :
  take 9 winning_position = take 9 (winning_position ++ [EMPTY]).
Proof.
  apply (print_board_injective winning_position (winning_position ++ [EMPTY])
           (layout (shown winning_position))).
  - vm_compute. reflexivity.
  - vm_compute. reflexivity.
Defined.

(** ** Lines typed at the console *)

Lemma lstrip_chars_app (l k : list ascii) :
  blank l →
  match k with c :: _ => isspace c = false | [] => True end →
  lstrip_chars (l ++ k) = k.
Proof.
  intros Hl Hk. induction Hl as [|c l Hc _ IH]; simpl.
  - destruct k as [|c k]; [done|]. simpl. by rewrite Hk.
  - by rewrite Hc.
Qed.

Lemma lstrip_chars_blank (l : list ascii) : blank l → lstrip_chars l = [].
Proof.
  intros Hl. rewrite <-(app_nil_r l). by apply lstrip_chars_app.
Qed.

Lemma strip_padded (s line : string) :
  padded s line → trimmed s → strip line = s.
Proof.
  intros (l & r & Hl & Hr & Hline) [Hhead Hlast]. unfold strip.
  rewrite Hline.
  destruct (String.list_ascii_of_string s) as [|c cs] eqn:Hs.
  - simpl. rewrite (lstrip_chars_blank (l ++ r)) by (by apply Forall_app).
    rewrite <-(String.string_of_list_ascii_of_string s), Hs. reflexivity.
  - rewrite lstrip_chars_app by done.
    rewrite reverse_app.
    assert (reverse (c :: cs) ≠ []) as Hne.
    { intros Hnil. apply (f_equal length) in Hnil.
      rewrite length_reverse in Hnil. discriminate Hnil. }
    rewrite lstrip_chars_app.
    + rewrite reverse_involutive.
      rewrite <-Hs. apply String.string_of_list_ascii_of_string.
    + by apply Forall_reverse.
    + destruct (reverse (c :: cs)); done.
Qed.

Lemma padded_refl (s : string) : padded s s.
Proof. exists [], []. repeat split; [constructor..|]. by rewrite app_nil_r. Qed.





(** ** [ask_human_move] *)

Lemma ask_human_move_number (b : board) (i : nat) (line : string)
    (rest : list string) (out : list output) :
  (i < 9)%nat → padded (cell_number i) line →
  ask_human_move b (line :: rest) out =
    match b !! i with
    | Some EMPTY => Return (Z.of_nat i) rest (out ++ [ask_prompt])
    | Some _ =>
        ask_human_move b rest
          ((out ++ [ask_prompt]) ++ [Line "That spot is taken."])
    | None => Fail (BoardError IndexError)
    end.
Proof.
  intros Hi Hpad.
  assert (isdigit (cell_number i) = true
          ∧ int_digits (cell_number i) = Some (Z.of_nat i + 1)
          ∧ trimmed (cell_number i)) as (Hdigit & Hint & Htrim).
  { do 9 (destruct i as [|i]; [by vm_compute|]). lia. }
  simpl. rewrite (strip_padded (cell_number i) line Hpad Htrim).
  rewrite Hdigit, Hint. simpl. rewrite decide_False by lia.
  replace (Z.to_nat (Z.of_nat i + 1 - 1)) with i by lia.
  replace (Z.of_nat i + 1 - 1) with (Z.of_nat i) by lia.
  unfold getitem. destruct (b !! i) as [[]|]; reflexivity.
Qed.

Lemma ask_human_move_inv (b : board) (stdin : list string) :
  ∀ (out : list output) (pos : Z) (rest : list string) (out' : list output),
  ask_human_move b stdin out = Return pos rest out' →
  0 ≤ pos ≤ 8
  ∧ b !! Z.to_nat pos = Some EMPTY
  ∧ ∃ pre msgs,
      stdin = pre ++ rest ∧ pre ≠ []
      ∧ out' = out ++ msgs ++ [ask_prompt]
      ∧ length msgs = (2 * (length pre - 1))%nat.
Proof.
  induction stdin as [|line stdin IH]; intros out pos rest out' Hrun;
    [done|].
  assert (∀ msg,
    ask_human_move b stdin ((out ++ [ask_prompt]) ++ [Line msg])
      = Return pos rest out' →
    0 ≤ pos ≤ 8 ∧ b !! Z.to_nat pos = Some EMPTY
    ∧ ∃ pre msgs,
        line :: stdin = pre ++ rest ∧ pre ≠ []
        ∧ out' = out ++ msgs ++ [ask_prompt]
        ∧ length msgs = (2 * (length pre - 1))%nat) as Hnext.
  { intros msg Hrec.
    destruct (IH _ _ _ _ Hrec) as (Hpos & Hcell & pre & msgs & -> & Hne
                                   & -> & Hlen).
    split; [done|]. split; [done|].
    exists (line :: pre), (ask_prompt :: Line msg :: msgs).
    split; [done|]. split; [done|]. split.
    - by rewrite <-!app_assoc.
    - destruct pre; [done|]. simpl in *. lia. }
  simpl in Hrun.
  destruct (isdigit (strip line)); simpl in Hrun; [|by eapply Hnext].
  destruct (int_digits (strip line)) as [n|]; [|done].
  case_decide as Hrange; [by eapply Hnext|].
  destruct (getitem b (Z.to_nat (n - 1))) as [x| |] eqn:Hget; [|done..].
  case_decide as Hx; [by eapply Hnext|].
  injection Hrun as <- <- <-.
  split; [lia|]. split.
  - apply getitem_Ok in Hget. destruct x; done.
  - exists [line], []. by repeat split.
Qed.

(** X12. A position [ask_human_move] returns is one of 0..8 and names an
    empty cell of the board, on any board and for any lines typed: it is
    an element of [available_moves], the assignment [b[move] = HUMAN]
    that follows succeeds and fills one empty cell.  One line was read for
    the position and one for every refusal before it, each refusal wrote
    the prompt and one message, and the last thing written is the prompt. *)
Theorem ask_human_move_legal (b : board) (stdin rest : list string)
    (out out' : list output) (pos : Z) :
  ask_human_move b stdin out = Return pos rest out' →
  0 ≤ pos ≤ 8
  ∧ Z.to_nat pos ∈ available_moves b
  ∧ setitem_int b pos HUMAN = Ok (<[Z.to_nat pos := HUMAN]> b)
  ∧ S (empties (<[Z.to_nat pos := HUMAN]> b)) = empties b
  ∧ ∃ pre msgs,
      stdin = pre ++ rest ∧ pre ≠ []
      ∧ out' = out ++ msgs ++ [ask_prompt]
      ∧ length msgs = (2 * (length pre - 1))%nat.
Proof.
  intros (Hpos & Hcell & Hio)%ask_human_move_inv.
  split; [done|]. split; [by apply elem_of_available_moves|].
  split; [|split; [by apply empties_place|done]].
  unfold setitem_int. case_decide; [|lia].
  apply setitem_lt. by eapply lookup_lt_Some.
Qed.

Lemma ask_human_move_legal_witness :
  0 ≤ 2 ≤ 8 ∧ Z.to_nat 2 ∈ available_moves winning_position.
Proof.
  pose proof (ask_human_move_legal winning_position
                [" 1 "; "x"; "12"; "3 "; "9"]%string ["9"%string] [] _ 2
                eq_refl) as H.
  exact (conj (proj1 H) (proj1 (proj2 H))).
Defined.

Lemma layout_get (c : nat → ascii) (i : nat) :
  (i < 9)%nat → String.get (shown_at i) (layout c) = Some (c i).
Proof. intros Hi. do 9 (destruct i as [|i]; [reflexivity|]). lia. Qed.

Lemma shown_number (b : board) (i : nat) :
  (i < 9)%nat → (i < length b)%nat →
  b !! i = Some EMPTY ↔ shown b i = ascii_of_nat (49 + i).
Proof.
  intros Hi Hlen. destruct (getitem_lt b i Hlen) as (x & Hx & _).
  unfold shown. rewrite Hx.
  do 9 (destruct i as [|i];
        [destruct x; split; intros H; try done; discriminate H|]).
  lia.
Qed.

(** X13. The numbers on the board are the answers [ask_human_move] takes:
    when the text of [print_board] shows the number of cell [i] at the
    place of that cell, typing this number, with any white space around
    it, returns position [i]; when it shows a mark there, the number is
    refused with the message that the spot is taken and the next line is
    read. *)
Theorem ask_human_move_shown_number (b : board) (text : string) (i : nat)
    (line : string) (rest : list string) (out : list output) :
  print_board b = Ok text → (i < 9)%nat → padded (cell_number i) line →
  (String.get (shown_at i) text = Some (ascii_of_nat (49 + i)) →
   ask_human_move b (line :: rest) out
   = Return (Z.of_nat i) rest (out ++ [ask_prompt]))
  ∧ (String.get (shown_at i) text ≠ Some (ascii_of_nat (49 + i)) →
     ask_human_move b (line :: rest) out
     = ask_human_move b rest
         ((out ++ [ask_prompt]) ++ [Line "That spot is taken."])).
Proof.
  intros Htext Hi Hpad. pose proof (print_board_Ok _ _ Htext) as Hlen.
  rewrite print_board_layout in Htext by done. injection Htext as <-.
  rewrite layout_get by done.
  rewrite (ask_human_move_number b i line rest out Hi Hpad).
  pose proof (shown_number b i Hi ltac:(lia)) as Hshown.
  destruct (getitem_lt b i ltac:(lia)) as (x & Hx & _). rewrite Hx in *.
  split.
  - intros [= Hc]. apply Hshown in Hc. by injection Hc as ->.
  - intros Hc. destruct x; [|done..]. destruct Hc. f_equal. by apply Hshown.
Qed.

Lemma ask_human_move_shown_number_witness :
  ask_human_move winning_position [" 3 "; "1"]%string []
  = Return 2 ["1"%string] [ask_prompt].
Proof.
  refine (proj1 (ask_human_move_shown_number winning_position
                   (layout (shown winning_position)) 2 " 3 "
                   ["1"%string] [] _ _ _) _).
  - vm_compute. reflexivity.
  - lia.
  - exists [" "%char], [" "%char].
    split; [by repeat constructor|]. split; [by repeat constructor|].
    reflexivity.
  - vm_compute. reflexivity.
Defined.

(** X14. [str.isdigit] accepts the superscript digits, [int] does not: a
    line that, stripped, consists of digits in the sense of [isdigit] and
    holds one that is not a decimal digit passes the test of
    [ask_human_move] and ends the program with the [ValueError] of
    [int]. *)
Theorem ask_human_move_superscript (b : board) (line : string)
    (rest : list string) (out : list output) :
  String.list_ascii_of_string (strip line) ≠ [] →
  Forall (λ c, isdigit_char c = true)
         (String.list_ascii_of_string (strip line)) →
  Exists (λ c, isdecimal_char c = false)
         (String.list_ascii_of_string (strip line)) →
  ask_human_move b (line :: rest) out = Fail ValueError.
Proof.
  intros Hne Hdigits Hsuper. simpl.
  assert (isdigit (strip line) = true) as ->.
  { unfold isdigit.
    destruct (String.list_ascii_of_string (strip line)) as [|c l] eqn:Hl;
      [done|].
    apply forallb_forall. intros c' Hin. rewrite Forall_forall in Hdigits.
    apply Hdigits. by apply list_elem_of_In. }
  assert (int_digits (strip line) = None) as ->; [|done].
  unfold int_digits.
  destruct (forallb isdecimal_char _) eqn:Hall; [|done].
  rewrite forallb_forall in Hall. apply Exists_exists in Hsuper as (c & Hc & Hno).
  apply list_elem_of_In, Hall in Hc. congruence.
Qed.

Lemma ask_human_move_superscript_witness :
  ask_human_move empty_board [String (ascii_of_nat 178) ""; "5"%string] []
  = Fail ValueError.
Proof.
  apply ask_human_move_superscript.
  - vm_compute. discriminate.
  - vm_compute. by repeat constructor.
  - vm_compute. by repeat constructor.
Defined.

Lemma ask_human_move_outcome (b : board) (stdin : list string)
    (out : list output) :
  (9 ≤ length b)%nat →
  match ask_human_move b stdin out with
  | Return pos rest out' => True
  | Fail e =>
      e = ValueError
      ∨ e = EOFError ∧ ∀ line, line ∈ stdin → ¬ names_empty_cell b line
  | Diverge => False
  end.
Proof.
  intros Hlen. revert out.
  induction stdin as [|line stdin IH]; intros out.
  { simpl. right. split; [done|]. by intros line ?%elem_of_nil. }
  remember (ask_human_move b (line :: stdin) out) as R eqn:HR.
  assert (∀ msg,
    R = ask_human_move b stdin ((out ++ [ask_prompt]) ++ [Line msg]) →
    match R with
    | Return pos rest out' => True
    | Fail e =>
        e = ValueError
        ∨ e = EOFError
          ∧ ∀ l, l ∈ line :: stdin → ¬ names_empty_cell b l
    | Diverge => False
    end) as Hnext.
  { intros msg Heq.
    specialize (IH ((out ++ [ask_prompt]) ++ [Line msg])).
    rewrite <-Heq in IH. destruct R as [| e |]; [done| |done].
    destruct IH as [->|[-> Hrest]]; [by left|]. right. split; [done|].
    intros l Hin. apply elem_of_cons in Hin as [->|Hl]; [|by apply Hrest].
    intros (i & Hi & Hcell & Hpad).
    rewrite (ask_human_move_number b i line stdin out Hi Hpad), Hcell
      in HR.
    discriminate HR. }
  simpl in HR.
  destruct (isdigit (strip line)); simpl in HR; [|by eapply Hnext].
  destruct (int_digits (strip line)) as [n|]; [|subst R; by left].
  case_decide as Hrange; [by eapply Hnext|].
  destruct (getitem_lt b (Z.to_nat (n - 1)) ltac:(lia)) as (x & _ & Hget).
  rewrite Hget in HR.
  case_decide; [by eapply Hnext|by subst R].
Qed.

(** X15. On a board of at least nine cells [ask_human_move] returns a
    position or ends with [EOFError] or [ValueError]: it never reads a
    cell outside the board.  It ends with [EOFError] only when no line
    typed names an empty cell by its number. *)
Theorem ask_human_move_total (b : board) (stdin : list string)
    (out : list output) :
  (9 ≤ length b)%nat →
  match ask_human_move b stdin out with
  | Return pos rest out' => True
  | Fail e =>
      e = ValueError
      ∨ e = EOFError ∧ ∀ line, line ∈ stdin → ¬ names_empty_cell b line
  | Diverge => False
  end.
Proof. apply ask_human_move_outcome. Qed.

Lemma ask_human_move_total_witness :
  match ask_human_move winning_position ["1"; "x"]%string [] with
  | Return pos rest out' => True
  | Fail e =>
      e = ValueError
      ∨ e = EOFError
        ∧ ∀ line, line ∈ ["1"; "x"]%string
                  → ¬ names_empty_cell winning_position line
  | Diverge => False
  end.
Proof.
  apply (ask_human_move_total winning_position ["1"; "x"]%string []).
  vm_compute. lia.
Defined.

(** ** The two menus *)

Lemma choose_starting_player_inv (stdin : list string) :
  ∀ out,
  match choose_starting_player stdin out with
  | Return turn rest out' =>
      (turn = HUMAN ∨ turn = AI)
      ∧ ∃ pre msgs,
          stdin = pre ++ rest ∧ pre ≠ []
          ∧ out' = out ++ msgs ++ [start_prompt]
          ∧ length msgs = (2 * (length pre - 1))%nat
  | Fail e =>
      e = EOFError
      ∧ ∀ line, line ∈ stdin → lower (strip line) ∉ start_words.*1
  | Diverge => False
  end.
Proof.
  induction stdin as [|line stdin IH]; intros out.
  { simpl. split; [done|]. by intros line ?%elem_of_nil. }
  simpl. case_decide as Hh.
  { split; [by left|]. exists [line], []. by repeat split. }
  case_decide as Ha.
  { split; [by right|]. exists [line], []. by repeat split. }
  specialize (IH ((out ++ [start_prompt]) ++ [Line "Please type H or A."])).
  unfold start_prompt in IH.
  destruct (choose_starting_player stdin _) as [turn rest out'|e|];
    [| |done].
  - destruct IH as (Hturn & pre & msgs & -> & Hne & -> & Hlen).
    split; [done|].
    exists (line :: pre),
      (start_prompt :: Line "Please type H or A." :: msgs).
    split; [done|]. split; [done|]. split.
    + by rewrite <-!app_assoc.
    + destruct pre; [done|]. simpl in *. lia.
  - destruct IH as [-> Hrest]. split; [done|].
    intros l [->|Hl]%elem_of_cons; [|by apply Hrest].
    simpl. rewrite !elem_of_cons, elem_of_nil.
    rewrite !elem_of_cons, elem_of_nil in Hh, Ha. tauto.
Qed.

Lemma choose_difficulty_inv (stdin : list string) :
  ∀ out,
  match choose_difficulty stdin out with
  | Return difficulty rest out' =>
      difficulty ∈ ["easy"; "medium"; "hard"]%string
      ∧ ∃ pre msgs,
          stdin = pre ++ rest ∧ pre ≠ []
          ∧ out' = out ++ msgs ++ [difficulty_prompt]
          ∧ length msgs = (2 * (length pre - 1))%nat
  | Fail e =>
      e = EOFError
      ∧ ∀ line, line ∈ stdin → lower (strip line) ∉ difficulty_words.*1
  | Diverge => False
  end.
Proof.
  induction stdin as [|line stdin IH]; intros out.
  { simpl. split; [done|]. by intros line ?%elem_of_nil. }
  simpl. case_decide as He.
  { split; [rewrite !elem_of_cons; auto|]. exists [line], []. by repeat split. }
  case_decide as Hm.
  { split; [rewrite !elem_of_cons; auto|]. exists [line], []. by repeat split. }
  case_decide as Hh.
  { split; [rewrite !elem_of_cons; auto|]. exists [line], []. by repeat split. }
  specialize (IH ((out ++ [difficulty_prompt])
                    ++ [Line "Please type E, M, or H."])).
  unfold difficulty_prompt in IH.
  destruct (choose_difficulty stdin _) as [d rest out'|e|]; [| |done].
  - destruct IH as (Hd & pre & msgs & -> & Hne & -> & Hlen).
    split; [done|].
    exists (line :: pre),
      (difficulty_prompt :: Line "Please type E, M, or H." :: msgs).
    split; [done|]. split; [done|]. split.
    + by rewrite <-!app_assoc.
    + destruct pre; [done|]. simpl in *. lia.
  - destruct IH as [-> Hrest]. split; [done|].
    intros l [->|Hl]%elem_of_cons; [|by apply Hrest].
    simpl. rewrite !elem_of_cons, elem_of_nil.
    rewrite !elem_of_cons, elem_of_nil in He, Hm, Hh. tauto.
Qed.



(** ** The loop of [main] *)

Lemma overb_over (b : board) : overb b = true ↔ over b.
Proof.
  unfold overb, over.
  rewrite orb_true_iff, bool_decide_eq_true, forallb_marked,
    available_moves_nil.
  done.
Qed.

Lemma show_and_judge_wide (b : board) (out : list output) :
  (9 ≤ length b)%nat →
  let shown_out := out ++ [Line ""%string; Line (layout (shown b))] in
  show_and_judge b out =
    Ok (if overb b then Some (shown_out ++ [result_line b]) else None,
        shown_out).
Proof.
  intros Hlen. unfold show_and_judge, overb, result_line.
  rewrite print_board_layout, winner_wide, is_draw_wide by done. simpl.
  destruct (winner_of b) as [w|]; simpl.
  - repeat case_decide; simplify_eq; done.
  - by destruct (forallb _ b).
Qed.

Lemma extends_refl (b : board) : extends b b.
Proof. by split. Qed.

Lemma extends_trans (b1 b2 b3 : board) :
  extends b1 b2 → extends b2 b3 → extends b1 b3.
Proof.
  intros [Hl1 H1] [Hl2 H2]. split; [congruence|].
  intros i x Hx Hne. apply H2; [|done]. by apply H1.
Qed.

Lemma extends_place (b : board) (m : nat) (x : cell) :
  b !! m = Some EMPTY → extends b (<[m := x]> b).
Proof.
  intros Hm. split; [by rewrite length_insert|].
  intros i y Hy Hne. destruct (decide (i = m)) as [->|Hi].
  - congruence.
  - by rewrite list_lookup_insert_ne.
Qed.

Lemma setitem_int_place (b : board) (m : nat) (x : cell) :
  (m < length b)%nat → setitem_int b (Z.of_nat m) x = Ok (<[m := x]> b).
Proof.
  intros Hm. unfold setitem_int. case_decide; [|lia].
  rewrite Nat2Z.id. by apply setitem_lt.
Qed.

Lemma setitem_int_length (b b' : board) (i : Z) (x : cell) :
  setitem_int b i x = Ok b' → length b' = length b.
Proof.
  unfold setitem_int. repeat case_decide; [| |done];
    intros [_ ->]%setitem_Ok; by rewrite length_insert.
Qed.

Lemma choose_ai_move_available (b : board) (difficulty : string)
    (rnd : random_source) :
  (9 ≤ length b)%nat → available_moves b ≠ [] →
  difficulty = "hard"%string ∨ valid_source rnd →
  ∃ m out,
    choose_ai_move b difficulty rnd = Ok (Z.of_nat m, b, out)
    ∧ m ∈ available_moves b.
Proof.
  intros Hwide Hne [->|Hvalid].
  { rewrite choose_ai_move_hard. by apply best_ai_move_available. }
  destruct (choose_ai_move_modulated b difficulty rnd Hwide Hne Hvalid)
    as (best & out0 & move & out & Hbest & Hrun & Hperfect & Hmod).
  destruct (best_ai_move_available b Hwide Hne) as (mb & out1 & Hbest' & Hmb).
  rewrite Hbest' in Hbest. injection Hbest as <- <-.
  assert (∃ m, move = Z.of_nat m ∧ m ∈ available_moves b) as (m & -> & Hm).
  { destruct (decide (difficulty = "hard"%string)) as [Hhard|Hhard].
    { destruct Hperfect as [-> _]; [by left|]. by exists mb. }
    destruct (decide (length (available_moves b) = 1%nat)) as [Hone|Hone].
    { destruct Hperfect as [-> _]; [by right|]. by exists mb. }
    destruct (Hmod Hhard Hone) as [Hlt Hge].
    destruct (Qlt_le_dec (rnd_random rnd) (p_best difficulty)) as [Hq|Hq].
    - rewrite (Hlt Hq). by exists mb.
    - destruct Hge as [_ Hex]; [by apply Qle_not_lt|]. exact Hex. }
  by exists m, out.
Qed.

(** What the loop guarantees when it is entered on a board with an empty
    cell. *)
Lemma game_loop_ends (difficulty : string) (rnds : nat → random_source) :
  difficulty = "hard"%string ∨ (∀ k, valid_source (rnds k)) →
  ∀ fuel turn b k stdin out,
  (9 ≤ length b)%nat → available_moves b ≠ [] → (empties b ≤ fuel)%nat →
  match game_loop fuel turn difficulty b k rnds stdin out with
  | Return b' rest out' =>
      extends b b' ∧ over b'
      ∧ (∃ pre, stdin = pre ++ rest)
      ∧ (∃ more, out' = out ++ more ++ [result_line b'])
  | Fail e => e = EOFError ∨ e = ValueError
  | Diverge => False
  end.
Proof.
  intros Hvalid. induction fuel as [|fuel IH];
    intros turn b k stdin out Hlen Hne Hfuel.
  { unfold empties in Hfuel. destruct (available_moves b); [done|].
    simpl in Hfuel. lia. }
  assert (∀ m x stdin1 more1,
    b !! m = Some EMPTY → x ≠ EMPTY → (∃ pre, stdin = pre ++ stdin1) →
    match
      match show_and_judge (<[m := x]> b) (out ++ more1) with
      | Ok (Some stdout, _) => Return (<[m := x]> b) stdin1 stdout
      | Ok (None, stdout) =>
          game_loop fuel (if decide (turn = AI) then HUMAN else AI)
            difficulty (<[m := x]> b) (S k) rnds stdin1 stdout
      | Raise e => Fail (BoardError e)
      | OutOfFuel => Diverge
      end
    with
    | Return b' rest out' =>
        extends b b' ∧ over b'
        ∧ (∃ pre, stdin = pre ++ rest)
        ∧ (∃ more, out' = out ++ more ++ [result_line b'])
    | Fail e => e = EOFError ∨ e = ValueError
    | Diverge => False
    end) as Hjudge.
  { intros m x stdin1 more1 Hm Hx [pre1 ->].
    pose proof (extends_place b m x Hm) as Hext.
    rewrite show_and_judge_wide by (by rewrite length_insert).
    cbv zeta. destruct (overb (<[m := x]> b)) eqn:Hover.
    - split; [done|]. split; [by apply overb_over|].
      split; [by exists pre1|].
      exists (more1 ++ [Line ""%string; Line (layout (shown (<[m := x]> b)))]).
      by rewrite <-!app_assoc.
    - assert (available_moves (<[m := x]> b) ≠ []) as Hne'.
      { intros Hnil%forallb_marked. unfold overb in Hover.
        rewrite Hnil, orb_true_r in Hover. discriminate Hover. }
      pose proof (empties_place b m x Hm Hx) as Hplace.
      specialize (IH (if decide (turn = AI) then HUMAN else AI)
                     (<[m := x]> b) (S k) stdin1
                     ((out ++ more1)
                        ++ [Line ""%string;
                            Line (layout (shown (<[m := x]> b)))])).
      destruct (game_loop fuel _ difficulty (<[m := x]> b) (S k) rnds stdin1
                  _) as [b' rest out'|e|].
      + destruct IH as (Hext' & Hover' & [pre2 ->] & [more2 ->]);
          [by rewrite length_insert|done|lia|].
        split; [by eapply extends_trans|]. split; [done|].
        split; [exists (pre1 ++ pre2); by rewrite app_assoc|].
        exists (more1
                  ++ [Line ""%string; Line (layout (shown (<[m := x]> b)))]
                  ++ more2).
        by rewrite <-!app_assoc.
      + apply IH; [by rewrite length_insert|done|lia].
      + apply IH; [by rewrite length_insert|done|lia]. }
  simpl. destruct (decide (turn = HUMAN)) as [Hturn|Hturn].
  - pose proof (ask_human_move_outcome b stdin out Hlen) as Htotal.
    destruct (ask_human_move b stdin out) as [pos stdin1 out1|e|] eqn:Hask;
      [| |done].
    + apply ask_human_move_inv in Hask
        as (Hpos & Hcell & pre & msgs & -> & _ & -> & _).
      replace pos with (Z.of_nat (Z.to_nat pos)) by lia.
      rewrite setitem_int_place by (by eapply lookup_lt_Some).
      apply (Hjudge (Z.to_nat pos) HUMAN stdin1 (msgs ++ [ask_prompt]));
        [done|done|by exists pre].
    + destruct Htotal as [->|[-> _]]; [by right|by left].
  - destruct (choose_ai_move_available b difficulty (rnds k) Hlen Hne)
      as (m & narration & -> & Hm); [destruct Hvalid; auto|].
    rewrite setitem_int_place by (by eapply available_moves_lt).
    apply elem_of_available_moves in Hm.
    apply (Hjudge m AI stdin
             ((Narration <$> narration)
                ++ [Line (nl +:+ "AI plays at " +:+ str (Z.of_nat m + 1))]));
      [done|done|by exists []].
Qed.

(** ** Games at "hard" are games of [hard_play] *)

Lemma collect_Ok_each {A} (f : nat → result (list A)) (moves : list nat)
    (finals : list A) (m : nat) :
  collect f moves = Ok finals → m ∈ moves → ∃ xs, f m = Ok xs.
Proof.
  revert finals. induction moves as [|m' moves IH]; intros finals; simpl.
  - by intros _ ?%elem_of_nil.
  - intros (xs & Hxs & (ys & Hys & _)%bind_Ok)%bind_Ok
           [->|Hm]%elem_of_cons.
    + by exists xs.
    + by eapply IH.
Qed.

Lemma after_move_wide (turn : cell) (b : board) :
  (9 ≤ length b)%nat →
  after_move turn b =
    Ok (if overb b then Over (winner_of b)
        else Playing (if decide (turn = AI) then HUMAN else AI)).
Proof.
  intros Hlen. unfold after_move, overb.
  rewrite winner_wide, is_draw_wide by done. simpl.
  destruct (winner_of b) as [w|]; simpl; [done|].
  by destruct (forallb _ b).
Qed.

Lemma game_loop_hard_play (rnds : nat → random_source) (rnd : random_source) :
  ∀ fuel turn b k stdin out final rest out',
  (9 ≤ length b)%nat →
  game_loop fuel turn "hard" b k rnds stdin out = Return final rest out' →
  ∀ fuel' finals, hard_play rnd fuel' turn b = Ok finals → final ∈ finals.
Proof.
  induction fuel as [|fuel IH];
    intros turn b k stdin out final rest out' Hlen Hrun [|fuel'] finals Hplay;
    [done..|].
  assert (∀ b1 stdin1 out1 xs,
    length b1 = length b →
    match show_and_judge b1 out1 with
    | Ok (Some stdout, _) => Return b1 stdin1 stdout
    | Ok (None, stdout) =>
        game_loop fuel (if decide (turn = AI) then HUMAN else AI)
          "hard" b1 (S k) rnds stdin1 stdout
    | Raise e => Fail (BoardError e)
    | OutOfFuel => Diverge
    end = Return final rest out' →
    (st ← after_move turn b1;
     match st with
     | Over _ => mret [b1]
     | Playing turn => hard_play rnd fuel' turn b1
     end) = Ok xs →
    final ∈ xs) as Hjudge.
  { intros b1 stdin1 out1 xs Hlen1 Hgame Hcont.
    rewrite show_and_judge_wide in Hgame by lia. cbv zeta in Hgame.
    rewrite after_move_wide in Hcont by lia. simpl in Hcont.
    destruct (overb b1).
    - injection Hgame as <- _ _. injection Hcont as <-. by left.
    - eapply IH; [|exact Hgame|exact Hcont]. lia. }
  simpl in Hrun, Hplay. destruct (decide (turn = HUMAN)) as [Hturn|Hturn].
  - destruct (ask_human_move b stdin out) as [pos stdin1 out1|e|] eqn:Hask;
      [|done..].
    apply ask_human_move_inv in Hask as (Hpos & Hcell & _).
    assert (Z.to_nat pos ∈ available_moves b) as Hin
      by (by apply elem_of_available_moves).
    pose proof (lookup_lt_Some _ _ _ Hcell) as Hlt.
    replace pos with (Z.of_nat (Z.to_nat pos)) in Hrun by lia.
    rewrite setitem_int_place in Hrun by done.
    destruct (collect_Ok_each _ _ _ _ Hplay Hin) as [xs Hxs].
    apply (collect_elem_of _ _ _ final Hplay).
    exists (Z.to_nat pos), xs. split; [done|]. split; [done|].
    unfold human_turn in Hxs. rewrite setitem_lt in Hxs by done.
    simpl in Hxs.
    eapply Hjudge; [|exact Hrun|exact Hxs]. by rewrite length_insert.
  - unfold ai_turn in Hplay.
    rewrite choose_ai_move_hard, best_ai_move_spec in Hrun by done.
    rewrite choose_ai_move_hard, best_ai_move_spec in Hplay by done.
    simpl in Hplay.
    destruct (setitem_int b _ AI) as [b1| |] eqn:Hset; [|done..].
    simpl in Hplay.
    eapply Hjudge; [|exact Hrun|exact Hplay].
    by eapply setitem_int_length.
Qed.

(** ** [main] *)

Lemma main_unfold (stdin : list string) (rnds : nat → random_source) :
  main stdin rnds =
    match choose_starting_player stdin banner with
    | Return turn stdin stdout =>
        match choose_difficulty stdin stdout with
        | Return difficulty stdin stdout =>
            game_loop 10 turn difficulty empty_board 0 rnds stdin stdout
        | Fail e => Fail e
        | Diverge => Diverge
        end
    | Fail e => Fail e
    | Diverge => Diverge
    end.
Proof. reflexivity. Qed.

(** X18. A run of [main] ends, for any lines typed, any difficulty chosen
    and any draws of the random module (a number in [0, 1) and an index
    within the list drawn from): with [EOFError] when the lines typed run
    out, with the [ValueError] of [int], or with a return, within ten
    passes of the loop, on a board of nine cells on which a line is
    completed or no cell is empty, the result of that board being the last
    line written after the banner.  No move raises [IndexError]. *)
Theorem main_ends (stdin : list string) (rnds : nat → random_source) :
  (∀ k, valid_source (rnds k)) →
  match main stdin rnds with
  | Return b rest out =>
      length b = 9%nat ∧ over b
      ∧ (∃ pre, stdin = pre ++ rest)
      ∧ (∃ more, out = banner ++ more ++ [result_line b])
  | Fail e => e = EOFError ∨ e = ValueError
  | Diverge => False
  end.
Proof.
  intros Hvalid. rewrite main_unfold.
  pose proof (choose_starting_player_inv stdin banner) as Hstart.
  destruct (choose_starting_player stdin banner) as [turn stdin1 out1|e|];
    [|by left; destruct Hstart|done].
  destruct Hstart as (_ & pre1 & msgs1 & -> & _ & -> & _).
  pose proof (choose_difficulty_inv stdin1
                (banner ++ msgs1 ++ [start_prompt])) as Hdiff.
  destruct (choose_difficulty stdin1 _) as [difficulty stdin2 out2|e|];
    [|by left; destruct Hdiff|done].
  destruct Hdiff as (_ & pre2 & msgs2 & -> & _ & -> & _).
  pose proof (game_loop_ends difficulty rnds (or_intror Hvalid) 10 turn
                empty_board 0 stdin2
                ((banner ++ msgs1 ++ [start_prompt])
                   ++ msgs2 ++ [difficulty_prompt])) as Hloop.
  destruct (game_loop 10 turn difficulty empty_board 0 rnds stdin2 _)
    as [b rest out|e|].
  - destruct Hloop as ([Hlen _] & Hover & [pre3 ->] & [more ->]);
      [vm_compute; lia|by vm_compute|vm_compute; lia|].
    split; [done|]. split; [done|].
    split; [exists (pre1 ++ pre2 ++ pre3); by rewrite <-!app_assoc|].
    exists ((msgs1 ++ [start_prompt]) ++ (msgs2 ++ [difficulty_prompt])
              ++ more).
    by rewrite <-!app_assoc.
  - apply Hloop; [vm_compute; lia|by vm_compute|vm_compute; lia].
  - apply Hloop; [vm_compute; lia|by vm_compute|vm_compute; lia].
Qed.

Lemma main_ends_witness :
  match main ["h"; "e"; "5"; "1"; "2"; "3"; "4"; "6"; "7"; "8"; "9"]%string
             (λ _, half_then_first) with
  | Return b rest out =>
      length b = 9%nat ∧ over b
      ∧ (∃ pre, ["h"; "e"; "5"; "1"; "2"; "3"; "4"; "6"; "7"; "8"; "9"]%string
                = pre ++ rest)
      ∧ (∃ more, out = banner ++ more ++ [result_line b])
  | Fail e => e = EOFError ∨ e = ValueError
  | Diverge => False
  end.
Proof.
  apply (main_ends
           ["h"; "e"; "5"; "1"; "2"; "3"; "4"; "6"; "7"; "8"; "9"]%string
           (λ _, half_then_first)).
  intros _. split; [split; [discriminate|reflexivity]|].
  intros n Hn. exact Hn.
Defined.

Lemma hard_play_never_lost (rnd : random_source) :
  never_lost (hard_play rnd 10 HUMAN empty_board) = true
  ∧ never_lost (hard_play rnd 10 AI empty_board) = true.
Proof. split; vm_compute; reflexivity. Qed.

(** X19. At "hard" the player never wins: in a run of [main] in which the
    difficulty chosen is "hard", whoever starts, whatever lines the player
    types and whatever the random module draws, the final board is not won
    by HUMAN and the last line written is the win of AI or the draw. *)
Theorem main_hard_never_loses (stdin : list string)
    (rnds : nat → random_source) (turn : cell)
    (stdin1 stdin2 rest : list string) (out1 out2 out : list output)
    (b : board) :
  choose_starting_player stdin banner = Return turn stdin1 out1 →
  choose_difficulty stdin1 out1 = Return "hard"%string stdin2 out2 →
  main stdin rnds = Return b rest out →
  winner_of b ≠ Some HUMAN
  ∧ over b
  ∧ last out = Some (result_line b)
  ∧ (result_line b = Line (nl +:+ "Result: AI wins.")
     ∨ result_line b = Line (nl +:+ "Result: Draw.")).
Proof.
  intros Hstart Hdiff Hmain. rewrite main_unfold, Hstart, Hdiff in Hmain.
  pose proof (choose_starting_player_inv stdin banner) as Hturn.
  rewrite Hstart in Hturn. destruct Hturn as [Hturn _].
  pose proof (game_loop_ends "hard" rnds (or_introl eq_refl) 10 turn
                empty_board 0 stdin2 out2) as Hloop.
  rewrite Hmain in Hloop.
  destruct Hloop as (_ & Hover & _ & [more ->]);
    [vm_compute; lia|by vm_compute|vm_compute; lia|].
  assert (winner_of b ≠ Some HUMAN) as Hw.
  { destruct (hard_play_never_lost (rnds 0%nat)) as [Hh Ha].
    assert (never_lost (hard_play (rnds 0%nat) 10 turn empty_board) = true)
      as Hnever by (by destruct Hturn as [->| ->]).
    destruct (hard_play (rnds 0%nat) 10 turn empty_board) as [finals| |]
      eqn:Hplay; [|done..].
    pose proof (game_loop_hard_play rnds (rnds 0%nat) 10 turn empty_board
                  0%nat stdin2 out2 b rest _ ltac:(vm_compute; lia) Hmain
                  10%nat finals Hplay) as Hin.
    simpl in Hnever. rewrite forallb_forall in Hnever.
    apply list_elem_of_In, Hnever, andb_true_iff in Hin as [Hin _].
    by apply bool_decide_eq_true in Hin. }
  split; [done|]. split; [done|]. split.
  - by rewrite !app_assoc, last_snoc.
  - unfold result_line. destruct (winner_of b) as [[]|] eqn:Hwin.
    + by apply winner_of_not_EMPTY in Hwin.
    + done.
    + by left.
    + by right.
Qed.

Lemma main_hard_never_loses_witness :
  ∃ b rest out,
    main ["h"; "H"; "5"; "1"; "7"; "6"; "2"; "9"]%string
         (λ _, half_then_first) = Return b rest out
    ∧ winner_of b ≠ Some HUMAN
    ∧ last out = Some (Line (nl +:+ "Result: AI wins.")).
Proof.
  destruct (main ["h"; "H"; "5"; "1"; "7"; "6"; "2"; "9"]%string
              (λ _, half_then_first)) as [b rest out|e|] eqn:Hmain;
    [|exfalso; vm_compute in Hmain; discriminate Hmain..].
  exists b, rest, out. split; [reflexivity|].
  destruct (main_hard_never_loses
              ["h"; "H"; "5"; "1"; "7"; "6"; "2"; "9"]%string
              (λ _, half_then_first) HUMAN
              ["H"; "5"; "1"; "7"; "6"; "2"; "9"]%string
              ["5"; "1"; "7"; "6"; "2"; "9"]%string rest
              (banner ++ [start_prompt])
              ((banner ++ [start_prompt]) ++ [difficulty_prompt]) out b)
    as (Hw & _ & Hlast & _).
  - vm_compute. reflexivity.
  - vm_compute. reflexivity.
  - exact Hmain.
  - split; [exact Hw|]. rewrite Hlast.
    vm_compute in Hmain. injection Hmain as <- _ _. vm_compute. reflexivity.
Defined.

(** ** The players alternate *)

Lemma count_of_place (b : board) (m : nat) (x y : cell) :
  b !! m = Some EMPTY → y ≠ EMPTY →
  count_of y (<[m := x]> b)
  = if decide (x = y) then S (count_of y b) else count_of y b.
Proof.
  intros Hm Hy. unfold count_of. revert m Hm.
  induction b as [|c b IH]; intros [|m] Hm; try done; simpl in *.
  - injection Hm as ->. rewrite !filter_cons.
    rewrite (decide_False (P := EMPTY = y)) by done.
    by destruct (decide (x = y)).
  - rewrite !filter_cons. specialize (IH m Hm).
    destruct (decide (c = y)); simpl; rewrite IH; by destruct (decide (x = y)).
Qed.

(** One pass of the loop of [main] that ends the game or goes on. *)
Lemma game_loop_step (difficulty : string) (rnds : nat → random_source)
    (fuel : nat) (turn : cell) (b : board) (k : nat) (stdin : list string)
    (out : list output) (final : board) (rest : list string)
    (out' : list output) :
  difficulty = "hard"%string ∨ (∀ k, valid_source (rnds k)) →
  (9 ≤ length b)%nat → available_moves b ≠ [] →
  game_loop (S fuel) turn difficulty b k rnds stdin out
    = Return final rest out' →
  ∃ m, b !! m = Some EMPTY
       ∧ let b1 := <[m := if decide (turn = HUMAN) then HUMAN else AI]> b in
         (overb b1 = true ∧ final = b1)
         ∨ (overb b1 = false
            ∧ ∃ stdin1 out1,
                game_loop fuel (if decide (turn = AI) then HUMAN else AI)
                  difficulty b1 (S k) rnds stdin1 out1
                = Return final rest out').
Proof.
  intros Hvalid Hlen Hne Hrun. simpl in Hrun.
  destruct (decide (turn = HUMAN)) as [Hturn|Hturn].
  - destruct (ask_human_move b stdin out) as [pos stdin1 out1|e|] eqn:Hask;
      [|done..].
    apply ask_human_move_inv in Hask as (Hpos & Hcell & _).
    replace pos with (Z.of_nat (Z.to_nat pos)) in Hrun by lia.
    rewrite setitem_int_place in Hrun by (by eapply lookup_lt_Some).
    rewrite show_and_judge_wide in Hrun by (by rewrite length_insert).
    cbv zeta in Hrun. exists (Z.to_nat pos). split; [done|]. cbv zeta.
    destruct (overb (<[Z.to_nat pos := HUMAN]> b)).
    + left. by injection Hrun as <- _ _.
    + right. split; [done|]. by eexists _, _.
  - destruct (choose_ai_move_available b difficulty (rnds k) Hlen Hne)
      as (m & narration & Hmove & Hm); [destruct Hvalid; auto|].
    rewrite Hmove in Hrun.
    rewrite setitem_int_place in Hrun by (by eapply available_moves_lt).
    rewrite show_and_judge_wide in Hrun by (by rewrite length_insert).
    cbv zeta in Hrun. apply elem_of_available_moves in Hm.
    exists m. split; [done|]. cbv zeta.
    destruct (overb (<[m := AI]> b)).
    + left. by injection Hrun as <- _ _.
    + right. split; [done|]. by eexists _, _.
Qed.

Lemma game_loop_alternates (difficulty : string)
    (rnds : nat → random_source) :
  difficulty = "hard"%string ∨ (∀ k, valid_source (rnds k)) →
  ∀ fuel turn b k stdin out final rest out',
  (9 ≤ length b)%nat → available_moves b ≠ [] → turn ≠ EMPTY →
  game_loop fuel turn difficulty b k rnds stdin out
    = Return final rest out' →
  let moves := (empties b - empties final)%nat in
  (0 < moves)%nat
  ∧ count_of turn final = (count_of turn b + (moves + 1) / 2)%nat
  ∧ count_of (if decide (turn = AI) then HUMAN else AI) final
    = (count_of (if decide (turn = AI) then HUMAN else AI) b + moves / 2)%nat.
Proof.
  intros Hvalid. induction fuel as [|fuel IH];
    intros turn b k stdin out final rest out' Hlen Hne Hturn Hrun; [done|].
  destruct (game_loop_step _ _ _ _ _ _ _ _ _ _ _ Hvalid Hlen Hne Hrun)
    as (m & Hm & Hstep).
  cbv zeta in Hstep.
  assert ((if decide (turn = HUMAN) then HUMAN else AI) = turn) as Hmark
    by (destruct turn; done).
  rewrite Hmark in Hstep.
  pose proof (empties_place b m turn Hm Hturn) as Hplace.
  pose proof (count_of_place b m turn turn Hm Hturn) as Hown.
  rewrite decide_True in Hown by done.
  pose proof (count_of_place b m turn
                (if decide (turn = AI) then HUMAN else AI) Hm
                ltac:(destruct turn; done)) as Hother.
  rewrite (decide_False
             (P := turn = (if decide (turn = AI) then HUMAN else AI)))
    in Hother by (destruct turn; by vm_compute).
  destruct Hstep as [[_ ->]|(Hover & stdin1 & out1 & Hrest)].
  - cbv zeta. replace (empties b - empties (<[m := turn]> b))%nat
      with 1%nat by lia.
    rewrite Hown, Hother. simpl. lia.
  - assert (available_moves (<[m := turn]> b) ≠ []) as Hne'.
    { intros Hnil%forallb_marked. unfold overb in Hover.
      rewrite Hnil, orb_true_r in Hover. discriminate Hover. }
    apply IH in Hrest as (Hpos & Hnext & Hback);
      [|by rewrite length_insert|done|destruct turn; done].
    assert ((if decide ((if decide (turn = AI) then HUMAN else AI) = AI)
             then HUMAN else AI) = turn) as Hflip by (destruct turn; done).
    rewrite Hflip in Hback. cbv zeta.
    set (n := (empties (<[m := turn]> b) - empties final)%nat) in *.
    replace (empties b - empties final)%nat with (S n) by lia.
    split; [lia|]. rewrite Hback, Hnext, Hown, Hother.
    replace (S n + 1)%nat with (n + 1 * 2)%nat by lia.
    rewrite Nat.div_add by done.
    replace (S n) with (n + 1)%nat by lia.
    split; [lia|done].
Qed.

(** X20. The players alternate: in a run of [main] that plays [n] moves,
    [n] is between 1 and 9, the side that starts has placed the [n]
    rounded up half and the other side the [n] rounded down half of the
    marks of the final board, which has [9 - n] empty cells. *)
Theorem main_alternates (stdin : list string)
    (rnds : nat → random_source) (turn : cell)
    (stdin1 rest : list string) (out1 out : list output) (b : board) :
  (∀ k, valid_source (rnds k)) →
  choose_starting_player stdin banner = Return turn stdin1 out1 →
  main stdin rnds = Return b rest out →
  let moves := (9 - empties b)%nat in
  (1 ≤ moves ≤ 9)%nat
  ∧ count_of turn b = ((moves + 1) / 2)%nat
  ∧ count_of (if decide (turn = AI) then HUMAN else AI) b = (moves / 2)%nat
  ∧ count_of EMPTY b = (9 - moves)%nat.
Proof.
  intros Hvalid Hstart Hmain. rewrite main_unfold, Hstart in Hmain.
  pose proof (choose_starting_player_inv stdin banner) as Hturn.
  rewrite Hstart in Hturn. destruct Hturn as [Hturn _].
  destruct (choose_difficulty stdin1 out1) as [difficulty stdin2 out2|e|];
    [|done..].
  pose proof (game_loop_ends difficulty rnds (or_intror Hvalid) 10 turn
                empty_board 0 stdin2 out2) as Hends.
  rewrite Hmain in Hends.
  destruct Hends as ([Hlen _] & _);
    [vm_compute; lia|by vm_compute|vm_compute; lia|].
  apply (game_loop_alternates difficulty rnds (or_intror Hvalid)) in Hmain
    as (Hpos & Hown & Hother);
    [|vm_compute; lia|by vm_compute|by destruct Hturn as [->| ->]].
  change (empties empty_board) with 9%nat in *.
  assert (count_of turn empty_board = 0%nat) as Hzero
    by (by destruct Hturn as [->| ->]).
  assert (count_of (if decide (turn = AI) then HUMAN else AI) empty_board
          = 0%nat) as Hzero' by (by destruct Hturn as [->| ->]).
  rewrite Hzero in Hown. rewrite Hzero' in Hother.
  pose proof (empties_le b) as Hle.
  assert (count_of EMPTY b = empties b) as Hempty.
  { symmetry. apply (length_avail_from_filter 0). }
  cbv zeta. split; [lia|]. split; [done|]. split; [done|]. lia.
Qed.

Lemma main_alternates_witness :
  ∃ b rest out,
    main ["h"; "e"; "5"; "1"; "2"; "3"; "4"; "6"; "7"; "8"; "9"]%string
         (λ _, half_then_first) = Return b rest out
    ∧ count_of HUMAN b = ((9 - empties b + 1) / 2)%nat
    ∧ count_of AI b = ((9 - empties b) / 2)%nat.
Proof.
  destruct (main ["h"; "e"; "5"; "1"; "2"; "3"; "4"; "6"; "7"; "8"; "9"]%string
              (λ _, half_then_first)) as [b rest out|e|] eqn:Hmain;
    [|exfalso; vm_compute in Hmain; discriminate Hmain..].
  exists b, rest, out. split; [reflexivity|].
  destruct (main_alternates
              ["h"; "e"; "5"; "1"; "2"; "3"; "4"; "6"; "7"; "8"; "9"]%string
              (λ _, half_then_first) HUMAN
              ["e"; "5"; "1"; "2"; "3"; "4"; "6"; "7"; "8"; "9"]%string
              rest (banner ++ [start_prompt]) out b)
    as (_ & Hown & Hother & _).
  - intros _. split; [split; [discriminate|reflexivity]|].
    intros n Hn. exact Hn.
  - vm_compute. reflexivity.
  - exact Hmain.
  - exact (conj Hown Hother).
Defined.

(** ** The lines [best_ai_move] prints for the moves it scores *)

Lemma decision_lines (threats : list nat) (b : board) (moves : list nat) :
  ∀ best_score best_move m s blocks next,
  MoveScore m s blocks next ∈ (decision threats b moves best_score best_move).2 →
  m ∈ moves ∧ wins_now b m = false
  ∧ MoveScore m s blocks next = score_line threats b m.
Proof.
  induction moves as [|m' moves IH];
    intros best_score best_move m s blocks next; simpl.
  - intros [=]%list_elem_of_singleton.
  - destruct (wins_now b m') eqn:Hnow; simpl.
    + rewrite !elem_of_cons, elem_of_nil. intros [[=]|[[=]|[]]].
    + intros [Heq|Hin]%elem_of_cons.
      * injection Heq as -> -> -> ->. split; [by left|done].
      * assert (m ∈ moves ∧ wins_now b m = false
                ∧ MoveScore m s blocks next = score_line threats b m)
          as (Hm & Hno & Hline).
        { destruct (decide (move_value b m' > best_score)); by eapply IH. }
        split; [by right|done].
Qed.

Lemma immediate_loss (c : board) (t : nat) :
  (9 ≤ length c)%nat → winner_of c = None → t ∈ wins_for c HUMAN →
  value c HUMAN = -1.
Proof.
  intros Hlen Hnone [Hct Hwin]%elem_of_wins_for.
  assert (t ∈ available_moves c) as Havail
    by (by apply elem_of_available_moves).
  assert (available_moves c ≠ []) as Hne
    by (intros Hnil; rewrite Hnil in Havail; by apply elem_of_nil in Havail).
  destruct (value_node_HUMAN c HUMAN ltac:(done) Hlen Hnone Hne) as [Hall _].
  specialize (Hall t Havail). unfold child, mover in Hall. simpl in Hall.
  destruct (value_terminal (<[t := HUMAN]> c) AI) as (_ & H2 & _);
    [by rewrite length_insert|].
  rewrite (H2 Hwin) in Hall.
  destruct (value_sound c HUMAN Hlen) as [_ Hr].
  unfold in_range in Hr. lia.
Qed.

(** X21. The score lines of [best_ai_move] are consistent with the scores:
    on a nine-cell board without winner, a line "Move m, score s" is printed
    for an available move that is no immediate win, [s] is the score
    [minimax] gives the position after the move with a fresh memo table, the
    flag "blocks threat" is set exactly when HUMAN would win at that cell,
    the cells listed after "allows HUMAN win next" are exactly the cells at
    which HUMAN wins after the move, and whenever that list is not empty
    the score is -1. *)
Theorem best_ai_move_annotations (b : board) (move : Z) (out : list event)
    (m : nat) (s : Z) (blocks : bool) (next : list nat) :
  length b = 9%nat → winner b = Ok None →
  best_ai_move b = Ok (move, b, out) →
  MoveScore m s blocks next ∈ out →
  m ∈ available_moves b
  ∧ winner (child b AI m) = Ok None
  ∧ scores (child b AI m) HUMAN s
  ∧ (blocks = true ↔ winner (<[m := HUMAN]> b) = Ok (Some HUMAN))
  ∧ (∀ t, t ∈ next ↔
          child b AI m !! t = Some EMPTY
          ∧ winner (<[t := HUMAN]> (child b AI m)) = Ok (Some HUMAN))
  ∧ (next ≠ [] → s = -1).
Proof.
  intros Hnine Hw Hrun Hin. assert (9 ≤ length b)%nat as Hlen by lia.
  rewrite winner_wide in Hw by done. injection Hw as Hnone.
  rewrite best_ai_move_spec in Hrun by done. injection Hrun as _ <-.
  apply elem_of_app in Hin as [Hin|Hin].
  { exfalso. apply elem_of_app in Hin as [Hin|Hin].
    - unfold threat_lines in Hin. destruct (wins_for b HUMAN).
      + by apply elem_of_nil in Hin.
      + by apply list_elem_of_singleton in Hin.
    - by apply list_elem_of_singleton in Hin. }
  apply decision_lines in Hin as (Hm & Hnow & Hline).
  injection Hline as -> -> ->.
  pose proof Hm as Hcell. apply elem_of_available_moves in Hcell.
  apply bool_decide_eq_false in Hnow.
  pose proof (no_winner_after b m Hnone Hnow) as Hafter.
  unfold child, mover. simpl.
  assert (9 ≤ length (<[m := AI]> b))%nat as Hc by (by rewrite length_insert).
  split; [done|]. split; [by rewrite winner_wide, Hafter|].
  split; [by apply scores_value|]. split; [|split].
  - rewrite bool_decide_eq_true, elem_of_wins_for.
    rewrite winner_wide by (by rewrite length_insert). split.
    + by intros [_ ->].
    + by intros [= ->].
  - intros t. rewrite elem_of_wins_for.
    rewrite winner_wide by (by rewrite !length_insert). split.
    + by intros [? ->].
    + by intros [? [= ->]].
  - intros Hne. destruct (wins_for (<[m := AI]> b) HUMAN) as [|t ts] eqn:Hnext;
      [done|].
    apply (immediate_loss (<[m := AI]> b) t Hc Hafter).
    rewrite Hnext. by left.
Qed.

Lemma best_ai_move_annotations_witness :
  winner (child blocking_position AI 3) = Ok None
  ∧ scores (child blocking_position AI 3) HUMAN (-1).
Proof.
  destruct (best_ai_move_annotations blocking_position 2
              [ThreatWarning [2%nat]; Thinking; MoveScore 2 0 true [];
               MoveScore 3 (-1) false [2%nat]; MoveScore 5 (-1) false [2%nat];
               MoveScore 6 (-1) false [2%nat]; MoveScore 7 (-1) false [2%nat];
               MoveScore 8 (-1) false [2%nat]; Chosen 2]
              3 (-1) false [2%nat]) as (_ & H1 & H2 & _).
  - reflexivity.
  - vm_compute. reflexivity.
  - vm_compute. reflexivity.
  - apply (list_elem_of_lookup_2 _ 3%nat). reflexivity.
  - exact (conj H1 H2).
Defined.
